(** * mbtool/utilities.cpp: device matching, ROM switching and the AROMA
      installer-archive generator, as a shallow embedding.

    The C++ code talks to a number of collaborators that live in other
    libraries (the property store, the JSON device parser, the switch
    engine, the ROM registry, minizip, the POSIX file API).  They are
    gathered in the type class [Externals]; every function of
    utilities.cpp is translated on top of that interface, with the process
    state (log, switch-engine calls, the devices-file global, the open
    archive) threaded through a small state monad. *)

From Stdlib Require Import ZArith NArith Strings.String Strings.Ascii Strings.Byte.
From Stdlib Require Import Numbers.DecimalString.
From stdpp Require Import base option list strings gmap.

Local Open Scope Z_scope.

(** ** Characters and C strings *)

Definition NUL : ascii := "000"%char.
Definition TAB : ascii := "009"%char.
Definition LF : ascii := "010"%char.
Definition DQUOTE : ascii := "034"%char.
Definition AT : ascii := "@"%char.

Definition chr (c : ascii) : string := String c EmptyString.

(** [s.c_str()] read through a [const char *]: the characters before the
    first NUL. *)
Fixpoint c_str (s : string) : string :=
  match s with
  | EmptyString => EmptyString
  | String c r => if Ascii.eqb c NUL then EmptyString else String c (c_str r)
  end.

(** The characters of a string, for "does not contain" side conditions. *)
Fixpoint chars (s : string) : list ascii :=
  match s with
  | EmptyString => []
  | String c r => c :: chars r
  end.

(** A string that holds no NUL is its own C string. *)
Definition is_c_string (s : string) : Prop := NUL ∉ chars s.

(** ** Integers of the machine *)

(** [std::size_t] on the 64-bit targets: arithmetic wraps at 2^64. *)
Definition SIZE_BITS : N := 64.
Definition size_t_wrap (n : N) : N := (n mod 2 ^ SIZE_BITS)%N.
Definition size_add (a b : N) : N := size_t_wrap (a + b).

(** [static_cast<uint32_t>(x)] and [static_cast<uint64_t>(x)]. *)
Definition to_uint32 (x : Z) : Z := x mod 2 ^ 32.
Definition to_uint64 (x : Z) : Z := x mod 2 ^ 64.

(** ** [mb::format]: the printf directives that utilities.cpp uses *)

Inductive fmt_arg : Type :=
  | FmtStr (s : string)   (* %s, a [const char *]: printed up to its NUL *)
  | FmtInt (z : Z)        (* %d *)
  | FmtSize (n : N).      (* %zu *)

Definition decimal_of_N (n : N) : string := NilZero.string_of_uint (N.to_uint n).
Definition decimal_of_Z (z : Z) : string := NilZero.string_of_int (Z.to_int z).

Definition render_arg (a : fmt_arg) : string :=
  match a with
  | FmtStr s => c_str s
  | FmtInt z => decimal_of_Z z
  | FmtSize n => decimal_of_N n
  end.

Definition next_arg (args : list fmt_arg) : string :=
  match args with
  | [] => EmptyString
  | a :: _ => render_arg a
  end.

Fixpoint format (fmt : string) (args : list fmt_arg) : string :=
  match fmt with
  | EmptyString => EmptyString
  | String "%" (String "s" rest) => next_arg args +:+ format rest (tail args)
  | String "%" (String "d" rest) => next_arg args +:+ format rest (tail args)
  | String "%" (String "z" (String "u" rest)) =>
      next_arg args +:+ format rest (tail args)
  | String c rest => String c (format rest args)
  end.

(** ** Logging (mblog): level and formatted message, tag "mbtool/utilities" *)

Inductive log_level : Type := LOG_DEBUG | LOG_WARNING | LOG_ERROR.

Record log_line : Type := { ll_level : log_level; ll_msg : string }.

#[global] Instance log_level_eq_dec : EqDecision log_level.
Proof. solve_decision. Defined.
#[global] Instance log_line_eq_dec : EqDecision log_line.
Proof. solve_decision. Defined.

(** ** POSIX bits *)

Record stat_t : Type := { st_mode : Z }.

Definition S_IFMT : Z := 61440.    (* 0170000 *)
Definition S_IFBLK : Z := 24576.   (* 0060000 *)
Definition S_ISBLK (m : Z) : bool := Z.land m S_IFMT =? S_IFBLK.

(** A system or library call that either yields a value or fails with an
    errno. *)
Inductive io_result (A : Type) : Type :=
  | IoOk (a : A)
  | IoErr (errno : Z).
Arguments IoOk {A} a.
Arguments IoErr {A} errno.

(** What one [read(fd, buf, sizeof(buf))] call returns. *)
Inductive read_result : Type :=
  | ReadData (buf : list byte)   (* n = length buf; n = 0 is end of file *)
  | ReadErr (errno : Z).         (* n < 0 *)

(** An open file descriptor as add_file uses it: the outcome of [fstat], of
    the [lseek64] pair that measures the size, and of the successive [read]
    calls (after the last one, [read] returns 0). *)
Record file_handle : Type := {
  fh_fstat : io_result stat_t;
  fh_size : io_result Z;
  fh_reads : list read_result
}.

(** ** minizip data *)

Definition ZIP_OK : Z := 0.
Definition Z_DEFLATED : Z := 8.
Definition Z_DEFAULT_COMPRESSION : Z := -1.

Record tm_zip : Type := {
  tm_sec : Z; tm_min : Z; tm_hour : Z; tm_mday : Z; tm_mon : Z; tm_year : Z
}.

Record zip_fileinfo : Type := {
  tmz_date : tm_zip;
  dosDate : Z;
  internal_fa : Z;
  external_fa : Z
}.

(** [memset(&zi, 0, sizeof(zi))] *)
Definition zip_fileinfo_zero : zip_fileinfo :=
  {| tmz_date := {| tm_sec := 0; tm_min := 0; tm_hour := 0;
                    tm_mday := 0; tm_mon := 0; tm_year := 0 |};
     dosDate := 0; internal_fa := 0; external_fa := 0 |}.

Record zip_entry : Type := {
  ze_filename : string;
  ze_zipfi : zip_fileinfo;
  ze_method : Z;
  ze_level : Z;
  ze_raw : Z;
  ze_zip64 : bool;
  ze_data : list byte
}.

(** The archive behind a [zipFile] handle: the entries already closed, in
    the order they were added, the entry being written, and whether
    [zipClose] has finalized the archive. *)
Record zipFile : Type := {
  zf_entries : list zip_entry;
  zf_current : option zip_entry;
  zf_closed : bool
}.

(** ** Switch engine (switcher.h) *)

Inductive SwitchRomResult : Type :=
  | Succeeded | Failed | ChecksumInvalid | ChecksumNotFound.

#[global] Instance SwitchRomResult_eq_dec : EqDecision SwitchRomResult.
Proof. solve_decision. Defined.

Record switch_call : Type := {
  sc_rom_id : string;
  sc_boot_blockdev : string;
  sc_blockdev_base_dirs : list string;
  sc_force : bool
}.

(** ** ROM registry (roms.h, romconfig.h) *)

Record Rom : Type := { rom_id : string; config_path : string }.

Record RomConfig : Type := { cfg_name : string }.

(** ** Tree walk (mbutil/fts.h) *)

Inductive fts_kind : Type := Directory | RegularFile | Symlink | SpecialFile.

Record FTSENT : Type := {
  fts_info : fts_kind;
  fts_path : string;
  fts_accpath : string
}.

Inductive Action : Type := Ok | Fail.

(** ** The collaborators of utilities.cpp *)

Class Externals (Device : Type) : Type := {
  (* mbdevice/device.h: the accessors used here; [validate] returns the set
     of validation problems as flag bits, 0 when there is none *)
  codenames : Device → list string;
  boot_block_devs : Device → list string;
  block_dev_base_dirs : Device → list string;
  validate : Device → N;
  (* mbdevice/json.h *)
  device_list_from_json : string → option (list Device);
  (* the Android property store *)
  properties : gmap string string;
  (* mbutil/file.h and libc *)
  file_read_all : string → io_result (list byte);
  strerror : Z → string;
  stat : string → io_result stat_t;
  open64 : string → io_result file_handle;
  (* switcher.h *)
  switch_rom : string → string → list string → bool → SwitchRomResult;
  (* roms.h, romconfig.h, mbcommon/version.h *)
  installed_roms : list Rom;
  load_file : string → bool * RomConfig;
  version : string;
  get_system_partition : string;
  get_cache_partition : string;
  get_data_partition : string;
  get_extsd_partition : string;
  (* minizip: the return codes of the calls, given the archive so far *)
  zipOpen2_64_ok : string → bool;
  zipOpenNewFileInZip_rc : zipFile → string → Z;
  zipWriteInFileInZip_rc : zipFile → list byte → Z;
  zipCloseFileInZip_rc : zipFile → Z;
  zipClose_rc : zipFile → Z
}.

(** ** Process state and its monad *)

Record State : Type := {
  log : list log_line;
  switch_calls : list switch_call;
  devices_file : option string;
  _zf : option zipFile
}.

Definition initial_state : State :=
  {| log := []; switch_calls := []; devices_file := None; _zf := None |}.

Definition M (A : Type) : Type := State → A * State.

#[global] Instance M_ret : MRet M := λ A a st, (a, st).
#[global] Instance M_bind : MBind M :=
  λ A B f m st, f (m st).1 (m st).2.

Definition get_state : M State := λ st, (st, st).

Definition set_log (l : list log_line) (st : State) : State :=
  {| log := l; switch_calls := switch_calls st;
     devices_file := devices_file st; _zf := _zf st |}.
Definition set_switch_calls (c : list switch_call) (st : State) : State :=
  {| log := log st; switch_calls := c;
     devices_file := devices_file st; _zf := _zf st |}.
Definition set_devices_file (f : option string) (st : State) : State :=
  {| log := log st; switch_calls := switch_calls st;
     devices_file := f; _zf := _zf st |}.
Definition set_zf (z : option zipFile) (st : State) : State :=
  {| log := log st; switch_calls := switch_calls st;
     devices_file := devices_file st; _zf := z |}.

Definition add_log (lvl : log_level) (msg : string) (st : State) : State :=
  set_log (log st ++ [{| ll_level := lvl; ll_msg := msg |}]) st.

Definition LOG (lvl : log_level) (fmt : string) (args : list fmt_arg) : M unit :=
  λ st, ((), add_log lvl (format fmt args) st).
Definition LOGD := LOG LOG_DEBUG.
Definition LOGW := LOG LOG_WARNING.
Definition LOGE := LOG LOG_ERROR.

(** ** Predicates on the state monad and on the archive *)

(** [wp m Q st]: running [m] from [st] ends in a result and a state that
    satisfy [Q]. *)
Definition wp {A} (m : M A) (Q : A → State → Prop) (st : State) : Prop :=
  Q (m st).1 (m st).2.

(** [zf] comes from [zf0] by adding entries that satisfy [P], one of them
    possibly still being written. *)
Definition grown (P : zip_entry → Prop) (zf0 zf : zipFile) : Prop :=
  zf_closed zf = zf_closed zf0 ∧
  ∃ new, zf_entries zf = zf_entries zf0 ++ new ∧ Forall P new ∧
         ∀ e, zf_current zf = Some e → P e.

Definition archive_grown (P : zip_entry → Prop) (zf0 : zipFile) (st : State) : Prop :=
  ∃ zf, _zf st = Some zf ∧ grown P zf0 zf.

(** What a callback leaves behind: the archive grown, no entry open. *)
Definition settled (P : zip_entry → Prop) (zf0 : zipFile) (st : State) : Prop :=
  ∃ zf, _zf st = Some zf ∧ grown P zf0 zf ∧ zf_current zf = None.

(** * utilities.cpp *)

Section utilities.
Context {Device : Type} `{!Externals Device}.

(** [util::property_get_string(name, default)] *)
Definition property_get_string (name dflt : string) : string :=
  default dflt (properties !! name).

(** The lambda of the codename search in get_device. *)
Definition codename_is (prop_product_device prop_build_product item : string) : Prop :=
  item = prop_product_device ∨ item = prop_build_product.

#[global] Instance codename_is_dec pd bp item : Decision (codename_is pd bp item).
Proof. unfold codename_is. apply _. Defined.

(** The [for (auto &d : devices)] loop of get_device. *)
Fixpoint get_device_loop (prop_product_device prop_build_product : string)
    (devices : list Device) : M (option Device) :=
  match devices with
  | [] => mret None
  | d :: rest =>
      if negb (validate d =? 0)%N then
        LOGW "Skipping invalid device" [];;
        get_device_loop prop_product_device prop_build_product rest
      else
        match list_find (codename_is prop_product_device prop_build_product)
                        (codenames d) with
        | Some _ => mret (Some d)
        | None => get_device_loop prop_product_device prop_build_product rest
        end
  end.

(** [get_device(path, device)]: [Some d] stands for [true] with
    [device = d], [None] for [false]. *)
Definition get_device (path : string) : M (option Device) :=
  let prop_product_device := property_get_string "ro.product.device" EmptyString in
  let prop_build_product := property_get_string "ro.build.product" EmptyString in
  LOGD "ro.product.device = %s" [FmtStr prop_product_device];;
  LOGD "ro.build.product = %s" [FmtStr prop_build_product];;
  match file_read_all (c_str path) with
  | IoErr e =>
      LOGE "%s: Failed to read file: %s" [FmtStr path; FmtStr (strerror e)];;
      mret None
  | IoOk contents =>
      let contents := contents ++ [x00] in
      match device_list_from_json (c_str (string_of_list_byte contents)) with
      | None =>
          LOGE "%s: Failed to load devices" [FmtStr path];;
          mret None
      | Some devices =>
          r ← get_device_loop prop_product_device prop_build_product devices;
          match r with
          | Some d => mret (Some d)
          | None =>
              LOGE "Unknown device: %s" [FmtStr prop_product_device];;
              mret None
          end
      end
  end.

(** The lambda of the boot-partition search in utilities_switch_rom:
    [stat(path.c_str(), &sb) == 0 && S_ISBLK(sb.st_mode)]. *)
Definition is_boot_blockdev (path : string) : bool :=
  match stat (c_str path) with
  | IoOk sb => S_ISBLK (st_mode sb)
  | IoErr _ => false
  end.

(** The call into the switch engine, recorded in the state. *)
Definition call_switch_rom (id boot_blockdev : string)
    (blockdev_base_dirs : list string) (force : bool) : M SwitchRomResult :=
  λ st,
    (switch_rom id boot_blockdev blockdev_base_dirs force,
     set_switch_calls
       (switch_calls st ++
        [{| sc_rom_id := id; sc_boot_blockdev := boot_blockdev;
            sc_blockdev_base_dirs := blockdev_base_dirs; sc_force := force |}]) st).

Definition utilities_switch_rom (rom_id : string) (force : bool) : M bool :=
  st ← get_state;
  match devices_file st with
  | None =>
      LOGE "No device definitions file specified" [];;
      mret false
  | Some file =>
      r ← get_device file;
      match r with
      | None =>
          LOGE "Failed to detect device" [];;
          mret false
      | Some device =>
          match list_find (λ path, is_boot_blockdev path = true)
                          (boot_block_devs device) with
          | None =>
              LOGE "All specified boot partition paths could not be found" [];;
              mret false
          | Some (_, it) =>
              ret ← call_switch_rom (c_str rom_id) it (block_dev_base_dirs device) force;
              match ret with
              | Succeeded => LOGD "SUCCEEDED" []
              | Failed => LOGD "FAILED" []
              | ChecksumInvalid => LOGD "CHECKSUM_INVALID" []
              | ChecksumNotFound => LOGD "CHECKSUM_NOT_FOUND" []
              end;;
              mret (bool_decide (ret = Succeeded))
          end
      end
  end.

(** ** generate_aroma_config *)

(** The loop body's [format] strings. *)
Definition rom_menu_item_fmt : string :=
  chr DQUOTE +:+ "%s" +:+ chr DQUOTE +:+ ", " +:+ chr DQUOTE +:+ chr DQUOTE +:+ ", "
  +:+ chr DQUOTE +:+ "@default" +:+ chr DQUOTE +:+ "," +:+ chr LF.

Definition rom_selection_item_fmt : string :=
  "if prop(" +:+ chr DQUOTE +:+ "operations.prop" +:+ chr DQUOTE +:+ ", "
  +:+ chr DQUOTE +:+ "selected" +:+ chr DQUOTE +:+ ") == "
  +:+ chr DQUOTE +:+ "%zu" +:+ chr DQUOTE +:+ " then" +:+ chr LF
  +:+ "    setvar(" +:+ chr DQUOTE +:+ "romid" +:+ chr DQUOTE +:+ ", "
  +:+ chr DQUOTE +:+ "%s" +:+ chr DQUOTE +:+ ");" +:+ chr LF
  +:+ "    setvar(" +:+ chr DQUOTE +:+ "romname" +:+ chr DQUOTE +:+ ", "
  +:+ chr DQUOTE +:+ "%s" +:+ chr DQUOTE +:+ ");" +:+ chr LF
  +:+ "endif;" +:+ chr LF.

(** The [for (std::size_t i = 0; i < roms.roms.size(); ++i)] loop, from
    index [i] on, with the two strings built so far. *)
Fixpoint rom_items_loop (i : N) (roms : list Rom)
    (rom_menu_items rom_selection_items : string) : string * string :=
  match roms with
  | [] => (rom_menu_items, rom_selection_items)
  | rom :: rest =>
      let name := rom_id rom in
      let config := load_file (config_path rom) in
      let name :=
        if config.1 && negb (String.eqb (cfg_name config.2) EmptyString)
        then cfg_name config.2 else name in
      let rom_menu_items :=
        rom_menu_items +:+ format rom_menu_item_fmt [FmtStr name] in
      let rom_selection_items :=
        rom_selection_items +:+
        format rom_selection_item_fmt
          [FmtSize (size_add (size_add i 2) 1); FmtStr (rom_id rom); FmtStr name] in
      rom_items_loop (size_add i 1) rest rom_menu_items rom_selection_items
  end.

(** Modelled from the spec: [util::replace_all] (mbutil/string.h is not
    among the sources): a literal, global replacement, scanning left to
    right, occurrences not overlapping and the inserted text not scanned
    again.  [skip] counts the characters of a matched occurrence that are
    still to be dropped. *)
Fixpoint replace_all_from (skip : nat) (source from to : string) : string :=
  match source with
  | EmptyString => EmptyString
  | String c rest =>
      match skip with
      | S k => replace_all_from k rest from to
      | O =>
          if String.prefix from source
          then to +:+ replace_all_from (String.length from - 1) rest from to
          else String c (replace_all_from 0 rest from to)
      end
  end.

Definition replace_all (source from to : string) : string :=
  if String.eqb from EmptyString then source else replace_all_from 0 source from to.

Definition first_index : string := format "%d" [FmtInt (2 + 1)].

Definition last_index (roms : list Rom) : string :=
  format "%zu" [FmtSize (size_add 2 (size_t_wrap (N.of_nat (length roms))))].

Definition generate_aroma_config (data : list byte) : list byte :=
  let str_data := string_of_list_byte data in
  let roms := installed_roms in
  let items := rom_items_loop 0 roms EmptyString EmptyString in
  let rom_menu_items := items.1 in
  let rom_selection_items := items.2 in
  let str_data := replace_all str_data (chr TAB) "\t" in
  let str_data := replace_all str_data "@MBTOOL_VERSION@" version in
  let str_data := replace_all str_data "@ROM_MENU_ITEMS@" rom_menu_items in
  let str_data := replace_all str_data "@ROM_SELECTION_ITEMS@" rom_selection_items in
  let str_data := replace_all str_data "@FIRST_INDEX@" first_index in
  let str_data := replace_all str_data "@LAST_INDEX@" (last_index roms) in
  let str_data := replace_all str_data "@SYSTEM_MOUNT_POINT@" get_system_partition in
  let str_data := replace_all str_data "@CACHE_MOUNT_POINT@" get_cache_partition in
  let str_data := replace_all str_data "@DATA_MOUNT_POINT@" get_data_partition in
  let str_data := replace_all str_data "@EXTSD_MOUNT_POINT@" get_extsd_partition in
  list_byte_of_string str_data.

(** ** minizip calls, by their effect on the archive *)

Definition ZIP_PARAMERROR : Z := -102.

Definition open_entries (zf : zipFile) : list zip_entry :=
  zf_entries zf ++ option_list (zf_current zf).

Definition zipOpenNewFileInZip2_64_on (zf : zipFile) (filename : string)
    (zipfi : zip_fileinfo) (method level raw : Z) (zip64 : bool) : Z * zipFile :=
  let rc := zipOpenNewFileInZip_rc zf filename in
  if rc =? ZIP_OK then
    (rc, {| zf_entries := open_entries zf;
            zf_current := Some {| ze_filename := filename; ze_zipfi := zipfi;
                                  ze_method := method; ze_level := level;
                                  ze_raw := raw; ze_zip64 := zip64;
                                  ze_data := [] |};
            zf_closed := zf_closed zf |})
  else (rc, zf).

Definition append_data (e : zip_entry) (buf : list byte) : zip_entry :=
  {| ze_filename := ze_filename e; ze_zipfi := ze_zipfi e; ze_method := ze_method e;
     ze_level := ze_level e; ze_raw := ze_raw e; ze_zip64 := ze_zip64 e;
     ze_data := ze_data e ++ buf |}.

Definition zipWriteInFileInZip_on (zf : zipFile) (buf : list byte) (len : Z)
    : Z * zipFile :=
  match zf_current zf with
  | None => (ZIP_PARAMERROR, zf)
  | Some e =>
      let rc := zipWriteInFileInZip_rc zf buf in
      if rc =? ZIP_OK then
        (rc, {| zf_entries := zf_entries zf;
                zf_current := Some (append_data e (take (Z.to_nat len) buf));
                zf_closed := zf_closed zf |})
      else (rc, zf)
  end.

(** The entry reaches the archive's directory only when closing it
    succeeds. *)
Definition zipCloseFileInZip_on (zf : zipFile) : Z * zipFile :=
  match zf_current zf with
  | None => (ZIP_PARAMERROR, zf)
  | Some e =>
      let rc := zipCloseFileInZip_rc zf in
      (rc, {| zf_entries := zf_entries zf ++ (if rc =? ZIP_OK then [e] else []);
              zf_current := None;
              zf_closed := zf_closed zf |})
  end.

(** [zipClose] releases the handle whatever its return code. *)
Definition zipClose_on (zf : zipFile) : Z * zipFile :=
  (zipClose_rc zf,
   {| zf_entries := match zf_current zf with
                    | Some _ => zf_entries (zipCloseFileInZip_on zf).2
                    | None => zf_entries zf
                    end;
      zf_current := None;
      zf_closed := true |}).

(** A minizip call on the member [_zf]; a null handle is a parameter
    error. *)
Definition on_zf (call : zipFile → Z * zipFile) : M Z :=
  λ st, match _zf st with
        | None => (ZIP_PARAMERROR, st)
        | Some zf => ((call zf).1, set_zf (Some (call zf).2) st)
        end.

Definition zipOpenNewFileInZip2_64 (filename : string) (zipfi : zip_fileinfo)
    (method level raw : Z) (zip64 : bool) : M Z :=
  on_zf (λ zf, zipOpenNewFileInZip2_64_on zf filename zipfi method level raw zip64).
Definition zipWriteInFileInZip (buf : list byte) (len : Z) : M Z :=
  on_zf (λ zf, zipWriteInFileInZip_on zf buf len).
Definition zipCloseFileInZip : M Z := on_zf zipCloseFileInZip_on.
Definition zipClose : M Z := on_zf zipClose_on.

(** ** class AromaGenerator *)

Record AromaGenerator : Type := { _path : string; _zippath : string }.

Definition on_pre_execute (gen : AromaGenerator) : M bool :=
  λ st,
    if zipOpen2_64_ok (c_str (_zippath gen)) then
      (true, set_zf (Some {| zf_entries := []; zf_current := None;
                             zf_closed := false |}) st)
    else
      (LOGE "%s: Failed to open for writing" [FmtStr (_zippath gen)];;
       mret false) (set_zf None st).

Definition on_post_execute (gen : AromaGenerator) (success : bool) : M bool :=
  rc ← zipClose;
  mret (rc =? ZIP_OK).

(** [add_file(name, contents)], the in-memory overload. *)
Definition add_file_contents (name : string) (contents : list byte) : M bool :=
  let zip64 := to_uint64 (Z.of_nat (length contents)) >=? 2 ^ 32 - 1 in
  let zi := zip_fileinfo_zero in
  ret ← zipOpenNewFileInZip2_64 (c_str name) zi Z_DEFLATED Z_DEFAULT_COMPRESSION 0 zip64;
  if negb (ret =? ZIP_OK) then
    LOGW "minizip: Failed to add file (error code: %d): [memory]" [FmtInt ret];;
    mret false
  else
    ret ← zipWriteInFileInZip contents (to_uint32 (Z.of_nat (length contents)));
    if negb (ret =? ZIP_OK) then
      LOGW "minizip: Failed to write data (error code: %d): [memory]" [FmtInt ret];;
      zipCloseFileInZip;;
      mret false
    else
      zipCloseFileInZip;;
      mret true.

(** The [while ((n = read(fd, buf, sizeof(buf))) > 0)] loop of
    [add_file(name, path)] and what follows it. *)
Fixpoint add_file_copy (reads : list read_result) (path : string) : M bool :=
  match reads with
  | [] =>
      zipCloseFileInZip;;
      mret true
  | ReadErr e :: _ =>
      zipCloseFileInZip;;
      LOGE "%s: Failed to read file: %s" [FmtStr path; FmtStr (strerror e)];;
      mret false
  | ReadData buf :: rest =>
      let n := Z.of_nat (length buf) in
      if n >? 0 then
        ret ← zipWriteInFileInZip buf (to_uint32 n);
        if negb (ret =? ZIP_OK) then
          LOGW "minizip: Failed to write data (error code: %d): %s"
               [FmtInt ret; FmtStr path];;
          zipCloseFileInZip;;
          mret false
        else add_file_copy rest path
      else
        zipCloseFileInZip;;
        mret true
  end.

(** [add_file(name, path)], the overload that copies a file. *)
Definition add_file_path (name path : string) : M bool :=
  match open64 (c_str path) with
  | IoErr e =>
      LOGE "%s: Failed to open for reading: %s" [FmtStr path; FmtStr (strerror e)];;
      mret false
  | IoOk fd =>
      match fh_fstat fd with
      | IoErr e =>
          LOGE "%s: Failed to stat: %s" [FmtStr path; FmtStr (strerror e)];;
          mret false
      | IoOk sb =>
          let '(size, e) := match fh_size fd with
                            | IoOk n => (n, 0)
                            | IoErr e => (-1, e)
                            end in
          if size <? 0 then
            LOGE "%s: Failed to seek: %s" [FmtStr path; FmtStr (strerror e)];;
            mret false
          else
            let zip64 := to_uint64 size >=? 2 ^ 32 - 1 in
            let zi :=
              {| tmz_date := tmz_date zip_fileinfo_zero;
                 dosDate := 0; internal_fa := 0;
                 external_fa := Z.shiftl (Z.land (st_mode sb) 511) 16 |} in
            ret ← zipOpenNewFileInZip2_64 (c_str name) zi Z_DEFLATED
                    Z_DEFAULT_COMPRESSION 0 zip64;
            if negb (ret =? ZIP_OK) then
              LOGW "minizip: Failed to add file (error code: %d): %s"
                   [FmtInt ret; FmtStr path];;
              mret false
            else add_file_copy (fh_reads fd) path
      end
  end.

(** [s.substr(pos)]; [None] is the [std::out_of_range] it throws when
    [pos > s.size()]. *)
Fixpoint substr (s : string) (pos : nat) {struct pos} : option string :=
  match pos with
  | O => Some s
  | S p =>
      match s with
      | EmptyString => None
      | String _ r => substr r p
      end
  end.

Definition aroma_config_in : string := "META-INF/com/google/android/aroma-config.in".
Definition aroma_config : string := "META-INF/com/google/android/aroma-config".

(** The name that on_reached_file computes for the current entry. *)
Definition entry_name (gen : AromaGenerator) (_curr : FTSENT) : option string :=
  substr (c_str (fts_path _curr))
         (N.to_nat (size_add (N.of_nat (String.length (_path gen))) 1)).

(** [ret ? Action::Ok : Action::Fail] *)
Definition action_of (ret : bool) : Action := if ret then Ok else Fail.

(** [None] stands for the exception of [substr] leaving the callback. *)
Definition on_reached_file (gen : AromaGenerator) (_curr : FTSENT) : M (option Action) :=
  match entry_name gen _curr with
  | None => mret None
  | Some name =>
      LOGD "%s -> %s" [FmtStr (fts_path _curr); FmtStr name];;
      if String.eqb name aroma_config_in then
        match file_read_all (c_str (fts_accpath _curr)) with
        | IoErr _ =>
            LOGE "Failed to read: %s" [FmtStr (fts_path _curr)];;
            mret (Some Fail)
        | IoOk data =>
            let data := generate_aroma_config data in
            let name := aroma_config in
            ret ← add_file_contents name data;
            mret (Some (action_of ret))
        end
      else
        ret ← add_file_path name (fts_accpath _curr);
        mret (Some (action_of ret))
  end.

Definition on_reached_symlink (gen : AromaGenerator) (_curr : FTSENT) : M Action :=
  LOGW "Ignoring symlink when creating zip: %s" [FmtStr (fts_path _curr)];;
  mret Ok.

Definition on_reached_special_file (gen : AromaGenerator) (_curr : FTSENT) : M Action :=
  LOGW "Ignoring special file when creating zip: %s" [FmtStr (fts_path _curr)];;
  mret Ok.

(** ** The tree walk that drives the callbacks *)

(** Modelled from the spec: the dispatch of [util::FtsWrapper] on the kind
    of the entry (mbutil/fts.cpp is not among the sources): directories
    are traversed into and record nothing, regular files, symlinks and
    special files go to their callbacks. *)
Definition on_entry (gen : AromaGenerator) (e : FTSENT) : M (option Action) :=
  match fts_info e with
  | Directory => mret (Some Ok)
  | RegularFile => on_reached_file gen e
  | Symlink => on_reached_symlink gen e ≫= λ a, mret (Some a)
  | SpecialFile => on_reached_special_file gen e ≫= λ a, mret (Some a)
  end.

(** Modelled from the spec: the driver loop of [util::FtsWrapper::run]
    over the entries the walk yields, in order.  A failed entry makes the
    result a failure; whether it also ends the walk is left open by the
    spec and is the parameter [stop_on_fail]. *)
Fixpoint traverse (stop_on_fail : bool) (gen : AromaGenerator)
    (entries : list FTSENT) (success : bool) : M (option bool) :=
  match entries with
  | [] => mret (Some success)
  | e :: rest =>
      r ← on_entry gen e;
      match r with
      | None => mret None
      | Some Ok => traverse stop_on_fail gen rest success
      | Some Fail =>
          if stop_on_fail then mret (Some false)
          else traverse stop_on_fail gen rest false
      end
  end.

(** Modelled from the spec: [util::FtsWrapper::run]: open the archive
    before any traversal and give up at once if that fails; walk the tree;
    finalize the archive whatever the entries did; the result is a failure
    if an entry failed or the finalization failed.  [None] is a run ended
    by an exception. *)
Definition run (stop_on_fail : bool) (gen : AromaGenerator) (tree : list FTSENT)
    : M (option bool) :=
  opened ← on_pre_execute gen;
  if negb opened then mret (Some false)
  else
    r ← traverse stop_on_fail gen tree true;
    match r with
    | None => mret None
    | Some success =>
        closed ← on_post_execute gen success;
        mret (Some (success && closed))
    end.

(** ** Predicates of the statements below *)

(** A device passes internal validation when [validate] reports no flag. *)
Definition device_valid (d : Device) : Prop := validate d = 0%N.

(** The codename set of the device holds one of the two identity strings. *)
Definition device_has_codename (pd bp : string) (d : Device) : Prop :=
  pd ∈ codenames d ∨ bp ∈ codenames d.

Definition device_matches (pd bp : string) (d : Device) : Prop :=
  device_valid d ∧ device_has_codename pd bp d.

(** The path exists and is a block-special node. *)
Definition exists_as_blockdev (path : string) : Prop :=
  ∃ sb, stat (c_str path) = IoOk sb ∧ S_ISBLK (st_mode sb) = true.

(** The name shown for a ROM: the name of its configuration when the
    configuration file loads and names it, its identifier otherwise. *)
Definition display_name (rom : Rom) : string :=
  let config := load_file (config_path rom) in
  if config.1 && negb (String.eqb (cfg_name config.2) EmptyString)
  then cfg_name config.2 else rom_id rom.

(** One line of the ROM menu: the quoted name, an empty quoted string, the
    quoted literal @default, a comma and a newline. *)
Definition menu_line (name : string) : string :=
  chr DQUOTE +:+ name +:+ chr DQUOTE +:+ ", " +:+ chr DQUOTE +:+ chr DQUOTE +:+ ", "
  +:+ chr DQUOTE +:+ "@default" +:+ chr DQUOTE +:+ "," +:+ chr LF.

(** One block of the ROM selection: the status property compared with
    [index], then the two variables set to the ROM id and the name. *)
Definition selection_block (index id name : string) : string :=
  "if prop(" +:+ chr DQUOTE +:+ "operations.prop" +:+ chr DQUOTE +:+ ", "
  +:+ chr DQUOTE +:+ "selected" +:+ chr DQUOTE +:+ ") == "
  +:+ chr DQUOTE +:+ index +:+ chr DQUOTE +:+ " then" +:+ chr LF
  +:+ "    setvar(" +:+ chr DQUOTE +:+ "romid" +:+ chr DQUOTE +:+ ", "
  +:+ chr DQUOTE +:+ id +:+ chr DQUOTE +:+ ");" +:+ chr LF
  +:+ "    setvar(" +:+ chr DQUOTE +:+ "romname" +:+ chr DQUOTE +:+ ", "
  +:+ chr DQUOTE +:+ name +:+ chr DQUOTE +:+ ");" +:+ chr LF
  +:+ "endif;" +:+ chr LF.

Definition join (l : list string) : string := foldr String.append EmptyString l.

(** The placeholders and their replacements, in the order they are
    applied. *)
Definition template_context (menu selection first last : string)
    : list (string * string) :=
  [ (chr TAB, "\t");
    ("@MBTOOL_VERSION@", version);
    ("@ROM_MENU_ITEMS@", menu);
    ("@ROM_SELECTION_ITEMS@", selection);
    ("@FIRST_INDEX@", first);
    ("@LAST_INDEX@", last);
    ("@SYSTEM_MOUNT_POINT@", get_system_partition);
    ("@CACHE_MOUNT_POINT@", get_cache_partition);
    ("@DATA_MOUNT_POINT@", get_data_partition);
    ("@EXTSD_MOUNT_POINT@", get_extsd_partition) ].

Definition substitute (text : string) (context : list (string * string)) : string :=
  foldl (λ acc p, replace_all acc p.1 p.2) text context.

(** What a successful [read] into the 32768-byte buffer returns before the
    end of the file. *)
Definition read_chunk (buf : list byte) : Prop :=
  0 < Z.of_nat (length buf) <= 32768.

(** No minizip call on an entry fails. *)
Definition zip_entry_io_ok : Prop :=
  (∀ zf name, zipOpenNewFileInZip_rc zf name = ZIP_OK) ∧
  (∀ zf buf, zipWriteInFileInZip_rc zf buf = ZIP_OK) ∧
  (∀ zf, zipCloseFileInZip_rc zf = ZIP_OK).

End utilities.

(** * A sample system, for running the code on concrete inputs *)

Module Sample.

Record device : Type := {
  d_codenames : list string;
  d_boot_block_devs : list string;
  d_block_dev_base_dirs : list string;
  d_validate : N
}.

Definition dev (flags : N) (names boot : list string) : device :=
  {| d_codenames := names; d_boot_block_devs := boot;
     d_block_dev_base_dirs := ["/dev/block/platform/msm_sdcc.1/by-name"];
     d_validate := flags |}.

(** Three devices that all carry the codename hammerhead: the first one
    fails validation, the second and the third pass it. *)
Definition broken : device := dev 1 ["hammerhead"] ["/dev/block/bad"].
Definition nexus5 : device :=
  dev 0 ["hammerhead"; "Nexus 5"]
      ["/dev/block/platform/msm_sdcc.1/by-name/boot"; "/dev/null";
       "/dev/block/mmcblk0p19"].
Definition nexus5_copy : device := dev 0 ["hammerhead"] ["/dev/block/mmcblk0p20"].
Definition other : device := dev 0 ["bacon"] ["/dev/block/mmcblk0p7"].

Definition devices_json : string := "[devices]".
Definition devices : list device := [other; broken; nexus5; nexus5_copy].

Definition props : gmap string string :=
  <["ro.product.device" := "hammerhead"]> (<["ro.build.product" := "hammerhead"]> ∅).

Definition template : string := "@FIRST_INDEX@,@LAST_INDEX@".

Definition file_hi : file_handle :=
  {| fh_fstat := IoOk {| st_mode := 33188 |};     (* 0100644 *)
     fh_size := IoOk 2;
     fh_reads := [ReadData (list_byte_of_string "hi")] |}.

Definition ENOENT : Z := 2.

(** The collaborators, for a given list of installed ROMs and a given
    configuration loader. *)
Definition externals (roms : list Rom) (loader : string → bool * RomConfig)
    : Externals device :=
  {| codenames := d_codenames;
     boot_block_devs := d_boot_block_devs;
     block_dev_base_dirs := d_block_dev_base_dirs;
     validate := d_validate;
     device_list_from_json :=
       λ s, if String.eqb s devices_json then Some devices else None;
     properties := props;
     file_read_all :=
       λ p, if String.eqb p "/devices.json"
            then IoOk (list_byte_of_string devices_json)
            else if String.eqb p "/tmpl/META-INF/com/google/android/aroma-config.in"
            then IoOk (list_byte_of_string template)
            else IoErr ENOENT;
     strerror := λ _, "No such file or directory";
     stat :=
       λ p, if String.eqb p "/dev/block/mmcblk0p19" then IoOk {| st_mode := 25008 |}
            else if String.eqb p "/dev/block/mmcblk0p20" then IoOk {| st_mode := 25008 |}
            else if String.eqb p "/dev/null" then IoOk {| st_mode := 8630 |}
            else IoErr ENOENT;
     open64 :=
       λ p, if String.eqb p "/tmpl/a.txt" then IoOk file_hi else IoErr ENOENT;
     switch_rom := λ _ _ _ _, Succeeded;
     installed_roms := roms;
     load_file := loader;
     version := "8.0.0";
     get_system_partition := "/system";
     get_cache_partition := "/cache";
     get_data_partition := "/data";
     get_extsd_partition := "/extsd";
     zipOpen2_64_ok := λ _, true;
     zipOpenNewFileInZip_rc := λ _ _, ZIP_OK;
     zipWriteInFileInZip_rc := λ _ _, ZIP_OK;
     zipCloseFileInZip_rc := λ _, ZIP_OK;
     zipClose_rc := λ _, ZIP_OK |}.

Definition no_config : string → bool * RomConfig :=
  λ _, (false, {| cfg_name := EmptyString |}).

(** Only the ROM "dual" has a configuration file, which names it. *)
Definition one_config : string → bool * RomConfig :=
  λ p, if String.eqb p "/data/multiboot/dual/config.json"
       then (true, {| cfg_name := "Lineage" |})
       else (false, {| cfg_name := EmptyString |}).

Definition rom (id : string) : Rom :=
  {| rom_id := id; config_path := "/data/multiboot/" +:+ id +:+ "/config.json" |}.

Definition gen : AromaGenerator := {| _path := "/tmpl"; _zippath := "/out.zip" |}.

Definition entry (k : fts_kind) (p : string) : FTSENT :=
  {| fts_info := k; fts_path := p; fts_accpath := p |}.

Definition state_with_devices : State :=
  set_devices_file (Some "/devices.json") initial_state.

(** The sample system with no ROM installed, and with two. *)
Definition bare : Externals device := externals [] no_config.
Definition two_roms : Externals device := externals [rom "primary"; rom "dual"] one_config.

Definition control_entry : FTSENT :=
  entry RegularFile "/tmpl/META-INF/com/google/android/aroma-config.in".

(** A template directory with a file, a symlink, a FIFO, the control file
    and a file that cannot be opened. *)
Definition tree : list FTSENT :=
  [ entry Directory "/tmpl";
    entry RegularFile "/tmpl/a.txt";
    entry Symlink "/tmpl/link";
    entry SpecialFile "/tmpl/fifo";
    control_entry;
    entry RegularFile "/tmpl/missing";
    entry Directory "/tmpl" ].

Definition empty_archive : zipFile :=
  {| zf_entries := []; zf_current := None; zf_closed := false |}.

(** The state once on_pre_execute has opened the archive. *)
Definition opened : State := set_zf (Some empty_archive) initial_state.

End Sample.

(** * More of utilities.cpp *)

Section utilities_more.
Context {Device : Type} `{!Externals Device}.

(** ** Predicates of the further statements *)

(** [st'] is [st] with lines added to the log, and nothing else changed. *)
Definition logged (st st' : State) : Prop :=
  ∃ lines, st' = set_log (log st ++ lines) st.

#[global] Instance device_matches_decision pd bp d : Decision (device_matches pd bp d).
Proof. unfold device_matches, device_valid, device_has_codename. apply _. Defined.

(** The devices that get_device looks at before it returns: those before
    the first match, all of them when there is none. *)
Fixpoint devices_before_match (pd bp : string) (devices : list Device) : list Device :=
  match devices with
  | [] => []
  | d :: rest =>
      if decide (device_matches pd bp d) then []
      else d :: devices_before_match pd bp rest
  end.

Definition skipped_warning : log_line :=
  {| ll_level := LOG_WARNING; ll_msg := "Skipping invalid device" |}.

(** [p] is the first candidate, in list order, that exists as a block
    device. *)
Definition first_blockdev (candidates : list string) (p : string) : Prop :=
  ∃ i, candidates !! i = Some p ∧ exists_as_blockdev p ∧
       ∀ j q, (j < i)%nat → candidates !! j = Some q → ¬ exists_as_blockdev q.

(** The name that utilities_switch_rom logs for an outcome of the switch
    engine. *)
Definition outcome_name (ret : SwitchRomResult) : string :=
  match ret with
  | Succeeded => "SUCCEEDED"
  | Failed => "FAILED"
  | ChecksumInvalid => "CHECKSUM_INVALID"
  | ChecksumNotFound => "CHECKSUM_NOT_FOUND"
  end.

Definition tab_free (s : string) : Prop := TAB ∉ chars s.

(** The text with every tab written as the two characters backslash
    and t. *)
Fixpoint escape_tabs (s : string) : string :=
  match s with
  | EmptyString => EmptyString
  | String c rest =>
      if Ascii.eqb c TAB then String "\" (String "t" (escape_tabs rest))
      else String c (escape_tabs rest)
  end.

(** The placeholders of generate_aroma_config and their replacements, in
    the order they are applied after the tabs are escaped. *)
Definition placeholders : list (string * string) :=
  tail (template_context (rom_items_loop 0 installed_roms EmptyString EmptyString).1
                         (rom_items_loop 0 installed_roms EmptyString EmptyString).2
                         first_index (last_index installed_roms)).

(** The archive of [st] has the entries of [zf0], no entry open, and is
    closed or not as [zf0] is. *)
Definition at_rest (zf0 : zipFile) (st : State) : Prop :=
  ∃ zf, _zf st = Some zf ∧ zf_entries zf = zf_entries zf0 ∧
        zf_current zf = None ∧ zf_closed zf = zf_closed zf0.

(** As [at_rest], with an entry that satisfies [P] being written. *)
Definition writing (P : zip_entry → Prop) (zf0 : zipFile) (st : State) : Prop :=
  ∃ zf e, _zf st = Some zf ∧ zf_entries zf = zf_entries zf0 ∧
          zf_current zf = Some e ∧ zf_closed zf = zf_closed zf0 ∧ P e.

(** The archive of [st] is that of [zf0] with at most [n] entries added
    after the others, each satisfying [P], and no entry open. *)
Definition appended (P : zip_entry → Prop) (n : nat) (zf0 : zipFile) (st : State)
    : Prop :=
  ∃ zf new, _zf st = Some zf ∧ zf_entries zf = zf_entries zf0 ++ new ∧
            zf_current zf = None ∧ zf_closed zf = zf_closed zf0 ∧
            (length new ≤ n)%nat ∧ Forall P new.

(** The name under which on_reached_file stores the entry it computes the
    name [name] for. *)
Definition stored_name (name : string) : string :=
  if String.eqb name aroma_config_in then aroma_config else name.




#[global] Instance fts_kind_eq_dec : EqDecision fts_kind.
Proof. solve_decision. Defined.

(** The regular files among the entries of a walk. *)
Definition regular_files (tree : list FTSENT) : list FTSENT :=
  filter (λ e, fts_info e = RegularFile) tree.

(** [en] is stored under the name of a regular file of the walk. *)
Definition entry_of_tree (gen : AromaGenerator) (tree : list FTSENT) (en : zip_entry)
    : Prop :=
  ∃ e name, e ∈ regular_files tree ∧ entry_name gen e = Some name ∧
            ze_filename en = stored_name name.

(** [m] keeps the property [R] of the state. *)
Definition keeps {A} (R : State → Prop) (m : M A) : Prop :=
  ∀ st, R st → R (m st).2.

End utilities_more.

(** * The command line entry point *)

(** ** Its further collaborators *)

Inductive wipe_target : Type :=
  WipeSystem | WipeCache | WipeData | WipeDalvikCache | WipeMultiboot.

#[global] Instance wipe_target_eq_dec : EqDecision wipe_target.
Proof. solve_decision. Defined.

(** A call into wipe.h, as the process state records it. *)
Record wipe_call : Type := { wc_target : wipe_target; wc_rom : Rom }.

Inductive stream : Type := Stdout | Stderr.

(** One return of [getopt_long] other than -1: the option character,
    [optarg], and, for a return that is none of the options of the program
    (an option that getopt_long does not know or that is used against its
    declaration), the diagnostic that getopt_long itself wrote on stderr
    before it returned: utilities_main leaves [opterr] at 1, and the
    option string does not start with a colon.  getopt_long writes nothing
    when it returns an option. *)
Record getopt_result : Type := {
  opt : ascii;
  optarg : option string;
  diagnostic : string
}.

Class Tools : Type := {
  (* roms.h: a null pointer is None *)
  create_rom : string → option Rom;
  (* wipe.h *)
  wipe_system : Rom → bool;
  wipe_cache : Rom → bool;
  wipe_data : Rom → bool;
  wipe_dalvik_cache : Rom → bool;
  wipe_multiboot : Rom → bool;
  (* mbutil/fts.h: the entries that the walk of a directory yields, and
     whether a failed entry ends the walk *)
  fts_entries : string → list FTSENT;
  fts_stop_on_fail : bool
}.

(** ** The process as utilities_main sees it *)

(** The state of utilities.cpp, the calls made into wipe.h, and what
    fprintf wrote on the standard streams.  The lines of the logger, which
    utilities_main attaches to stdout, stay in [log]. *)
Record Process : Type := {
  proc_state : State;
  wipe_calls : list wipe_call;
  printed : list (stream * string)
}.

Definition initial_process : Process :=
  {| proc_state := initial_state; wipe_calls := []; printed := [] |}.

Definition set_proc_state (st : State) (p : Process) : Process :=
  {| proc_state := st; wipe_calls := wipe_calls p; printed := printed p |}.

Definition MP (A : Type) : Type := Process → A * Process.

#[global] Instance MP_ret : MRet MP := λ A a p, (a, p).
#[global] Instance MP_bind : MBind MP :=
  λ A B f m p, f (m p).1 (m p).2.

(** A computation of utilities.cpp run inside the process. *)
Definition lift {A} (m : M A) : MP A :=
  λ p, ((m (proc_state p)).1, set_proc_state (m (proc_state p)).2 p).

Definition fprintf (s : stream) (text : string) : MP unit :=
  λ p, ((), {| proc_state := proc_state p; wipe_calls := wipe_calls p;
               printed := printed p ++ [(s, text)] |}).

(** The assignment [devices_file = optarg]. *)
Definition assign_devices_file (f : option string) : MP unit :=
  λ p, ((), set_proc_state (set_devices_file f (proc_state p)) p).

Definition EXIT_SUCCESS : Z := 0.
Definition EXIT_FAILURE : Z := 1.

Section utilities_main.
Context {Device : Type} `{!Externals Device} `{!Tools}.

(** The call into wipe.h, recorded in the process. *)
Definition call_wipe (t : wipe_target) (engine : Rom → bool) (rom : Rom) : MP bool :=
  λ p, (engine rom,
        {| proc_state := proc_state p;
           wipe_calls := wipe_calls p ++ [{| wc_target := t; wc_rom := rom |}];
           printed := printed p |}).

Definition utilities_wipe_system (rom_id : string) : MP bool :=
  match create_rom (c_str rom_id) with
  | None => mret false
  | Some rom => call_wipe WipeSystem wipe_system rom
  end.

Definition utilities_wipe_cache (rom_id : string) : MP bool :=
  match create_rom (c_str rom_id) with
  | None => mret false
  | Some rom => call_wipe WipeCache wipe_cache rom
  end.

Definition utilities_wipe_data (rom_id : string) : MP bool :=
  match create_rom (c_str rom_id) with
  | None => mret false
  | Some rom => call_wipe WipeData wipe_data rom
  end.

Definition utilities_wipe_dalvik_cache (rom_id : string) : MP bool :=
  match create_rom (c_str rom_id) with
  | None => mret false
  | Some rom => call_wipe WipeDalvikCache wipe_dalvik_cache rom
  end.

Definition utilities_wipe_multiboot (rom_id : string) : MP bool :=
  match create_rom (c_str rom_id) with
  | None => mret false
  | Some rom => call_wipe WipeMultiboot wipe_multiboot rom
  end.

(** The text of a sequence of lines, each ended by a newline. *)
Definition text_of_lines (lines : list string) : string :=
  foldr (λ l acc, l +:+ String LF acc) EmptyString lines.

Definition usage_text : string :=
  text_of_lines
    [ "Usage: utilities [opt...] generate [template dir] [output file]";
      "   OR: utilities [opt...] switch [ROM ID] [--force]";
      "   OR: utilities [opt...] wipe-system [ROM ID]";
      "   OR: utilities [opt...] wipe-cache [ROM ID]";
      "   OR: utilities [opt...] wipe-data [ROM ID]";
      "   OR: utilities [opt...] wipe-dalvik-cache [ROM ID]";
      "   OR: utilities [opt...] wipe-multiboot [ROM ID]";
      EmptyString;
      "Options:";
      "  -f, --force      Force (only for 'switch' action)";
      "  -d, --devices    Path to device defintions file" ].

Definition utilities_usage (error : bool) : MP unit :=
  fprintf (if error then Stderr else Stdout) usage_text.

(** The [while ((opt = getopt_long(...)) != -1)] loop of utilities_main
    over the successive returns of getopt_long: [inl code] when an option
    ends the program with that exit status, [inr force] otherwise. *)
Fixpoint parse_options (results : list getopt_result) (force : bool) : MP (Z + bool) :=
  match results with
  | [] => mret (inr force)
  | r :: rest =>
      if Ascii.eqb (opt r) "f" then parse_options rest true
      else if Ascii.eqb (opt r) "d" then
        assign_devices_file (optarg r);;
        parse_options rest force
      else if Ascii.eqb (opt r) "h" then
        utilities_usage false;;
        mret (inl EXIT_SUCCESS)
      else
        (* what getopt_long printed before it returned *)
        fprintf Stderr (diagnostic r);;
        utilities_usage true;;
        mret (inl EXIT_FAILURE)
  end.

(** [argv[optind + i]]; utilities_main reads it only after it has checked
    the number of arguments. *)
Definition arg (args : list string) (i : nat) : string :=
  default EmptyString (args !! i).

(** [gen.run()] on the walk of the template directory. *)
Definition generate (path zippath : string) : M (option bool) :=
  let gen := {| _path := c_str path; _zippath := c_str zippath |} in
  run fts_stop_on_fail gen (fts_entries (_path gen)).

(** utilities_main, given the returns of getopt_long and the arguments
    that follow the options, [argv[optind]] to [argv[argc - 1]].  The
    result is the exit status, None when the program ends on an exception
    that nothing catches. *)
Definition utilities_main (results : list getopt_result) (args : list string)
    : MP (option Z) :=
  r ← parse_options results false;
  match r with
  | inl code => mret (Some code)
  | inr force =>
      if (length args =? 0)%nat then
        utilities_usage true;;
        mret (Some EXIT_FAILURE)
      else
        let action := c_str (arg args 0) in
        if (String.eqb action "generate" && negb (length args =? 3)%nat)
           || (negb (String.eqb action "generate") && negb (length args =? 2)%nat)
        then
          utilities_usage true;;
          mret (Some EXIT_FAILURE)
        else if force && negb (String.eqb action "switch") then
          utilities_usage true;;
          mret (Some EXIT_FAILURE)
        else
          ret ← (if String.eqb action "generate" then
                   lift (generate (arg args 1) (arg args 2))
                 else if String.eqb action "switch" then
                   r ← lift (utilities_switch_rom (arg args 1) force); mret (Some r)
                 else if String.eqb action "wipe-system" then
                   r ← utilities_wipe_system (arg args 1); mret (Some r)
                 else if String.eqb action "wipe-cache" then
                   r ← utilities_wipe_cache (arg args 1); mret (Some r)
                 else if String.eqb action "wipe-data" then
                   r ← utilities_wipe_data (arg args 1); mret (Some r)
                 else if String.eqb action "wipe-dalvik-cache" then
                   r ← utilities_wipe_dalvik_cache (arg args 1); mret (Some r)
                 else if String.eqb action "wipe-multiboot" then
                   r ← utilities_wipe_multiboot (arg args 1); mret (Some r)
                 else
                   lift (LOGE "Unknown action: %s" [FmtStr action]);;
                   mret (Some false));
          mret (option_map (λ b : bool, if b then EXIT_SUCCESS else EXIT_FAILURE) ret)
  end.

(** ** Predicates of the statements on utilities_main *)

(** The option is one that the loop goes past. *)
Definition passes (r : getopt_result) : Prop := opt r = "f"%char ∨ opt r = "d"%char.

(** Whether one of the options is -f or --force. *)
Definition forced (results : list getopt_result) : bool :=
  existsb (λ r, Ascii.eqb (opt r) "f") results.

(** The devices file once the options are read: the argument of the last
    -d or --devices, the file set before when there is none. *)
Definition chosen_devices_file (results : list getopt_result) (init : option string)
    : option string :=
  foldl (λ acc r, if Ascii.eqb (opt r) "d" then optarg r else acc) init results.

(** The process once the options are read. *)
Definition options_applied (results : list getopt_result) (p : Process) : Process :=
  set_proc_state
    (set_devices_file (chosen_devices_file results (devices_file (proc_state p)))
                      (proc_state p)) p.

(** The arguments are not those of any action: there is none, or their
    number does not fit the action, or --force comes with an action other
    than switch. *)
Definition usage_error (force : bool) (args : list string) : Prop :=
  match args with
  | [] => True
  | a0 :: _ =>
      (c_str a0 = "generate" ∧ length args ≠ 3%nat) ∨
      (c_str a0 ≠ "generate" ∧ length args ≠ 2%nat) ∨
      (force = true ∧ c_str a0 ≠ "switch")
  end.

Definition wipe_action (t : wipe_target) : string :=
  match t with
  | WipeSystem => "wipe-system"
  | WipeCache => "wipe-cache"
  | WipeData => "wipe-data"
  | WipeDalvikCache => "wipe-dalvik-cache"
  | WipeMultiboot => "wipe-multiboot"
  end.

Definition wipe_engine (t : wipe_target) : Rom → bool :=
  match t with
  | WipeSystem => wipe_system
  | WipeCache => wipe_cache
  | WipeData => wipe_data
  | WipeDalvikCache => wipe_dalvik_cache
  | WipeMultiboot => wipe_multiboot
  end.

Definition exit_status (b : bool) : Z := if b then EXIT_SUCCESS else EXIT_FAILURE.

End utilities_main.

(** * Further sample systems *)

Module SampleMain.

(** The ROM "dual" exists; wiping its cache fails, the other wipes
    succeed. *)
Definition tools : Tools :=
  {| create_rom := λ id, if String.eqb id "dual" then Some (Sample.rom "dual") else None;
     wipe_system := λ _, true;
     wipe_cache := λ _, false;
     wipe_data := λ _, true;
     wipe_dalvik_cache := λ _, true;
     wipe_multiboot := λ _, true;
     fts_entries := λ p, if String.eqb p "/tmpl" then Sample.tree else [];
     fts_stop_on_fail := false |}.

Definition option_f : getopt_result :=
  {| opt := "f"; optarg := None; diagnostic := EmptyString |}.
Definition option_h : getopt_result :=
  {| opt := "h"; optarg := None; diagnostic := EmptyString |}.
Definition option_unknown : getopt_result :=
  {| opt := "?"; optarg := None;
     diagnostic := "utilities: invalid option -- 'x'" +:+ String LF EmptyString |}.
Definition option_d (path : string) : getopt_result :=
  {| opt := "d"; optarg := Some path; diagnostic := EmptyString |}.

End SampleMain.

Module Faulty.
Import Sample.

(** A file whose second read fails. *)
Definition file_cut : file_handle :=
  {| fh_fstat := IoOk {| st_mode := 33188 |};
     fh_size := IoOk 5;
     fh_reads := [ReadData (list_byte_of_string "he"); ReadErr 5;
                  ReadData (list_byte_of_string "llo")] |}.

(** The sample system with no ROM installed, where /tmpl/a.txt is that
    file. *)
Definition externals : Externals device :=
  {| codenames := d_codenames;
     boot_block_devs := d_boot_block_devs;
     block_dev_base_dirs := d_block_dev_base_dirs;
     validate := d_validate;
     device_list_from_json := @device_list_from_json _ bare;
     properties := props;
     file_read_all := @file_read_all _ bare;
     strerror := λ _, "Input/output error";
     stat := @stat _ bare;
     open64 := λ p, if String.eqb p "/tmpl/a.txt" then IoOk file_cut else IoErr ENOENT;
     switch_rom := λ _ _ _ _, Failed;
     installed_roms := [];
     load_file := no_config;
     version := "8.0.0";
     get_system_partition := "/system";
     get_cache_partition := "/cache";
     get_data_partition := "/data";
     get_extsd_partition := "/extsd";
     zipOpen2_64_ok := λ _, true;
     zipOpenNewFileInZip_rc := λ _ _, ZIP_OK;
     zipWriteInFileInZip_rc := λ _ _, ZIP_OK;
     zipCloseFileInZip_rc := λ _, ZIP_OK;
     zipClose_rc := λ _, ZIP_OK |}.

End Faulty.

Module TrailingSlash.
Import Sample.

(** The generator for the template directory given as /tmpl/. *)
Definition gen : AromaGenerator := {| _path := "/tmpl/"; _zippath := "/out.zip" |}.

Definition file_template : file_handle :=
  {| fh_fstat := IoOk {| st_mode := 33188 |};
     fh_size := IoOk 26;
     fh_reads := [ReadData (list_byte_of_string template)] |}.

(** The sample system with no ROM installed, where the control file can
    also be opened for reading. *)
Definition externals : Externals device :=
  {| codenames := d_codenames;
     boot_block_devs := d_boot_block_devs;
     block_dev_base_dirs := d_block_dev_base_dirs;
     validate := d_validate;
     device_list_from_json := @device_list_from_json _ bare;
     properties := props;
     file_read_all := @file_read_all _ bare;
     strerror := @strerror _ bare;
     stat := @stat _ bare;
     open64 :=
       λ p, if String.eqb p "/tmpl/META-INF/com/google/android/aroma-config.in"
            then IoOk file_template else @open64 _ bare p;
     switch_rom := @switch_rom _ bare;
     installed_roms := [];
     load_file := no_config;
     version := "8.0.0";
     get_system_partition := "/system";
     get_cache_partition := "/cache";
     get_data_partition := "/data";
     get_extsd_partition := "/extsd";
     zipOpen2_64_ok := λ _, true;
     zipOpenNewFileInZip_rc := λ _ _, ZIP_OK;
     zipWriteInFileInZip_rc := λ _ _, ZIP_OK;
     zipCloseFileInZip_rc := λ _, ZIP_OK;
     zipClose_rc := λ _, ZIP_OK |}.

End TrailingSlash.

(** * Statements and proofs *)

Section utilities_facts.
Context {Device : Type} `{!Externals Device}.

Lemma LOG_run lvl fmt args st :
  LOG lvl fmt args st = ((), add_log lvl (format fmt args) st).
Proof. reflexivity. Qed.

Lemma bind_run {A B} (m : M A) (f : A → M B) st :
  (m ≫= f) st = f (m st).1 (m st).2.
Proof. reflexivity. Qed.

Lemma codename_find_Some pd bp d :
  is_Some (list_find (codename_is pd bp) (codenames d)) ↔ device_has_codename pd bp d.
Proof.
  unfold device_has_codename. split.
  - intros [[i x] Hx]. apply list_find_Some in Hx as (Hl & [-> | ->] & _).
    + left. eapply list_elem_of_lookup_2; eauto.
    + right. eapply list_elem_of_lookup_2; eauto.
  - intros Hin. destruct (list_find _ _) as [p|] eqn:Hf; [eauto|].
    apply list_find_None in Hf. rewrite Forall_forall in Hf.
    destruct Hin as [Hin | Hin]; apply Hf in Hin; exfalso; apply Hin;
      [left | right]; reflexivity.
Qed.

Lemma get_device_loop_step_invalid pd bp d rest st :
  validate d ≠ 0%N →
  get_device_loop pd bp (d :: rest) st =
  get_device_loop pd bp rest (add_log LOG_WARNING "Skipping invalid device" st).
Proof.
  intros Hv. simpl. apply N.eqb_neq in Hv. rewrite Hv. reflexivity.
Qed.

Lemma get_device_loop_step_nomatch pd bp d rest st :
  ¬ device_has_codename pd bp d →
  validate d = 0%N →
  get_device_loop pd bp (d :: rest) st = get_device_loop pd bp rest st.
Proof.
  intros Hn Hv. simpl. rewrite Hv. simpl.
  destruct (list_find _ _) eqn:Hf; [|reflexivity].
  exfalso. apply Hn, codename_find_Some. eauto.
Qed.

Lemma get_device_loop_step_match pd bp d rest st :
  device_matches pd bp d →
  get_device_loop pd bp (d :: rest) st = (Some d, st).
Proof.
  intros [Hv Hc]. simpl. unfold device_valid in Hv. rewrite Hv. simpl.
  apply codename_find_Some in Hc as [p Hp]. rewrite Hp. reflexivity.
Qed.

Lemma device_matches_dec pd bp d : {device_matches pd bp d} + {¬ device_matches pd bp d}.
Proof.
  unfold device_matches, device_valid, device_has_codename.
  destruct (decide (validate d = 0%N)); [|right; tauto].
  destruct (decide (pd ∈ codenames d)); [left; tauto|].
  destruct (decide (bp ∈ codenames d)); [left; tauto|right; tauto].
Qed.

(** The loop returns the first matching device of the list, if any. *)
Lemma get_device_loop_result pd bp devices st :
  (∀ d, (get_device_loop pd bp devices st).1 = Some d ↔
        ∃ i, devices !! i = Some d ∧ device_matches pd bp d ∧
             ∀ j d', (j < i)%nat → devices !! j = Some d' → ¬ device_matches pd bp d')
  ∧ ((get_device_loop pd bp devices st).1 = None ↔
     ∀ d, d ∈ devices → ¬ device_matches pd bp d).
Proof.
  revert st. induction devices as [|x rest IH]; intros st.
  - split.
    + intros d. simpl. split; [discriminate|]. intros (i & Hi & _).
      rewrite lookup_nil in Hi. discriminate.
    + simpl. split; [|reflexivity]. intros _ d Hd. inversion Hd.
  - destruct (device_matches_dec pd bp x) as [Hm | Hm].
    + rewrite (get_device_loop_step_match _ _ _ _ _ Hm). simpl. split.
      * intros d. split.
        -- intros [= <-]. exists 0%nat. split; [reflexivity|]. split; [assumption|].
           intros j d' Hj. lia.
        -- intros (i & Hi & Hd & Hfirst). destruct i as [|i].
           ++ simpl in Hi. congruence.
           ++ exfalso. apply (Hfirst 0%nat x); [lia|reflexivity|assumption].
      * split; [discriminate|]. intros Hall. exfalso.
        apply (Hall x); [left|assumption].
    + assert (Hstep : ∃ st', get_device_loop pd bp (x :: rest) st =
                            get_device_loop pd bp rest st').
      { destruct (decide (validate x = 0%N)) as [Hv | Hv].
        - exists st. apply get_device_loop_step_nomatch; [|assumption].
          intros Hc. apply Hm. split; assumption.
        - eexists. apply get_device_loop_step_invalid. assumption. }
      destruct Hstep as [st' ->]. destruct (IH st') as [IHs IHn]. split.
      * intros d. rewrite IHs. split.
        -- intros (i & Hi & Hd & Hfirst). exists (S i). split; [assumption|].
           split; [assumption|]. intros j d' Hj Hl. destruct j as [|j].
           ++ simpl in Hl. injection Hl as <-. assumption.
           ++ simpl in Hl. apply (Hfirst j); [lia|assumption].
        -- intros (i & Hi & Hd & Hfirst). destruct i as [|i].
           ++ simpl in Hi. injection Hi as <-. contradiction.
           ++ exists i. split; [assumption|]. split; [assumption|].
              intros j d' Hj Hl. apply (Hfirst (S j)); [lia|assumption].
      * rewrite IHn. split.
        -- intros Hall d Hd. apply elem_of_cons in Hd as [-> | Hd]; [assumption|].
           apply Hall. assumption.
        -- intros Hall d Hd. apply Hall. right. assumption.
Qed.

Lemma get_device_parsed path contents devices st :
  file_read_all (c_str path) = IoOk contents →
  device_list_from_json (c_str (string_of_list_byte (contents ++ [x00]))) = Some devices →
  ∃ st', (get_device path st).1 =
         (get_device_loop (property_get_string "ro.product.device" EmptyString)
                          (property_get_string "ro.build.product" EmptyString)
                          devices st').1.
Proof.
  intros Hread Hparse. unfold get_device, LOGD, LOGE.
  rewrite !bind_run, !LOG_run. cbn [fst snd].
  rewrite Hread, Hparse. rewrite bind_run.
  match goal with
  | |- context [get_device_loop ?a ?b ?c ?s] =>
      exists s; destruct (get_device_loop a b c s) as [[d|] st2]
  end; reflexivity.
Qed.

(** C1: for a device database that parses, get_device returns the first
    device in document order that passes validation and whose codename set
    holds ro.product.device or ro.build.product, whatever comes after it;
    it fails exactly when no device of the list is such a match. *)
Theorem get_device_first_match path contents devices st :
  file_read_all (c_str path) = IoOk contents →
  device_list_from_json (c_str (string_of_list_byte (contents ++ [x00]))) = Some devices →
  let pd := property_get_string "ro.product.device" EmptyString in
  let bp := property_get_string "ro.build.product" EmptyString in
  (∀ d, (get_device path st).1 = Some d ↔
        ∃ i, devices !! i = Some d ∧
             (device_valid d ∧ device_has_codename pd bp d) ∧
             ∀ j d', (j < i)%nat → devices !! j = Some d' →
                     ¬ (device_valid d' ∧ device_has_codename pd bp d'))
  ∧ ((get_device path st).1 = None ↔
     ∀ d, d ∈ devices → ¬ (device_valid d ∧ device_has_codename pd bp d)).
Proof.
  intros Hread Hparse pd bp.
  destruct (get_device_parsed path contents devices st Hread Hparse) as [st' ->].
  apply get_device_loop_result.
Qed.

Lemma get_device_loop_app pd bp pre rest st st1 :
  get_device_loop pd bp pre st = (None, st1) →
  get_device_loop pd bp (pre ++ rest) st = get_device_loop pd bp rest st1.
Proof.
  revert st. induction pre as [|x pre IH]; intros st Hpre.
  - simpl in Hpre. injection Hpre as <-. reflexivity.
  - destruct (device_matches_dec pd bp x) as [Hm | Hm].
    + rewrite (get_device_loop_step_match _ _ _ _ _ Hm) in Hpre. discriminate.
    + destruct (decide (validate x = 0%N)) as [Hv | Hv].
      * assert (Hc : ¬ device_has_codename pd bp x) by (intros Hc; apply Hm; split; assumption).
        rewrite (get_device_loop_step_nomatch _ _ _ _ _ Hc Hv) in Hpre.
        rewrite <- app_comm_cons, (get_device_loop_step_nomatch _ _ _ _ _ Hc Hv).
        apply IH. assumption.
      * rewrite (get_device_loop_step_invalid _ _ _ _ _ Hv) in Hpre.
        rewrite <- app_comm_cons, (get_device_loop_step_invalid _ _ _ _ _ Hv).
        apply IH. assumption.
Qed.

Lemma get_device_returns_match path st d :
  (get_device path st).1 = Some d →
  device_matches (property_get_string "ro.product.device" EmptyString)
                 (property_get_string "ro.build.product" EmptyString) d.
Proof.
  unfold get_device, LOGD, LOGE. rewrite !bind_run, !LOG_run. cbn [fst snd].
  destruct (file_read_all (c_str path)) as [contents | e]; [|discriminate].
  destruct (device_list_from_json _) as [devices|]; [|discriminate].
  rewrite bind_run.
  match goal with
  | |- context [get_device_loop ?a ?b ?c ?s] =>
      pose proof (proj1 (get_device_loop_result a b c s) d) as Hres;
      destruct (get_device_loop a b c s) as [[d'|] st2]
  end; [|discriminate].
  cbn. intros [= ->]. destruct (proj1 Hres eq_refl) as (i & _ & Hm & _). exact Hm.
Qed.

(** C2: a device that fails internal validation is skipped: reaching it,
    the loop of get_device goes on with the devices after it, the state
    changed by one logged warning and nothing else; and get_device never
    returns such a device, whatever its codenames. *)
Theorem invalid_device_skipped pd bp pre d rest st st1 :
  get_device_loop pd bp pre st = (None, st1) →
  ¬ device_valid d →
  get_device_loop pd bp (pre ++ d :: rest) st =
    get_device_loop pd bp rest (add_log LOG_WARNING "Skipping invalid device" st1)
  ∧ (∀ path st0, (get_device path st0).1 ≠ Some d).
Proof.
  intros Hpre Hinv. split.
  - rewrite (get_device_loop_app _ _ _ _ _ _ Hpre).
    apply get_device_loop_step_invalid. exact Hinv.
  - intros path st0 Hret. apply get_device_returns_match in Hret as [Hv _].
    contradiction.
Qed.

Lemma get_device_loop_switch_calls pd bp devices st :
  switch_calls (get_device_loop pd bp devices st).2 = switch_calls st.
Proof.
  revert st. induction devices as [|x rest IH]; intros st; [reflexivity|].
  simpl. destruct (negb (validate x =? 0)%N).
  - rewrite bind_run. unfold LOGW. rewrite LOG_run. cbn [fst snd]. rewrite IH. reflexivity.
  - destruct (list_find _ _); [reflexivity|]. apply IH.
Qed.

Lemma get_device_switch_calls path st :
  switch_calls (get_device path st).2 = switch_calls st.
Proof.
  unfold get_device, LOGD, LOGE. rewrite !bind_run, !LOG_run. cbn [fst snd].
  destruct (file_read_all (c_str path)) as [contents | e]; [|reflexivity].
  destruct (device_list_from_json _) as [devices|]; [|reflexivity].
  rewrite bind_run.
  match goal with
  | |- context [get_device_loop ?a ?b ?c ?s] =>
      pose proof (get_device_loop_switch_calls a b c s) as Hsc;
      destruct (get_device_loop a b c s) as [[d'|] st2]
  end; cbn [fst snd] in *; [|rewrite bind_run, LOG_run; cbn [fst snd]];
    exact Hsc.
Qed.

Lemma blockdev_reflect path : is_boot_blockdev path = true ↔ exists_as_blockdev path.
Proof.
  unfold is_boot_blockdev, exists_as_blockdev. split.
  - destruct (stat (c_str path)) as [sb | e]; [|discriminate]. eauto.
  - intros (sb & -> & Hblk). exact Hblk.
Qed.

(** C3: with the device matched, utilities_switch_rom hands to the switch
    engine the first boot-device candidate, in list order, that exists and
    is a block-special node, in one call and no other; when no candidate
    qualifies it fails, logs that no boot partition was found and never
    calls the switch engine. *)
Theorem switch_rom_first_blockdev file device rom_id force st st1 :
  devices_file st = Some file →
  get_device file st = (Some device, st1) →
  let cands := boot_block_devs device in
  let res := utilities_switch_rom rom_id force st in
  (∀ i p, cands !! i = Some p →
          exists_as_blockdev p →
          (∀ j q, (j < i)%nat → cands !! j = Some q → ¬ exists_as_blockdev q) →
          switch_calls res.2 =
            switch_calls st ++
            [{| sc_rom_id := c_str rom_id; sc_boot_blockdev := p;
                sc_blockdev_base_dirs := block_dev_base_dirs device;
                sc_force := force |}]
          ∧ res.1 = bool_decide
                      (switch_rom (c_str rom_id) p (block_dev_base_dirs device) force
                       = Succeeded))
  ∧ ((∀ p, p ∈ cands → ¬ exists_as_blockdev p) →
     res.1 = false ∧ switch_calls res.2 = switch_calls st ∧
     res.2 = add_log LOG_ERROR
               "All specified boot partition paths could not be found" st1).
Proof.
  intros Hfile Hget cands res.
  assert (Hsc : switch_calls st1 = switch_calls st).
  { rewrite <- (get_device_switch_calls file st), Hget. reflexivity. }
  assert (Hres : res =
    match list_find (λ path, is_boot_blockdev path = true) cands with
    | None =>
        (false, add_log LOG_ERROR
                  "All specified boot partition paths could not be found" st1)
    | Some (_, it) =>
        ((call_switch_rom (c_str rom_id) it (block_dev_base_dirs device) force ≫= λ ret,
          match ret with
          | Succeeded => LOGD "SUCCEEDED" []
          | Failed => LOGD "FAILED" []
          | ChecksumInvalid => LOGD "CHECKSUM_INVALID" []
          | ChecksumNotFound => LOGD "CHECKSUM_NOT_FOUND" []
          end;;
          mret (bool_decide (ret = Succeeded))) st1)
    end).
  { subst res. unfold utilities_switch_rom. rewrite bind_run. unfold get_state.
    cbn [fst snd]. rewrite Hfile, bind_run, Hget. cbn [fst snd]. fold cands.
    destruct (list_find _ cands) as [[i it]|]; reflexivity. }
  split.
  - intros i p Hi Hp Hfirst.
    assert (Hfind : list_find (λ path, is_boot_blockdev path = true) cands = Some (i, p)).
    { apply list_find_Some. split; [assumption|]. split; [apply blockdev_reflect; assumption|].
      intros j q Hq Hj Hb. apply (Hfirst j q Hj Hq). apply blockdev_reflect. assumption. }
    rewrite Hres, Hfind. rewrite !bind_run. unfold call_switch_rom. cbn [fst snd].
    split.
    + destruct (switch_rom _ _ _ _); unfold LOGD; rewrite LOG_run; cbn; rewrite Hsc;
        reflexivity.
    + reflexivity.
  - intros Hnone.
    assert (Hfind : list_find (λ path, is_boot_blockdev path = true) cands = None).
    { apply list_find_None. apply Forall_forall. intros q Hq Hb.
      apply (Hnone q Hq). apply blockdev_reflect. assumption. }
    rewrite Hres, Hfind. cbn. rewrite Hsc. auto.
Qed.

(** ** Strings *)

Lemma append_cons (c : ascii) (a b : string) : String c a +:+ b = String c (a +:+ b).
Proof. reflexivity. Qed.

Lemma append_nil_r (s : string) : s +:+ EmptyString = s.
Proof. induction s as [|c s IH]; [reflexivity|]. rewrite append_cons, IH. reflexivity. Qed.

Lemma append_assoc (a b c : string) : (a +:+ b) +:+ c = a +:+ (b +:+ c).
Proof.
  induction a as [|x a IH]; [reflexivity|]. rewrite !append_cons, IH. reflexivity.
Qed.

Lemma chars_append (a b : string) : chars (a +:+ b) = chars a ++ chars b.
Proof.
  induction a as [|x a IH]; [reflexivity|]. rewrite append_cons. simpl.
  rewrite IH. reflexivity.
Qed.

Lemma c_str_id (s : string) : is_c_string s → c_str s = s.
Proof.
  unfold is_c_string. induction s as [|c s IH]; simpl; [reflexivity|]. intros Hn.
  apply not_elem_of_cons in Hn as [Hc Hs].
  destruct (Ascii.eqb_spec c NUL) as [-> | _]; [contradiction|].
  rewrite IH; [reflexivity | assumption].
Qed.

Lemma join_cons (x : string) (l : list string) : join (x :: l) = x +:+ join l.
Proof. reflexivity. Qed.

(** ** generate_aroma_config *)

Lemma format_menu_item (name : string) :
  format rom_menu_item_fmt [FmtStr name] = menu_line (c_str name).
Proof.
  vm_compute. reflexivity.
Qed.

Lemma format_selection_item (i : N) (id name : string) :
  format rom_selection_item_fmt [FmtSize i; FmtStr id; FmtStr name] =
  selection_block (decimal_of_N i) (c_str id) (c_str name).
Proof.
  vm_compute. reflexivity.
Qed.

Lemma size_add_small (a b : N) : (a + b < 2 ^ 64)%N → size_add a b = (a + b)%N.
Proof. intros H. unfold size_add, size_t_wrap, SIZE_BITS. apply N.mod_small. exact H. Qed.

Lemma rom_items_loop_spec (roms : list Rom) : ∀ (i : N) (menu sel : string),
  (i + N.of_nat (length roms) + 3 < 2 ^ 64)%N →
  Forall (λ r, is_c_string (rom_id r) ∧ is_c_string (display_name r)) roms →
  rom_items_loop i roms menu sel =
  (menu +:+ join (map (λ r, menu_line (display_name r)) roms),
   sel +:+ join (imap (λ k r, selection_block
                                 (decimal_of_N (i + N.of_nat k + 3))
                                 (rom_id r) (display_name r)) roms)).
Proof.
  induction roms as [|rom rest IH]; intros i menu sel Hlen Hnul.
  - simpl. rewrite !append_nil_r. reflexivity.
  - apply Forall_cons in Hnul as [[Hid Hname] Hrest].
    cbn [length] in Hlen.
    cbn [rom_items_loop]. fold (display_name rom).
    rewrite format_menu_item, format_selection_item.
    rewrite (c_str_id _ Hid), (c_str_id _ Hname).
    rewrite (size_add_small i 2) by lia.
    rewrite (size_add_small (i + 2) 1) by lia.
    rewrite (size_add_small i 1) by lia.
    rewrite IH by first [assumption | lia].
    rewrite !append_assoc. cbn [map]. rewrite imap_cons, !join_cons.
    f_equal. f_equal. f_equal.
    + do 2 f_equal. lia.
    + f_equal. apply imap_ext. intros k r _. unfold compose.
      do 2 f_equal. lia.
Qed.

Lemma first_index_3 : first_index = "3".
Proof. reflexivity. Qed.

Lemma last_index_spec (roms : list Rom) :
  (N.of_nat (length roms) + 2 < 2 ^ 64)%N →
  last_index roms = decimal_of_N (2 + N.of_nat (length roms)).
Proof.
  intros H. unfold last_index. cbn -[decimal_of_N size_add size_t_wrap].
  rewrite append_nil_r. f_equal. unfold size_t_wrap at 1, SIZE_BITS.
  rewrite N.mod_small by lia. apply size_add_small. lia.
Qed.

Lemma generate_aroma_config_substitute (data : list byte) :
  generate_aroma_config data =
  list_byte_of_string
    (substitute (string_of_list_byte data)
       (template_context (rom_items_loop 0 installed_roms EmptyString EmptyString).1
                         (rom_items_loop 0 installed_roms EmptyString EmptyString).2
                         first_index (last_index installed_roms))).
Proof. reflexivity. Qed.

(** C5: template substitution expands @ROM_MENU_ITEMS@ to one menu line per
    installed ROM, in discovery order, and @ROM_SELECTION_ITEMS@ to one
    selection block per ROM, the block of the ROM at zero-based index i
    comparing the status property with the decimal form of i + 3 and
    setting romid to the ROM id and romname to the display name; the
    display name is the configuration's name when the configuration loads
    and the name is not empty, the ROM id otherwise.  (ROM ids and names
    are C strings, and the number of ROMs fits a size_t.) *)
Theorem rom_items_expansion (data : list byte) :
  let roms := installed_roms in
  (N.of_nat (length roms) + 3 < 2 ^ 64)%N →
  Forall (λ r, is_c_string (rom_id r) ∧ is_c_string (display_name r)) roms →
  let menu := join (map (λ r, menu_line (display_name r)) roms) in
  let selection :=
    join (imap (λ i r, selection_block (decimal_of_N (N.of_nat i + 3))
                                       (rom_id r) (display_name r)) roms) in
  generate_aroma_config data =
    list_byte_of_string
      (substitute (string_of_list_byte data)
         (template_context menu selection first_index (last_index roms)))
  ∧ (∀ r, let config := load_file (config_path r) in
          (config.1 = true ∧ cfg_name config.2 ≠ EmptyString →
           display_name r = cfg_name config.2) ∧
          (¬ (config.1 = true ∧ cfg_name config.2 ≠ EmptyString) →
           display_name r = rom_id r)).
Proof.
  intros roms Hlen Hnul menu selection. split.
  - rewrite generate_aroma_config_substitute. fold roms.
    rewrite (rom_items_loop_spec roms 0 EmptyString EmptyString)
      by first [assumption | lia].
    reflexivity.
  - intros r config. unfold display_name. fold config. split.
    + intros [-> Hne]. apply String.eqb_neq in Hne. rewrite Hne. reflexivity.
    + intros Hnot. destruct config.1; [|reflexivity].
      destruct (String.eqb_spec (cfg_name config.2) EmptyString) as [He | Hne];
        [reflexivity|]. exfalso. apply Hnot. split; [reflexivity | assumption].
Qed.

(** ** replace_all on a text whose placeholders are known *)

Ltac solve_not_in :=
  repeat first [rewrite chars_append | progress cbn [chars]];
  unfold AT, TAB in *;
  repeat first
    [ assumption
    | discriminate
    | apply not_elem_of_nil
    | apply not_elem_of_app; split
    | apply not_elem_of_cons; split ].

Lemma prefix_cons (d c : ascii) (p s : string) :
  String.prefix (String d p) (String c s) =
  if Ascii.eqb d c then String.prefix p s else false.
Proof.
  cbn [String.prefix]. destruct (ascii_dec d c) as [-> | Hne].
  - rewrite Ascii.eqb_refl. reflexivity.
  - apply Ascii.eqb_neq in Hne. rewrite Hne. reflexivity.
Qed.

Lemma replace_all_from_cons (c : ascii) (rest from to : string) :
  replace_all_from 0 (String c rest) from to =
  if String.prefix from (String c rest)
  then to +:+ replace_all_from (String.length from - 1) rest from to
  else String c (replace_all_from 0 rest from to).
Proof. reflexivity. Qed.

Section replace_all_facts.
Variables (f : ascii) (F to : string).
Local Abbreviation from := (String f F).

Lemma replace_all_from_skip (x s : string) :
  replace_all_from (String.length x) (x +:+ s) from to = replace_all_from 0 s from to.
Proof.
  induction x as [|c x IH]; [reflexivity|]. rewrite append_cons. simpl. exact IH.
Qed.

Lemma replace_all_from_pass (a s : string) :
  f ∉ chars a →
  replace_all_from 0 (a +:+ s) from to = a +:+ replace_all_from 0 s from to.
Proof.
  induction a as [|c a IH]; [reflexivity|]. intros Hn. cbn [chars] in Hn.
  apply not_elem_of_cons in Hn as [Hc Ha]. rewrite !append_cons.
  rewrite replace_all_from_cons, prefix_cons.
  apply Ascii.eqb_neq in Hc. rewrite Hc.
  rewrite IH by assumption. reflexivity.
Qed.

Lemma replace_all_from_none (s : string) :
  f ∉ chars s → replace_all_from 0 s from to = s.
Proof.
  intros Hn. rewrite <- (append_nil_r s) at 1.
  rewrite replace_all_from_pass by assumption. apply append_nil_r.
Qed.

Lemma replace_all_none (s : string) : f ∉ chars s → replace_all s from to = s.
Proof. apply replace_all_from_none. Qed.

End replace_all_facts.

Lemma append_nil_l (s : string) : EmptyString +:+ s = s.
Proof. reflexivity. Qed.

Lemma eqb_cons (c d : ascii) (x y : string) :
  String.eqb (String c x) (String d y) = if Ascii.eqb c d then String.eqb x y else false.
Proof. reflexivity. Qed.

Lemma prefix_token (X : string) : ∀ x r,
  AT ∉ chars x → AT ∉ chars X →
  String.prefix (X +:+ chr AT) (x +:+ String AT r) = String.eqb x X.
Proof.
  induction X as [|d X IH]; intros x r Hx HX.
  - rewrite append_nil_l. destruct x as [|c x].
    + rewrite append_nil_l. unfold chr. rewrite prefix_cons, Ascii.eqb_refl.
      destruct r; reflexivity.
    + simpl in Hx. apply not_elem_of_cons in Hx as [Hc _].
      rewrite append_cons. unfold chr. rewrite prefix_cons.
      apply Ascii.eqb_neq in Hc. rewrite Hc. reflexivity.
  - simpl in HX. apply not_elem_of_cons in HX as [Hd HX].
    rewrite append_cons. destruct x as [|c x].
    + rewrite append_nil_l, prefix_cons.
      assert (Hd' : d ≠ AT) by congruence.
      apply Ascii.eqb_neq in Hd'. rewrite Hd'. reflexivity.
    + simpl in Hx. apply not_elem_of_cons in Hx as [Hc Hx].
      rewrite append_cons, prefix_cons, eqb_cons, (Ascii.eqb_sym c d).
      destruct (Ascii.eqb d c); [apply IH; assumption | reflexivity].
Qed.

Lemma prefix_token_end (X : string) : ∀ c,
  AT ∉ chars c → String.prefix (X +:+ chr AT) c = false.
Proof.
  induction X as [|d X IH]; intros c Hc.
  - rewrite append_nil_l. destruct c as [|k c]; [reflexivity|]. simpl in Hc.
    apply not_elem_of_cons in Hc as [Hk _]. unfold chr. rewrite prefix_cons.
    apply Ascii.eqb_neq in Hk. rewrite Hk. reflexivity.
  - rewrite append_cons. destruct c as [|k c]; [reflexivity|]. simpl in Hc.
    apply not_elem_of_cons in Hc as [_ Hc]. rewrite prefix_cons.
    destruct (Ascii.eqb d k); [apply IH; assumption | reflexivity].
Qed.

Section placeholder_facts.
Variables (X to : string).
Hypothesis X_plain : AT ∉ chars X.
Local Abbreviation token := (String AT (X +:+ chr AT)).

(** At an '@' that is followed by [x] and the next '@'. *)
Lemma replace_all_from_at (x r : string) :
  AT ∉ chars x →
  replace_all_from 0 (String AT (x +:+ String AT r)) token to =
  if String.eqb x X then to +:+ replace_all_from 0 r token to
  else String AT (x +:+ replace_all_from 0 (String AT r) token to).
Proof.
  intros Hx. rewrite replace_all_from_cons.
  rewrite prefix_cons, Ascii.eqb_refl, prefix_token by assumption.
  destruct (String.eqb_spec x X) as [-> | Hne].
  - f_equal. cbn [String.length]. rewrite Nat.sub_succ, Nat.sub_0_r.
    change (String AT r) with (chr AT +:+ r). rewrite <- append_assoc.
    apply replace_all_from_skip.
  - f_equal. apply replace_all_from_pass. assumption.
Qed.

(** At the last '@' of the text. *)
Lemma replace_all_from_at_end (c : string) :
  AT ∉ chars c →
  replace_all_from 0 (String AT c) token to = String AT c.
Proof.
  intros Hc. rewrite replace_all_from_cons.
  rewrite prefix_cons, Ascii.eqb_refl, prefix_token_end by assumption. f_equal.
  apply replace_all_from_none. assumption.
Qed.

(** A text with two placeholders, neither of them, nor what stands between
    them, being the one replaced: nothing changes. *)
Lemma replace_all_other (a x1 b x2 c : string) :
  AT ∉ chars a → AT ∉ chars x1 → AT ∉ chars b → AT ∉ chars x2 → AT ∉ chars c →
  x1 ≠ X → b ≠ X → x2 ≠ X →
  replace_all (a +:+ String AT (x1 +:+ String AT (b +:+ String AT (x2 +:+ String AT c))))
              token to =
  a +:+ String AT (x1 +:+ String AT (b +:+ String AT (x2 +:+ String AT c))).
Proof.
  intros Ha H1 Hb H2 Hc N1 Nb N2. change (replace_all ?s token to) with
    (replace_all_from 0 s token to).
  rewrite (replace_all_from_pass AT) by assumption.
  rewrite replace_all_from_at by assumption.
  apply String.eqb_neq in N1. rewrite N1.
  rewrite replace_all_from_at by assumption.
  apply String.eqb_neq in Nb. rewrite Nb.
  rewrite replace_all_from_at by assumption.
  apply String.eqb_neq in N2. rewrite N2.
  rewrite replace_all_from_at_end by assumption. reflexivity.
Qed.

(** The first of two placeholders is the one replaced. *)
Lemma replace_all_first (a b x2 c : string) :
  AT ∉ chars a → AT ∉ chars b → AT ∉ chars x2 → AT ∉ chars c →
  x2 ≠ X →
  replace_all (a +:+ String AT (X +:+ String AT (b +:+ String AT (x2 +:+ String AT c))))
              token to =
  ((a +:+ to) +:+ b) +:+ String AT (x2 +:+ String AT c).
Proof.
  intros Ha Hb H2 Hc N2. change (replace_all ?s token to) with
    (replace_all_from 0 s token to).
  rewrite (replace_all_from_pass AT) by assumption.
  rewrite replace_all_from_at by assumption. rewrite String.eqb_refl.
  rewrite (replace_all_from_pass AT) by assumption.
  rewrite replace_all_from_at by assumption.
  apply String.eqb_neq in N2. rewrite N2.
  rewrite replace_all_from_at_end by assumption.
  rewrite !append_assoc. reflexivity.
Qed.

(** The only placeholder of the text is the one replaced. *)
Lemma replace_all_only (a c : string) :
  AT ∉ chars a → AT ∉ chars c →
  replace_all (a +:+ String AT (X +:+ String AT c)) token to = (a +:+ to) +:+ c.
Proof.
  intros Ha Hc. change (replace_all ?s token to) with (replace_all_from 0 s token to).
  rewrite (replace_all_from_pass AT) by assumption.
  rewrite replace_all_from_at by assumption. rewrite String.eqb_refl.
  rewrite (replace_all_from_none AT) by assumption.
  rewrite !append_assoc. reflexivity.
Qed.

End placeholder_facts.

Lemma string_of_uint_plain (c : ascii) (d : Decimal.uint) :
  c ∈ chars (NilEmpty.string_of_uint d) →
  c ∈ chars "0123456789".
Proof.
  induction d as [|d IH|d IH|d IH|d IH|d IH|d IH|d IH|d IH|d IH|d IH];
    cbn [NilEmpty.string_of_uint chars]; intros Hin;
    try (apply elem_of_cons in Hin as [-> | Hin]; [|exact (IH Hin)]).
  all: try (cbn; repeat constructor).
  inversion Hin.
Qed.

Lemma decimal_of_N_plain (c : ascii) (n : N) :
  c ∈ chars (decimal_of_N n) → c ∈ chars "0123456789".
Proof.
  unfold decimal_of_N, NilZero.string_of_uint.
  destruct (N.to_uint n) eqn:Hd; try apply string_of_uint_plain.
  cbn. intros Hin. apply elem_of_cons in Hin as [-> | Hin]; [|inversion Hin].
  repeat constructor.
Qed.

Lemma decimal_of_N_no_at (n : N) : AT ∉ chars (decimal_of_N n).
Proof.
  intros Hin. apply decimal_of_N_plain in Hin. cbn in Hin.
  repeat (apply elem_of_cons in Hin as [Hin | Hin]; [discriminate|]).
  inversion Hin.
Qed.

(** C6: in a template whose only placeholders are @FIRST_INDEX@ and
    @LAST_INDEX@, in that order, the first becomes the literal 3 and the
    second the decimal form of 2 + n, n the number of installed ROMs, the
    rest of the text staying as it is.  The rest [a], [b], [c] holds no
    '@' and no tab, and [b] does not spell, between the two placeholders,
    the name of one that is replaced before them.  With no ROM installed
    and the template @FIRST_INDEX@,@LAST_INDEX@ the result is 3,2. *)
Theorem index_placeholders (a b c : string) :
  let n := N.of_nat (length installed_roms) in
  (n + 2 < 2 ^ 64)%N →
  AT ∉ chars (a +:+ b +:+ c) →
  TAB ∉ chars (a +:+ b +:+ c) →
  b ∉ ["MBTOOL_VERSION"; "ROM_MENU_ITEMS"; "ROM_SELECTION_ITEMS"] →
  generate_aroma_config
    (list_byte_of_string (a +:+ "@FIRST_INDEX@" +:+ b +:+ "@LAST_INDEX@" +:+ c)) =
  list_byte_of_string (a +:+ "3" +:+ b +:+ decimal_of_N (2 + n) +:+ c).
Proof.
  intros n Hn Hat Htab Hb.
  rewrite !chars_append in Hat, Htab.
  apply not_elem_of_app in Hat as [Ha Hat]. apply not_elem_of_app in Hat as [Hb' Hc].
  apply not_elem_of_app in Htab as [Ta Htab]. apply not_elem_of_app in Htab as [Tb Tc].
  assert (Nb1 : b ≠ "MBTOOL_VERSION") by (intros ->; apply Hb; repeat constructor).
  assert (Nb2 : b ≠ "ROM_MENU_ITEMS") by (intros ->; apply Hb; repeat constructor).
  assert (Nb3 : b ≠ "ROM_SELECTION_ITEMS") by (intros ->; apply Hb; repeat constructor).
  assert (plain : ∀ X : string, bool_decide (AT ∉ chars X) = true → AT ∉ chars X)
    by (intros X HX; apply bool_decide_eq_true in HX; exact HX).
  rewrite generate_aroma_config_substitute, string_of_list_byte_of_string.
  f_equal. rewrite first_index_3, (last_index_spec installed_roms Hn). fold n.
  set (menu := (rom_items_loop 0 installed_roms EmptyString EmptyString).1).
  set (sel := (rom_items_loop 0 installed_roms EmptyString EmptyString).2).
  unfold template_context, substitute. cbn [foldl fst snd].
  change (a +:+ "@FIRST_INDEX@" +:+ b +:+ "@LAST_INDEX@" +:+ c) with
    (a +:+ String AT ("FIRST_INDEX" +:+ String AT
       (b +:+ String AT ("LAST_INDEX" +:+ String AT c)))).
  rewrite (replace_all_none TAB EmptyString).
  2:{ solve_not_in. }
  change "@MBTOOL_VERSION@" with (String AT ("MBTOOL_VERSION" +:+ chr AT)).
  change "@ROM_MENU_ITEMS@" with (String AT ("ROM_MENU_ITEMS" +:+ chr AT)).
  change "@ROM_SELECTION_ITEMS@" with (String AT ("ROM_SELECTION_ITEMS" +:+ chr AT)).
  change "@FIRST_INDEX@" with (String AT ("FIRST_INDEX" +:+ chr AT)).
  change "@LAST_INDEX@" with (String AT ("LAST_INDEX" +:+ chr AT)).
  rewrite (replace_all_other "MBTOOL_VERSION" version (plain "MBTOOL_VERSION" eq_refl)
             a "FIRST_INDEX" b "LAST_INDEX" c)
    by first [assumption | apply plain; reflexivity | discriminate].
  rewrite (replace_all_other "ROM_MENU_ITEMS" menu (plain "ROM_MENU_ITEMS" eq_refl)
             a "FIRST_INDEX" b "LAST_INDEX" c)
    by first [assumption | apply plain; reflexivity | discriminate].
  rewrite (replace_all_other "ROM_SELECTION_ITEMS" sel (plain "ROM_SELECTION_ITEMS" eq_refl)
             a "FIRST_INDEX" b "LAST_INDEX" c)
    by first [assumption | apply plain; reflexivity | discriminate].
  rewrite (replace_all_first "FIRST_INDEX" "3" (plain "FIRST_INDEX" eq_refl) a b "LAST_INDEX" c)
    by first [assumption | apply plain; reflexivity | discriminate].
  assert (Hpre : AT ∉ chars ((a +:+ "3") +:+ b)).
  { solve_not_in. }
  rewrite (replace_all_only "LAST_INDEX" (decimal_of_N (2 + n)) (plain "LAST_INDEX" eq_refl)
             ((a +:+ "3") +:+ b) c) by assumption.
  assert (Hall : AT ∉ chars ((((a +:+ "3") +:+ b) +:+ decimal_of_N (2 + n)) +:+ c)).
  { pose proof (decimal_of_N_no_at (2 + n)) as Hdec.
    rewrite (chars_append _ c), (chars_append _ (decimal_of_N _)).
    apply not_elem_of_app; split; [apply not_elem_of_app; split|]; assumption. }
  rewrite (replace_all_none AT _ get_system_partition _ Hall).
  rewrite (replace_all_none AT _ get_cache_partition _ Hall).
  rewrite (replace_all_none AT _ get_data_partition _ Hall).
  rewrite (replace_all_none AT _ get_extsd_partition _ Hall).
  rewrite !append_assoc. reflexivity.
Qed.


(** ** Reasoning about the state monad *)

Lemma wp_ret {A} (a : A) (Q : A → State → Prop) st : Q a st → wp (mret a) Q st.
Proof. intros H. exact H. Qed.

Lemma wp_bind {A B} (m : M A) (f : A → M B) (Q : B → State → Prop) st :
  wp m (λ a st', wp (f a) Q st') st → wp (m ≫= f) Q st.
Proof. intros H. exact H. Qed.

Lemma wp_LOG lvl fmt args (Q : unit → State → Prop) st :
  Q () (add_log lvl (format fmt args) st) → wp (LOG lvl fmt args) Q st.
Proof. intros H. exact H. Qed.

Lemma wp_on_zf (call : zipFile → Z * zipFile) (Q : Z → State → Prop) st :
  (∀ zf, _zf st = Some zf → Q (call zf).1 (set_zf (Some (call zf).2) st)) →
  (_zf st = None → Q ZIP_PARAMERROR st) →
  wp (on_zf call) Q st.
Proof.
  intros Hsome Hnone. unfold wp, on_zf. destruct (_zf st) as [zf|] eqn:Hzf.
  - apply Hsome. reflexivity.
  - apply Hnone. reflexivity.
Qed.

Lemma wp_mono {A} (m : M A) (Q Q' : A → State → Prop) st :
  (∀ a st', Q a st' → Q' a st') → wp m Q st → wp m Q' st.
Proof. intros H Hwp. apply H. exact Hwp. Qed.

Lemma bind_step {A B} (m : M A) (f : A → M B) st a st' :
  m st = (a, st') → (m ≫= f) st = f a st'.
Proof. intros H. rewrite bind_run, H. reflexivity. Qed.

(** ** The archive along the callbacks *)

Section archive_frame.
Variable P : zip_entry → Prop.
Hypothesis P_append : ∀ e buf, P e → P (append_data e buf).
Local Abbreviation grown := (grown P).
Local Abbreviation archive_grown := (archive_grown P).
Local Abbreviation settled := (settled P).

Lemma grown_refl zf : zf_current zf = None → grown zf zf.
Proof.
  intros Hcur. split; [reflexivity|]. exists []. rewrite app_nil_r.
  split; [reflexivity|]. split; [constructor|]. intros e He. congruence.
Qed.

Lemma grown_open zf0 zf filename zipfi method level raw zip64 :
  P {| ze_filename := filename; ze_zipfi := zipfi; ze_method := method;
       ze_level := level; ze_raw := raw; ze_zip64 := zip64; ze_data := [] |} →
  grown zf0 zf →
  grown zf0 (zipOpenNewFileInZip2_64_on zf filename zipfi method level raw zip64).2.
Proof.
  intros Hnew (Hcl & new & Hent & Hall & Hcur). unfold zipOpenNewFileInZip2_64_on.
  destruct (_ =? ZIP_OK); cbn [snd].
  - split; [exact Hcl|]. exists (new ++ option_list (zf_current zf)).
    cbn [zf_entries zf_current]. unfold open_entries. rewrite Hent, app_assoc.
    split; [reflexivity|]. split.
    + apply Forall_app. split; [exact Hall|].
      destruct (zf_current zf) as [e|]; cbn; [|constructor].
      constructor; [apply Hcur; reflexivity | constructor].
    + intros e [= <-]. exact Hnew.
  - split; [exact Hcl|]. exists new. auto.
Qed.

Lemma grown_write zf0 zf buf len :
  grown zf0 zf → grown zf0 (zipWriteInFileInZip_on zf buf len).2.
Proof.
  intros (Hcl & new & Hent & Hall & Hcur). unfold zipWriteInFileInZip_on.
  destruct (zf_current zf) as [e|] eqn:He; cbn [snd].
  - destruct (_ =? ZIP_OK); cbn [snd].
    + split; [exact Hcl|]. exists new. cbn [zf_entries zf_current].
      split; [exact Hent|]. split; [exact Hall|]. intros e' [= <-].
      apply P_append, Hcur. reflexivity.
    + split; [exact Hcl|]. exists new. rewrite He. auto.
  - split; [exact Hcl|]. exists new. rewrite He. auto.
Qed.

Lemma grown_close_file zf0 zf :
  grown zf0 zf →
  grown zf0 (zipCloseFileInZip_on zf).2 ∧ zf_current (zipCloseFileInZip_on zf).2 = None.
Proof.
  intros (Hcl & new & Hent & Hall & Hcur). unfold zipCloseFileInZip_on.
  destruct (zf_current zf) as [e|] eqn:He; cbn [snd].
  - split; [|reflexivity]. split; [exact Hcl|].
    exists (new ++ (if zipCloseFileInZip_rc zf =? ZIP_OK then [e] else [])).
    cbn [zf_entries zf_current]. rewrite Hent, app_assoc.
    split; [reflexivity|]. split; [|discriminate].
    apply Forall_app. split; [exact Hall|].
    destruct (_ =? ZIP_OK); [|constructor].
    constructor; [apply Hcur; reflexivity | constructor].
  - split; [|exact He]. split; [exact Hcl|]. exists new. rewrite He. auto.
Qed.

Lemma archive_grown_log zf0 lvl msg st :
  archive_grown zf0 st → archive_grown zf0 (add_log lvl msg st).
Proof. intros H. exact H. Qed.

Lemma settled_log zf0 lvl msg st : settled zf0 st → settled zf0 (add_log lvl msg st).
Proof. intros H. exact H. Qed.

Lemma wp_zipOpenNewFileInZip2_64 zf0 filename zipfi method level raw zip64
    (Q : Z → State → Prop) st :
  P {| ze_filename := filename; ze_zipfi := zipfi; ze_method := method;
       ze_level := level; ze_raw := raw; ze_zip64 := zip64; ze_data := [] |} →
  settled zf0 st →
  (∀ rc st', rc ≠ ZIP_OK → settled zf0 st' → Q rc st') →
  (∀ st', archive_grown zf0 st' → Q ZIP_OK st') →
  wp (zipOpenNewFileInZip2_64 filename zipfi method level raw zip64) Q st.
Proof.
  intros Hnew (zf & Hzf & Hg & Hcur) Hfail Hok.
  apply wp_on_zf; [|congruence]. intros zf' Hzf'.
  assert (zf' = zf) as -> by congruence.
  pose proof (grown_open zf0 zf filename zipfi method level raw zip64 Hnew Hg) as Hg'.
  unfold zipOpenNewFileInZip2_64_on in *.
  destruct (zipOpenNewFileInZip_rc zf filename =? ZIP_OK) eqn:Hrc; cbn [fst snd] in *.
  - apply Z.eqb_eq in Hrc. rewrite Hrc. apply Hok. eexists. split; [reflexivity|]. exact Hg'.
  - apply Z.eqb_neq in Hrc. apply Hfail; [exact Hrc|].
    exists zf. split; [reflexivity|]. split; assumption.
Qed.

Lemma wp_zipWriteInFileInZip zf0 buf len (Q : Z → State → Prop) st :
  archive_grown zf0 st →
  (∀ rc st', archive_grown zf0 st' → Q rc st') →
  wp (zipWriteInFileInZip buf len) Q st.
Proof.
  intros (zf & Hzf & Hg) HQ. apply wp_on_zf; [|congruence]. intros zf' Hzf'.
  assert (zf' = zf) as -> by congruence. apply HQ.
  eexists. split; [reflexivity|]. apply grown_write. exact Hg.
Qed.

Lemma wp_zipCloseFileInZip zf0 (Q : Z → State → Prop) st :
  archive_grown zf0 st →
  (∀ rc st', settled zf0 st' → Q rc st') →
  wp zipCloseFileInZip Q st.
Proof.
  intros (zf & Hzf & Hg) HQ. apply wp_on_zf; [|congruence]. intros zf' Hzf'.
  assert (zf' = zf) as -> by congruence. apply HQ.
  destruct (grown_close_file zf0 zf Hg) as [Hg' Hcur].
  eexists. split; [reflexivity|]. split; assumption.
Qed.

Lemma add_file_contents_frame zf0 name contents st :
  (∀ zip64, P {| ze_filename := c_str name; ze_zipfi := zip_fileinfo_zero;
                 ze_method := Z_DEFLATED; ze_level := Z_DEFAULT_COMPRESSION;
                 ze_raw := 0; ze_zip64 := zip64; ze_data := [] |}) →
  settled zf0 st →
  wp (add_file_contents name contents) (λ _ st', settled zf0 st') st.
Proof.
  intros Hnew Hst. unfold add_file_contents. apply wp_bind.
  apply (wp_zipOpenNewFileInZip2_64 zf0); [apply Hnew | exact Hst | |].
  - intros rc st' Hrc Hst'. apply Z.eqb_neq in Hrc. rewrite Hrc. cbn [negb].
    apply wp_bind, wp_LOG, wp_ret. apply settled_log. exact Hst'.
  - intros st' Hst'. cbn [negb Z.eqb ZIP_OK]. apply wp_bind.
    apply (wp_zipWriteInFileInZip zf0); [exact Hst'|]. intros rc st2 Hst2.
    destruct (negb (rc =? ZIP_OK)).
    + apply wp_bind, wp_LOG, wp_bind.
      apply (wp_zipCloseFileInZip zf0); [apply archive_grown_log; exact Hst2|].
      intros rc' st3 Hst3. apply wp_ret. exact Hst3.
    + apply wp_bind. apply (wp_zipCloseFileInZip zf0); [exact Hst2|].
      intros rc' st3 Hst3. apply wp_ret. exact Hst3.
Qed.

Lemma add_file_copy_frame zf0 path reads : ∀ st,
  archive_grown zf0 st →
  wp (add_file_copy reads path) (λ _ st', settled zf0 st') st.
Proof.
  induction reads as [|r rest IH]; intros st Hst.
  - cbn [add_file_copy]. apply wp_bind. apply (wp_zipCloseFileInZip zf0); [exact Hst|].
    intros rc st' Hst'. apply wp_ret. exact Hst'.
  - destruct r as [buf | e]; cbn [add_file_copy].
    + destruct (Z.of_nat (length buf) >? 0).
      * apply wp_bind. apply (wp_zipWriteInFileInZip zf0); [exact Hst|].
        intros rc st2 Hst2. destruct (negb (rc =? ZIP_OK)).
        -- apply wp_bind, wp_LOG, wp_bind.
           apply (wp_zipCloseFileInZip zf0); [apply archive_grown_log; exact Hst2|].
           intros rc' st3 Hst3. apply wp_ret. exact Hst3.
        -- apply IH. exact Hst2.
      * apply wp_bind. apply (wp_zipCloseFileInZip zf0); [exact Hst|].
        intros rc st' Hst'. apply wp_ret. exact Hst'.
    + apply wp_bind. apply (wp_zipCloseFileInZip zf0); [exact Hst|].
      intros rc st' Hst'. apply wp_bind, wp_LOG, wp_ret. apply settled_log. exact Hst'.
Qed.

Lemma add_file_path_frame zf0 name path st :
  (∀ fd sb zip64,
     open64 (c_str path) = IoOk fd → fh_fstat fd = IoOk sb →
     P {| ze_filename := c_str name;
          ze_zipfi := {| tmz_date := tmz_date zip_fileinfo_zero; dosDate := 0;
                         internal_fa := 0;
                         external_fa := Z.shiftl (Z.land (st_mode sb) 511) 16 |};
          ze_method := Z_DEFLATED; ze_level := Z_DEFAULT_COMPRESSION;
          ze_raw := 0; ze_zip64 := zip64; ze_data := [] |}) →
  settled zf0 st →
  wp (add_file_path name path) (λ _ st', settled zf0 st') st.
Proof.
  intros Hnew Hst. unfold add_file_path.
  destruct (open64 (c_str path)) as [fd | e] eqn:Hopen.
  2:{ apply wp_bind, wp_LOG, wp_ret, settled_log. exact Hst. }
  destruct (fh_fstat fd) as [sb | e] eqn:Hstat.
  2:{ apply wp_bind, wp_LOG, wp_ret, settled_log. exact Hst. }
  destruct (match fh_size fd with IoOk n => (n, 0) | IoErr e => (-1, e) end)
    as [size e].
  destruct (size <? 0).
  { apply wp_bind, wp_LOG, wp_ret, settled_log. exact Hst. }
  apply wp_bind.
  apply (wp_zipOpenNewFileInZip2_64 zf0); [eapply Hnew; eauto | exact Hst | |].
  - intros rc st' Hrc Hst'. apply Z.eqb_neq in Hrc. rewrite Hrc. cbn [negb].
    apply wp_bind, wp_LOG, wp_ret, settled_log. exact Hst'.
  - intros st' Hst'. cbn [negb Z.eqb ZIP_OK]. apply add_file_copy_frame. exact Hst'.
Qed.

Lemma on_reached_file_frame zf0 gen e st :
  (entry_name gen e = Some aroma_config_in →
   ∀ zip64, P {| ze_filename := c_str aroma_config; ze_zipfi := zip_fileinfo_zero;
                 ze_method := Z_DEFLATED; ze_level := Z_DEFAULT_COMPRESSION;
                 ze_raw := 0; ze_zip64 := zip64; ze_data := [] |}) →
  (∀ name fd sb zip64,
     entry_name gen e = Some name → name ≠ aroma_config_in →
     open64 (c_str (fts_accpath e)) = IoOk fd → fh_fstat fd = IoOk sb →
     P {| ze_filename := c_str name;
          ze_zipfi := {| tmz_date := tmz_date zip_fileinfo_zero; dosDate := 0;
                         internal_fa := 0;
                         external_fa := Z.shiftl (Z.land (st_mode sb) 511) 16 |};
          ze_method := Z_DEFLATED; ze_level := Z_DEFAULT_COMPRESSION;
          ze_raw := 0; ze_zip64 := zip64; ze_data := [] |}) →
  settled zf0 st →
  wp (on_reached_file gen e) (λ _ st', settled zf0 st') st.
Proof.
  intros Hctrl Hfile Hst. unfold on_reached_file.
  destruct (entry_name gen e) as [name|] eqn:Hname; [|apply wp_ret; exact Hst].
  apply wp_bind, wp_LOG.
  destruct (String.eqb_spec name aroma_config_in) as [-> | Hne].
  - destruct (file_read_all _) as [data | err].
    + apply wp_bind.
      apply (wp_mono _ (λ _ st', settled zf0 st')); [intros a st' H; exact H|].
      apply add_file_contents_frame; [apply Hctrl; reflexivity|].
      apply settled_log. exact Hst.
    + apply wp_bind, wp_LOG, wp_ret. do 2 apply settled_log. exact Hst.
  - apply wp_bind.
    apply (wp_mono _ (λ _ st', settled zf0 st')); [intros a st' H; exact H|].
    apply add_file_path_frame.
    + intros fd sb zip64 Hopen Hstat. eapply Hfile; eauto.
    + apply settled_log. exact Hst.
Qed.

End archive_frame.

(** ** The callbacks when no minizip call fails *)

Lemma to_uint32_small (x : Z) : 0 <= x < 2 ^ 32 → to_uint32 x = x.
Proof. intros H. unfold to_uint32. apply Z.mod_small. exact H. Qed.

Lemma append_data_nil (e : zip_entry) : append_data e [] = e.
Proof. destruct e. unfold append_data. cbn. rewrite app_nil_r. reflexivity. Qed.

Lemma append_data_app (e : zip_entry) (a b : list byte) :
  append_data (append_data e a) b = append_data e (a ++ b).
Proof. unfold append_data. cbn. rewrite app_assoc. reflexivity. Qed.

Section archive_success.
Hypothesis io_ok : zip_entry_io_ok.

Lemma zipOpenNewFileInZip2_64_ok filename zipfi method level raw zip64 st zf :
  _zf st = Some zf → zf_current zf = None →
  zipOpenNewFileInZip2_64 filename zipfi method level raw zip64 st =
  (ZIP_OK,
   set_zf (Some {| zf_entries := zf_entries zf;
                   zf_current := Some {| ze_filename := filename; ze_zipfi := zipfi;
                                         ze_method := method; ze_level := level;
                                         ze_raw := raw; ze_zip64 := zip64;
                                         ze_data := [] |};
                   zf_closed := zf_closed zf |}) st).
Proof.
  intros Hzf Hcur. destruct io_ok as (Hopen & _ & _).
  unfold zipOpenNewFileInZip2_64, on_zf, zipOpenNewFileInZip2_64_on, open_entries.
  rewrite Hzf, Hopen, Hcur. cbn. rewrite app_nil_r. reflexivity.
Qed.

Lemma zipWriteInFileInZip_ok buf st zf e :
  _zf st = Some zf → zf_current zf = Some e →
  Z.of_nat (length buf) < 2 ^ 32 →
  zipWriteInFileInZip buf (to_uint32 (Z.of_nat (length buf))) st =
  (ZIP_OK,
   set_zf (Some {| zf_entries := zf_entries zf;
                   zf_current := Some (append_data e buf);
                   zf_closed := zf_closed zf |}) st).
Proof.
  intros Hzf Hcur Hlen. destruct io_ok as (_ & Hwrite & _).
  unfold zipWriteInFileInZip, on_zf, zipWriteInFileInZip_on.
  rewrite Hzf, Hcur, Hwrite. cbn [fst snd Z.eqb ZIP_OK].
  rewrite to_uint32_small by lia. rewrite Nat2Z.id, firstn_all. reflexivity.
Qed.

Lemma zipCloseFileInZip_ok st zf e :
  _zf st = Some zf → zf_current zf = Some e →
  zipCloseFileInZip st =
  (ZIP_OK,
   set_zf (Some {| zf_entries := zf_entries zf ++ [e];
                   zf_current := None;
                   zf_closed := zf_closed zf |}) st).
Proof.
  intros Hzf Hcur. destruct io_ok as (_ & _ & Hclose).
  unfold zipCloseFileInZip, on_zf, zipCloseFileInZip_on.
  rewrite Hzf, Hcur, Hclose. reflexivity.
Qed.

Lemma add_file_contents_ok name contents st zf :
  _zf st = Some zf → zf_current zf = None →
  Z.of_nat (length contents) < 2 ^ 32 →
  add_file_contents name contents st =
  (true,
   set_zf (Some {| zf_entries := zf_entries zf ++
                     [{| ze_filename := c_str name; ze_zipfi := zip_fileinfo_zero;
                         ze_method := Z_DEFLATED; ze_level := Z_DEFAULT_COMPRESSION;
                         ze_raw := 0;
                         ze_zip64 := to_uint64 (Z.of_nat (length contents)) >=? 2 ^ 32 - 1;
                         ze_data := contents |}];
                   zf_current := None;
                   zf_closed := zf_closed zf |}) st).
Proof.
  intros Hzf Hcur Hlen. unfold add_file_contents.
  erewrite bind_step by (apply zipOpenNewFileInZip2_64_ok; eassumption).
  cbn [negb Z.eqb ZIP_OK].
  erewrite bind_step by (apply zipWriteInFileInZip_ok; [reflexivity | reflexivity | exact Hlen]).
  cbn [negb Z.eqb ZIP_OK].
  erewrite bind_step by (apply zipCloseFileInZip_ok; reflexivity).
  reflexivity.
Qed.

Lemma add_file_copy_ok path chunks : ∀ st zf e,
  _zf st = Some zf → zf_current zf = Some e →
  Forall read_chunk chunks →
  add_file_copy (map ReadData chunks) path st =
  (true,
   set_zf (Some {| zf_entries := zf_entries zf ++ [append_data e (concat chunks)];
                   zf_current := None;
                   zf_closed := zf_closed zf |}) st).
Proof.
  induction chunks as [|buf rest IH]; intros st zf e Hzf Hcur Hall.
  - cbn [map add_file_copy concat]. rewrite append_data_nil.
    erewrite bind_step by (apply zipCloseFileInZip_ok; eassumption). reflexivity.
  - apply Forall_cons in Hall as [Hbuf Hrest]. cbn [map add_file_copy].
    unfold read_chunk in Hbuf.
    assert (Hpos : (Z.of_nat (length buf) >? 0) = true) by (apply Z.gtb_lt; lia).
    rewrite Hpos.
    erewrite bind_step by (apply zipWriteInFileInZip_ok; [eassumption | eassumption | lia]).
    cbn [negb Z.eqb ZIP_OK].
    erewrite IH by first [reflexivity | assumption].
    cbn [concat]. rewrite append_data_app. reflexivity.
Qed.

Lemma add_file_path_ok name path st zf fd sb size chunks :
  _zf st = Some zf → zf_current zf = None →
  open64 (c_str path) = IoOk fd →
  fh_fstat fd = IoOk sb → fh_size fd = IoOk size → 0 <= size →
  fh_reads fd = map ReadData chunks →
  Forall read_chunk chunks →
  add_file_path name path st =
  (true,
   set_zf (Some {| zf_entries := zf_entries zf ++
                     [{| ze_filename := c_str name;
                         ze_zipfi := {| tmz_date := tmz_date zip_fileinfo_zero;
                                        dosDate := 0; internal_fa := 0;
                                        external_fa :=
                                          Z.shiftl (Z.land (st_mode sb) 511) 16 |};
                         ze_method := Z_DEFLATED; ze_level := Z_DEFAULT_COMPRESSION;
                         ze_raw := 0;
                         ze_zip64 := to_uint64 size >=? 2 ^ 32 - 1;
                         ze_data := concat chunks |}];
                   zf_current := None;
                   zf_closed := zf_closed zf |}) st).
Proof.
  intros Hzf Hcur Hopen Hstat Hsize Hpos Hreads Hall. unfold add_file_path.
  rewrite Hopen, Hstat, Hsize.
  assert (Hlt : (size <? 0) = false) by (apply Z.ltb_ge; exact Hpos). rewrite Hlt.
  erewrite bind_step by (apply zipOpenNewFileInZip2_64_ok; eassumption).
  cbn [negb Z.eqb ZIP_OK]. rewrite Hreads.
  erewrite add_file_copy_ok by first [reflexivity | exact Hall].
  reflexivity.
Qed.

End archive_success.

(** ** on_reached_file *)

Lemma c_str_is_c_string (s : string) : is_c_string (c_str s).
Proof.
  unfold is_c_string. induction s as [|c s IH]; cbn [c_str chars].
  - apply not_elem_of_nil.
  - destruct (Ascii.eqb_spec c NUL) as [-> | Hne]; cbn [chars].
    + apply not_elem_of_nil.
    + apply not_elem_of_cons. split; [|exact IH].
      intros Heq. apply Hne. symmetry. exact Heq.
Qed.

Lemma substr_is_c_string (pos : nat) : ∀ s r,
  is_c_string s → substr s pos = Some r → is_c_string r.
Proof.
  unfold is_c_string. induction pos as [|p IH]; intros s r Hs Hr.
  - cbn in Hr. injection Hr as <-. exact Hs.
  - destruct s as [|c s]; cbn in Hr; [discriminate|].
    cbn [chars] in Hs. apply not_elem_of_cons in Hs as [_ Hs]. eapply IH; eauto.
Qed.

Lemma entry_name_c_str gen e name : entry_name gen e = Some name → c_str name = name.
Proof.
  intros H. apply c_str_id. eapply substr_is_c_string; [|exact H].
  apply c_str_is_c_string.
Qed.

Lemma on_reached_file_control gen e st data :
  entry_name gen e = Some aroma_config_in →
  file_read_all (c_str (fts_accpath e)) = IoOk data →
  on_reached_file gen e st =
  (add_file_contents aroma_config (generate_aroma_config data) ≫= λ ret,
   mret (Some (action_of ret)))
    (add_log LOG_DEBUG (format "%s -> %s" [FmtStr (fts_path e); FmtStr aroma_config_in]) st).
Proof.
  intros Hname Hread. unfold on_reached_file. rewrite Hname, String.eqb_refl, Hread.
  reflexivity.
Qed.

Lemma on_reached_file_other gen e st name :
  entry_name gen e = Some name → name ≠ aroma_config_in →
  on_reached_file gen e st =
  (add_file_path name (fts_accpath e) ≫= λ ret, mret (Some (action_of ret)))
    (add_log LOG_DEBUG (format "%s -> %s" [FmtStr (fts_path e); FmtStr name]) st).
Proof.
  intros Hname Hne. unfold on_reached_file. rewrite Hname.
  apply String.eqb_neq in Hne. rewrite Hne. reflexivity.
Qed.

Lemma settled_start P zf st :
  _zf st = Some zf → zf_current zf = None → settled P zf st.
Proof.
  intros Hzf Hcur. exists zf. split; [exact Hzf|]. split; [|exact Hcur].
  apply grown_refl. exact Hcur.
Qed.

Lemma settled_entries P zf0 st :
  settled P zf0 st →
  ∃ zf new, _zf st = Some zf ∧ zf_entries zf = zf_entries zf0 ++ new ∧ Forall P new.
Proof.
  intros (zf & Hzf & (_ & new & Hent & Hall & _) & _). eauto.
Qed.

Lemma on_reached_file_control_ok gen e st zf data :
  entry_name gen e = Some aroma_config_in →
  _zf st = Some zf → zf_current zf = None →
  file_read_all (c_str (fts_accpath e)) = IoOk data →
  zip_entry_io_ok →
  Z.of_nat (length (generate_aroma_config data)) < 2 ^ 32 →
  (on_reached_file gen e st).1 = Some Ok ∧
  _zf (on_reached_file gen e st).2 =
    Some {| zf_entries := zf_entries zf ++
              [{| ze_filename := aroma_config; ze_zipfi := zip_fileinfo_zero;
                  ze_method := Z_DEFLATED; ze_level := Z_DEFAULT_COMPRESSION;
                  ze_raw := 0;
                  ze_zip64 :=
                    to_uint64 (Z.of_nat (length (generate_aroma_config data)))
                    >=? 2 ^ 32 - 1;
                  ze_data := generate_aroma_config data |}];
            zf_current := None;
            zf_closed := zf_closed zf |}.
Proof.
  intros Hname Hzf Hcur Hread Hio Hlen.
  rewrite (on_reached_file_control gen e st data Hname Hread).
  erewrite bind_step by
    (apply add_file_contents_ok; [exact Hio | exact Hzf | exact Hcur | exact Hlen]).
  split; reflexivity.
Qed.

Lemma on_reached_file_other_ok gen e st zf name fd sb size chunks :
  entry_name gen e = Some name → name ≠ aroma_config_in →
  _zf st = Some zf → zf_current zf = None →
  open64 (c_str (fts_accpath e)) = IoOk fd →
  fh_fstat fd = IoOk sb → fh_size fd = IoOk size → 0 <= size →
  fh_reads fd = map ReadData chunks → Forall read_chunk chunks →
  zip_entry_io_ok →
  (on_reached_file gen e st).1 = Some Ok ∧
  _zf (on_reached_file gen e st).2 =
    Some {| zf_entries := zf_entries zf ++
              [{| ze_filename := name;
                  ze_zipfi := {| tmz_date := tmz_date zip_fileinfo_zero;
                                 dosDate := 0; internal_fa := 0;
                                 external_fa :=
                                   Z.shiftl (Z.land (st_mode sb) 511) 16 |};
                  ze_method := Z_DEFLATED; ze_level := Z_DEFAULT_COMPRESSION;
                  ze_raw := 0;
                  ze_zip64 := to_uint64 size >=? 2 ^ 32 - 1;
                  ze_data := concat chunks |}];
            zf_current := None;
            zf_closed := zf_closed zf |}.
Proof.
  intros Hname Hne Hzf Hcur Hopen Hstat Hsize Hpos Hreads Hall Hio.
  rewrite (on_reached_file_other gen e st name Hname Hne).
  erewrite bind_step by
    (eapply add_file_path_ok;
     [exact Hio | exact Hzf | exact Hcur | exact Hopen | exact Hstat | exact Hsize
     | exact Hpos | exact Hreads | exact Hall]).
  rewrite (entry_name_c_str gen e name Hname).
  split; reflexivity.
Qed.

(** When the entry lies below the template root, the name that
    on_reached_file computes is its path relative to the root. *)
Lemma entry_name_below_root gen e rel :
  (N.of_nat (String.length (_path gen)) + 1 < 2 ^ 64)%N →
  is_c_string (_path gen) → is_c_string rel →
  fts_path e = _path gen +:+ "/" +:+ rel →
  entry_name gen e = Some rel.
Proof.
  intros Hlen Hroot Hrel Hpath. unfold entry_name.
  rewrite (size_add_small _ 1 Hlen), Hpath, c_str_id.
  2:{ unfold is_c_string in *. rewrite chars_append. apply not_elem_of_app.
      split; [exact Hroot|]. cbn [chars]. rewrite append_cons. cbn [chars].
      apply not_elem_of_cons. split; [discriminate | exact Hrel]. }
  replace (N.to_nat (N.of_nat (String.length (_path gen)) + 1))
    with (S (String.length (_path gen))) by lia.
  clear. induction (_path gen) as [|c root IH]; [reflexivity|].
  rewrite append_cons. cbn [String.length substr]. exact IH.
Qed.

(** The regular file for which on_reached_file computes the name
    META-INF/com/google/android/aroma-config.in is read whole, passed
    through generate_aroma_config and written as the entry
    META-INF/com/google/android/aroma-config; and no file, whatever the
    outcome of the calls, gets an entry that carries the .in name.  The
    computed name is the path relative to the root when the root is given
    without a trailing slash (entry_name_below_root). *)
Theorem control_file_rewritten gen e st zf :
  _zf st = Some zf → zf_current zf = None →
  let res := on_reached_file gen e st in
  ∃ zf' new,
    _zf res.2 = Some zf' ∧ zf_entries zf' = zf_entries zf ++ new ∧
    Forall (λ en, ze_filename en ≠ aroma_config_in) new ∧
    (entry_name gen e = Some aroma_config_in →
     Forall (λ en, ze_filename en = aroma_config) new ∧
     ∀ data,
       file_read_all (c_str (fts_accpath e)) = IoOk data →
       zip_entry_io_ok →
       Z.of_nat (length (generate_aroma_config data)) < 2 ^ 32 →
       res.1 = Some Ok ∧
       new = [{| ze_filename := aroma_config; ze_zipfi := zip_fileinfo_zero;
                 ze_method := Z_DEFLATED; ze_level := Z_DEFAULT_COMPRESSION;
                 ze_raw := 0;
                 ze_zip64 :=
                   to_uint64 (Z.of_nat (length (generate_aroma_config data)))
                   >=? 2 ^ 32 - 1;
                 ze_data := generate_aroma_config data |}]).
Proof.
  intros Hzf Hcur res.
  set (P := λ en : zip_entry,
         ze_filename en ≠ aroma_config_in ∧
         (entry_name gen e = Some aroma_config_in → ze_filename en = aroma_config)).
  assert (Hset : settled P zf res.2).
  { apply (on_reached_file_frame P).
    - intros en buf Hen. exact Hen.
    - intros _ zip64. cbn [ze_filename]. split; [discriminate | reflexivity].
    - intros name fd sb zip64 Hname Hne _ _. cbn [ze_filename].
      rewrite (entry_name_c_str gen e name Hname). split; [exact Hne | congruence].
    - apply settled_start; assumption. }
  destruct (settled_entries P zf res.2 Hset) as (zf' & new & Hzf' & Hent & Hall).
  exists zf', new. split; [exact Hzf'|]. split; [exact Hent|]. split.
  - eapply Forall_impl; [exact Hall|]. intros en [Hen _]. exact Hen.
  - intros Hctrl. split.
    + eapply Forall_impl; [exact Hall|]. intros en [_ Hen]. apply Hen. exact Hctrl.
    + intros data Hread Hio Hlen.
      destruct (on_reached_file_control_ok gen e st zf data Hctrl Hzf Hcur Hread Hio Hlen)
        as [Hres Hst]. fold res in Hres, Hst. split; [exact Hres|].
      rewrite Hst in Hzf'. injection Hzf' as <-. cbn [zf_entries] in Hent.
      apply app_inv_head in Hent. symmetry. exact Hent.
Qed.

(** A regular file other than the control file is copied, chunk after
    chunk, into an entry under the name that on_reached_file computes for
    it, whose external attributes hold the permission bits of the file
    (st_mode masked with 0777) shifted left by 16, from where they read
    back unchanged.  The computed name is the path relative to the root
    when the root is given without a trailing slash
    (entry_name_below_root). *)
Theorem regular_file_streamed gen e st zf name fd sb size chunks :
  entry_name gen e = Some name → name ≠ aroma_config_in →
  _zf st = Some zf → zf_current zf = None →
  open64 (c_str (fts_accpath e)) = IoOk fd →
  fh_fstat fd = IoOk sb → fh_size fd = IoOk size → 0 <= size →
  fh_reads fd = map ReadData chunks → Forall read_chunk chunks →
  zip_entry_io_ok →
  let res := on_reached_file gen e st in
  let attributes := Z.shiftl (Z.land (st_mode sb) 511) 16 in
  res.1 = Some Ok ∧
  _zf res.2 =
    Some {| zf_entries := zf_entries zf ++
              [{| ze_filename := name;
                  ze_zipfi := {| tmz_date := tmz_date zip_fileinfo_zero;
                                 dosDate := 0; internal_fa := 0;
                                 external_fa := attributes |};
                  ze_method := Z_DEFLATED; ze_level := Z_DEFAULT_COMPRESSION;
                  ze_raw := 0;
                  ze_zip64 := to_uint64 size >=? 2 ^ 32 - 1;
                  ze_data := concat chunks |}];
            zf_current := None;
            zf_closed := zf_closed zf |} ∧
  Z.shiftr attributes 16 = Z.land (st_mode sb) 511.
Proof.
  intros Hname Hne Hzf Hcur Hopen Hstat Hsize Hpos Hreads Hall Hio res attributes.
  subst res.
  destruct (on_reached_file_other_ok gen e st zf name fd sb size chunks)
    as [Hres Hst]; try assumption.
  split; [exact Hres|]. split; [exact Hst|].
  subst attributes. rewrite Z.shiftr_shiftl_l by lia. apply Z.shiftl_0_r.
Qed.


(** ** The tree walk *)

Lemma wp_any {A} (m : M A) (Q : A → State → Prop) st :
  (∀ a st', Q a st') → wp m Q st.
Proof. intros H. apply H. Qed.

Lemma on_reached_file_returns gen e st :
  is_Some (entry_name gen e) → is_Some (on_reached_file gen e st).1.
Proof.
  intros [name Hname]. change (wp (on_reached_file gen e) (λ r _, is_Some r) st).
  unfold on_reached_file. rewrite Hname. apply wp_bind, wp_LOG.
  destruct (String.eqb name aroma_config_in).
  - destruct (file_read_all _).
    + apply wp_bind, wp_any. intros ret st'. apply wp_ret. eauto.
    + apply wp_bind, wp_LOG, wp_ret. eauto.
  - apply wp_bind, wp_any. intros ret st'. apply wp_ret. eauto.
Qed.

(** The entries whose callback returns: every regular file has a name
    below the template root. *)
Lemma on_entry_returns gen e st :
  (fts_info e = RegularFile → is_Some (entry_name gen e)) →
  is_Some (on_entry gen e st).1.
Proof.
  intros Hname. unfold on_entry. destruct (fts_info e).
  - cbn. eauto.
  - apply on_reached_file_returns, Hname. reflexivity.
  - cbn. eauto.
  - cbn. eauto.
Qed.

Lemma on_entry_frame gen e zf0 st :
  settled (λ _, True) zf0 st → settled (λ _, True) zf0 (on_entry gen e st).2.
Proof.
  intros Hst. unfold on_entry. destruct (fts_info e).
  - exact Hst.
  - apply (on_reached_file_frame (λ _, True)); auto.
  - exact Hst.
  - exact Hst.
Qed.

Lemma traverse_cons stop_on_fail gen e rest success st :
  traverse stop_on_fail gen (e :: rest) success st =
  match (on_entry gen e st).1 with
  | None => (None, (on_entry gen e st).2)
  | Some Ok => traverse stop_on_fail gen rest success (on_entry gen e st).2
  | Some Fail =>
      if stop_on_fail then (Some false, (on_entry gen e st).2)
      else traverse stop_on_fail gen rest false (on_entry gen e st).2
  end.
Proof.
  cbn [traverse]. rewrite bind_run.
  destruct (on_entry gen e st).1 as [[|]|]; try reflexivity.
  destruct stop_on_fail; reflexivity.
Qed.

Lemma traverse_frame stop_on_fail gen zf0 tree : ∀ success st,
  settled (λ _, True) zf0 st →
  settled (λ _, True) zf0 (traverse stop_on_fail gen tree success st).2.
Proof.
  induction tree as [|e rest IH]; intros success st Hst; [exact Hst|].
  rewrite traverse_cons. pose proof (on_entry_frame gen e zf0 st Hst) as Hst'.
  destruct (on_entry gen e st).1 as [[|]|]; cbn [snd]; auto.
  destruct stop_on_fail; cbn [snd]; auto.
Qed.

Lemma traverse_returns stop_on_fail gen tree : ∀ success st,
  Forall (λ e, fts_info e = RegularFile → is_Some (entry_name gen e)) tree →
  is_Some (traverse stop_on_fail gen tree success st).1.
Proof.
  induction tree as [|e rest IH]; intros success st Hall; [cbn; eauto|].
  apply Forall_cons in Hall as [He Hrest]. rewrite traverse_cons.
  destruct (on_entry_returns gen e st He) as [a Ha]. rewrite Ha.
  destruct a; [apply IH; exact Hrest|].
  destruct stop_on_fail; [cbn; eauto | apply IH; exact Hrest].
Qed.

Lemma traverse_false stop_on_fail gen tree : ∀ st,
  (traverse stop_on_fail gen tree false st).1 ≠ Some true.
Proof.
  induction tree as [|e rest IH]; intros st; [discriminate|].
  rewrite traverse_cons. destruct (on_entry gen e st).1 as [[|]|]; [apply IH | | discriminate].
  destruct stop_on_fail; [discriminate | apply IH].
Qed.

Lemma traverse_app stop_on_fail gen pre rest : ∀ st st1,
  traverse stop_on_fail gen pre true st = (Some true, st1) →
  traverse stop_on_fail gen (pre ++ rest) true st = traverse stop_on_fail gen rest true st1.
Proof.
  induction pre as [|e pre IH]; intros st st1 Hpre.
  - cbn in Hpre. injection Hpre as <-. reflexivity.
  - rewrite <- app_comm_cons, traverse_cons. rewrite traverse_cons in Hpre.
    destruct (on_entry gen e st).1 as [[|]|]; [apply IH; exact Hpre | | discriminate].
    destruct stop_on_fail; [discriminate|]. exfalso.
    apply (traverse_false false gen pre (on_entry gen e st).2). rewrite Hpre. reflexivity.
Qed.

(** C8: a symlink or a special file is skipped: its callback logs one
    warning, leaves the archive as it is and returns Ok, and the walk goes
    on with the next entry, its success flag unchanged. *)
Theorem links_and_special_files_skipped stop_on_fail gen e rest success st :
  fts_info e = Symlink ∨ fts_info e = SpecialFile →
  ∃ msg,
    on_entry gen e st = (Some Ok, add_log LOG_WARNING msg st) ∧
    _zf (add_log LOG_WARNING msg st) = _zf st ∧
    traverse stop_on_fail gen (e :: rest) success st =
      traverse stop_on_fail gen rest success (add_log LOG_WARNING msg st).
Proof.
  intros [Hkind | Hkind].
  - exists (format "Ignoring symlink when creating zip: %s" [FmtStr (fts_path e)]).
    assert (Hrun : on_entry gen e st =
                   (Some Ok, add_log LOG_WARNING
                               (format "Ignoring symlink when creating zip: %s"
                                       [FmtStr (fts_path e)]) st)).
    { unfold on_entry. rewrite Hkind. reflexivity. }
    split; [exact Hrun|]. split; [reflexivity|].
    rewrite traverse_cons, Hrun. reflexivity.
  - exists (format "Ignoring special file when creating zip: %s" [FmtStr (fts_path e)]).
    assert (Hrun : on_entry gen e st =
                   (Some Ok, add_log LOG_WARNING
                               (format "Ignoring special file when creating zip: %s"
                                       [FmtStr (fts_path e)]) st)).
    { unfold on_entry. rewrite Hkind. reflexivity. }
    split; [exact Hrun|]. split; [reflexivity|].
    rewrite traverse_cons, Hrun. reflexivity.
Qed.

Lemma on_pre_execute_ok gen st :
  zipOpen2_64_ok (c_str (_zippath gen)) = true →
  on_pre_execute gen st =
  (true, set_zf (Some {| zf_entries := []; zf_current := None; zf_closed := false |}) st).
Proof. intros H. unfold on_pre_execute. rewrite H. reflexivity. Qed.

Lemma run_opened stop_on_fail gen tree st :
  zipOpen2_64_ok (c_str (_zippath gen)) = true →
  run stop_on_fail gen tree st =
  match traverse stop_on_fail gen tree true (on_pre_execute gen st).2 with
  | (None, stT) => (None, stT)
  | (Some success, stT) =>
      (Some (success && ((zipClose stT).1 =? ZIP_OK)), (zipClose stT).2)
  end.
Proof.
  intros Hopen. unfold run. rewrite bind_run, (on_pre_execute_ok gen st Hopen).
  cbn [fst snd negb]. rewrite bind_run.
  destruct (traverse _ _ _ _ _) as [[success|] stT]; reflexivity.
Qed.

(** C7: once the archive is open, and when no callback throws
    (the path of every regular file of the walk is longer than the root's,
    so that substr returns), run ends by closing the archive, whatever the
    entries did: the run returns, and the archive it leaves is finalized.
    The result is a failure when the callback of an entry failed and when
    zipClose failed; it is a success otherwise. *)
Theorem archive_finalized stop_on_fail gen tree st :
  zipOpen2_64_ok (c_str (_zippath gen)) = true →
  Forall (λ e, fts_info e = RegularFile → is_Some (entry_name gen e)) tree →
  let st0 := (on_pre_execute gen st).2 in
  let res := run stop_on_fail gen tree st in
  (∃ b zf, res.1 = Some b ∧ _zf res.2 = Some zf ∧ zf_closed zf = true)
  ∧ (∀ pre e post stE,
       tree = pre ++ e :: post →
       traverse stop_on_fail gen pre true st0 = (Some true, stE) →
       (on_entry gen e stE).1 = Some Fail →
       res.1 = Some false)
  ∧ (∀ success stT zfT,
       traverse stop_on_fail gen tree true st0 = (Some success, stT) →
       _zf stT = Some zfT →
       (zipClose_rc zfT ≠ ZIP_OK → res.1 = Some false) ∧
       (zipClose_rc zfT = ZIP_OK → res.1 = Some success)).
Proof.
  intros Hopen Hall st0 res.
  assert (Hres : res =
    match traverse stop_on_fail gen tree true st0 with
    | (None, stT) => (None, stT)
    | (Some success, stT) =>
        (Some (success && ((zipClose stT).1 =? ZIP_OK)), (zipClose stT).2)
    end) by (apply run_opened; exact Hopen).
  assert (Hst0 : settled (λ _, True)
                   {| zf_entries := []; zf_current := None; zf_closed := false |} st0).
  { subst st0. rewrite (on_pre_execute_ok gen st Hopen). cbn [snd].
    apply settled_start; reflexivity. }
  pose proof (traverse_returns stop_on_fail gen tree true st0 Hall) as [success Hsucc].
  pose proof (traverse_frame stop_on_fail gen _ tree true st0 Hst0) as Hset.
  destruct (traverse stop_on_fail gen tree true st0) as [r stT] eqn:Htr.
  cbn [fst snd] in Hsucc, Hset. subst r.
  destruct Hset as (zfT & HzfT & _ & _).
  assert (Hclose : zipClose stT = (zipClose_rc zfT, set_zf (Some (zipClose_on zfT).2) stT)).
  { unfold zipClose, on_zf. rewrite HzfT. reflexivity. }
  rewrite Hclose in Hres. cbn [fst snd] in Hres. split; [|split].
  - rewrite Hres. eexists _, _. split; [reflexivity|]. split; reflexivity.
  - intros pre e post stE Htree Hpre Hfail. rewrite Hres. cbn [fst].
    assert (success = false) as ->; [|reflexivity].
    subst tree. rewrite (traverse_app _ _ _ _ _ _ Hpre), traverse_cons, Hfail in Htr.
    destruct stop_on_fail.
    + congruence.
    + destruct success; [|reflexivity]. exfalso.
      apply (traverse_false false gen post (on_entry gen e stE).2).
      rewrite Htr. reflexivity.
  - intros success' stT' zfT' [= <- <-] Hzf'. assert (zfT' = zfT) as -> by congruence.
    rewrite Hres. cbn [fst]. split.
    + intros Hne. apply Z.eqb_neq in Hne. rewrite Hne, andb_false_r. reflexivity.
    + intros ->. rewrite andb_true_r. reflexivity.
Qed.

End utilities_facts.

(** * Further statements *)

Section utilities_more_facts.
Context {Device : Type} `{!Externals Device}.

(** ** Device matching *)

Lemma set_log_id st : set_log (log st ++ []) st = st.
Proof. destruct st. unfold set_log. cbn. rewrite app_nil_r. reflexivity. Qed.

Lemma logged_refl st : logged st st.
Proof. exists []. symmetry. apply set_log_id. Qed.

Lemma logged_add lvl msg st : logged st (add_log lvl msg st).
Proof. eexists. reflexivity. Qed.

Lemma logged_trans st1 st2 st3 : logged st1 st2 → logged st2 st3 → logged st1 st3.
Proof.
  intros [l1 ->] [l2 ->]. exists (l1 ++ l2). unfold set_log. cbn.
  rewrite app_assoc. reflexivity.
Qed.

Lemma get_device_loop_state pd bp devices : ∀ st,
  (get_device_loop pd bp devices st).2 =
  set_log (log st ++
           replicate (length (filter (λ d, validate d ≠ 0%N)
                                     (devices_before_match pd bp devices)))
                     skipped_warning) st.
Proof.
  induction devices as [|d rest IH]; intros st.
  - cbn. symmetry. apply set_log_id.
  - cbn [devices_before_match]. destruct (decide (device_matches pd bp d)) as [Hm | Hm].
    + rewrite (get_device_loop_step_match _ _ _ _ _ Hm). cbn. symmetry. apply set_log_id.
    + destruct (decide (validate d = 0%N)) as [Hv | Hv].
      * assert (Hc : ¬ device_has_codename pd bp d)
          by (intros Hc; apply Hm; split; assumption).
        rewrite (get_device_loop_step_nomatch _ _ _ _ _ Hc Hv), IH.
        rewrite filter_cons_False by (intros Hn; apply Hn; exact Hv). reflexivity.
      * rewrite (get_device_loop_step_invalid _ _ _ _ _ Hv), IH.
        rewrite filter_cons_True by exact Hv. cbn [length replicate].
        unfold add_log, set_log. cbn. rewrite <- app_assoc. reflexivity.
Qed.

Lemma get_device_loop_logged pd bp devices st :
  logged st (get_device_loop pd bp devices st).2.
Proof. eexists. apply get_device_loop_state. Qed.

Lemma get_device_logged path st : logged st (get_device path st).2.
Proof.
  unfold get_device, LOGD, LOGE. rewrite !bind_run, !LOG_run. cbn [fst snd].
  eapply logged_trans; [apply logged_add|].
  eapply logged_trans; [apply logged_add|].
  destruct (file_read_all (c_str path)) as [contents | e].
  2:{ rewrite bind_run, LOG_run. apply logged_add. }
  destruct (device_list_from_json _) as [devices|].
  2:{ rewrite bind_run, LOG_run. apply logged_add. }
  rewrite bind_run.
  match goal with
  | |- context [get_device_loop ?a ?b ?c ?s] =>
      pose proof (get_device_loop_logged a b c s) as Hl;
      destruct (get_device_loop a b c s) as [[d|] st2]
  end; cbn [fst snd] in *; [exact Hl|].
  rewrite bind_run, LOG_run. eapply logged_trans; [exact Hl | apply logged_add].
Qed.

Lemma logged_fields st st' :
  logged st st' →
  switch_calls st' = switch_calls st ∧ devices_file st' = devices_file st ∧
  _zf st' = _zf st ∧ ∃ lines, log st' = log st ++ lines.
Proof. intros [lines ->]. cbn. eauto. Qed.

(** X1: get_device changes nothing but the log, to which it only adds
    lines: the recorded switch-engine calls, the devices-file global and
    the archive handle are as before, whatever the file holds and whether
    a device is found or not. *)
Theorem get_device_only_logs path st :
  let st' := (get_device path st).2 in
  switch_calls st' = switch_calls st ∧ devices_file st' = devices_file st ∧
  _zf st' = _zf st ∧ ∃ lines, log st' = log st ++ lines.
Proof. apply logged_fields, get_device_logged. Qed.

(** X2: when the device file is read and parsed, the log of get_device is
    exactly: the two debug lines with the identity strings, one warning per
    device that fails validation among the devices before the match (among
    all of them when nothing matches), and, when nothing matches, the error
    naming ro.product.device. *)
Theorem get_device_log_lines path contents devices st :
  file_read_all (c_str path) = IoOk contents →
  device_list_from_json (c_str (string_of_list_byte (contents ++ [x00]))) = Some devices →
  let pd := property_get_string "ro.product.device" EmptyString in
  let bp := property_get_string "ro.build.product" EmptyString in
  let res := get_device path st in
  let invalid_seen :=
    length (filter (λ d, validate d ≠ 0%N) (devices_before_match pd bp devices)) in
  log res.2 =
    log st ++
    [{| ll_level := LOG_DEBUG; ll_msg := format "ro.product.device = %s" [FmtStr pd] |};
     {| ll_level := LOG_DEBUG; ll_msg := format "ro.build.product = %s" [FmtStr bp] |}] ++
    replicate invalid_seen skipped_warning ++
    match res.1 with
    | Some _ => []
    | None => [{| ll_level := LOG_ERROR;
                  ll_msg := format "Unknown device: %s" [FmtStr pd] |}]
    end.
Proof.
  intros Hread Hparse pd bp res invalid_seen. subst res.
  unfold get_device, LOGD, LOGE. rewrite !bind_run, !LOG_run. cbn [fst snd].
  rewrite Hread, Hparse, bind_run. fold pd bp.
  match goal with
  | |- context [get_device_loop pd bp devices ?s] =>
      pose proof (get_device_loop_state pd bp devices s) as Hst;
      destruct (get_device_loop pd bp devices s) as [[d|] st2]
  end; cbn [fst snd] in *; subst st2; fold invalid_seen.
  - unfold add_log, set_log. cbn. rewrite app_nil_r, <- !app_assoc. reflexivity.
  - rewrite bind_run, LOG_run. unfold add_log, set_log. cbn.
    rewrite <- !app_assoc. reflexivity.
Qed.

(** X3: get_device fails in exactly three cases: the file cannot be read,
    its content does not parse as a device list, or no device of the list
    passes validation and carries one of the two identity strings. *)
Theorem get_device_fails_iff path st :
  let pd := property_get_string "ro.product.device" EmptyString in
  let bp := property_get_string "ro.build.product" EmptyString in
  (get_device path st).1 = None ↔
  (∃ e, file_read_all (c_str path) = IoErr e) ∨
  (∃ contents,
     file_read_all (c_str path) = IoOk contents ∧
     match device_list_from_json (c_str (string_of_list_byte (contents ++ [x00]))) with
     | None => True
     | Some devices =>
         ∀ d, d ∈ devices → ¬ (device_valid d ∧ device_has_codename pd bp d)
     end).
Proof.
  intros pd bp. unfold get_device, LOGD, LOGE. rewrite !bind_run, !LOG_run. cbn [fst snd].
  destruct (file_read_all (c_str path)) as [contents | e].
  2:{ split; [eauto | reflexivity]. }
  destruct (device_list_from_json _) as [devices|] eqn:Hparse.
  2:{ split; [|reflexivity]. intros _. right. exists contents. rewrite Hparse. auto. }
  rewrite bind_run. fold pd bp.
  match goal with
  | |- context [get_device_loop pd bp devices ?s] =>
      pose proof (proj2 (get_device_loop_result pd bp devices s)) as Hnone;
      destruct (get_device_loop pd bp devices s) as [[d|] st2]
  end; cbn [fst snd] in *.
  - split; [discriminate|]. intros [[e He] | (c & Hc & Hall)]; [discriminate|].
    injection Hc as <-. rewrite Hparse in Hall. apply Hnone. exact Hall.
  - split; [|reflexivity]. intros _. right. exists contents. rewrite Hparse.
    split; [reflexivity|]. apply Hnone. reflexivity.
Qed.

(** ** ROM switching *)

Lemma first_blockdev_find cands :
  match list_find (λ path, is_boot_blockdev path = true) cands with
  | Some (_, p) => first_blockdev cands p
  | None => ∀ p, ¬ first_blockdev cands p
  end.
Proof.
  destruct (list_find _ cands) as [[i p]|] eqn:Hfind.
  - apply list_find_Some in Hfind as (Hi & Hp & Hfirst). exists i.
    split; [exact Hi|]. split; [apply blockdev_reflect; exact Hp|].
    intros j q Hj Hq Hb. apply (Hfirst j q Hq Hj). apply blockdev_reflect. exact Hb.
  - apply list_find_None in Hfind. rewrite Forall_forall in Hfind.
    intros p (i & Hi & Hp & _). apply (Hfind p).
    + eapply list_elem_of_lookup_2. exact Hi.
    + apply blockdev_reflect. exact Hp.
Qed.

Lemma first_blockdev_unique cands p q :
  first_blockdev cands p → first_blockdev cands q → p = q.
Proof.
  intros (i & Hi & Hp & Hfi) (j & Hj & Hq & Hfj).
  destruct (Nat.lt_trichotomy i j) as [Hlt | [-> | Hlt]].
  - exfalso. exact (Hfj i p Hlt Hi Hp).
  - congruence.
  - exfalso. exact (Hfi j q Hlt Hj Hq).
Qed.

(** utilities_switch_rom, case by case. *)
Lemma utilities_switch_rom_run rom_id force st :
  utilities_switch_rom rom_id force st =
  match devices_file st with
  | None => (false, add_log LOG_ERROR "No device definitions file specified" st)
  | Some file =>
      let st1 := (get_device file st).2 in
      match (get_device file st).1 with
      | None => (false, add_log LOG_ERROR "Failed to detect device" st1)
      | Some device =>
          match list_find (λ path, is_boot_blockdev path = true)
                          (boot_block_devs device) with
          | None =>
              (false, add_log LOG_ERROR
                        "All specified boot partition paths could not be found" st1)
          | Some (_, p) =>
              let ret := switch_rom (c_str rom_id) p (block_dev_base_dirs device) force in
              (bool_decide (ret = Succeeded),
               add_log LOG_DEBUG (outcome_name ret)
                 (set_switch_calls
                    (switch_calls st1 ++
                     [{| sc_rom_id := c_str rom_id; sc_boot_blockdev := p;
                         sc_blockdev_base_dirs := block_dev_base_dirs device;
                         sc_force := force |}]) st1))
          end
      end
  end.
Proof.
  unfold utilities_switch_rom. rewrite bind_run. unfold get_state. cbn [fst snd].
  destruct (devices_file st) as [file|]; [|reflexivity].
  rewrite bind_run. destruct (get_device file st).1 as [device|]; [|reflexivity].
  destruct (list_find _ _) as [[i p]|]; [|reflexivity].
  rewrite !bind_run. unfold call_switch_rom. cbn [fst snd].
  destruct (switch_rom _ _ _ _); reflexivity.
Qed.

(** X4: utilities_switch_rom succeeds exactly when a devices file is set,
    get_device finds the device in it, one of the device's boot candidates
    exists as a block device, and the switch engine, called with the first
    such candidate, answers Succeeded; every other outcome of the engine
    (Failed, ChecksumInvalid, ChecksumNotFound) gives false. *)
Theorem utilities_switch_rom_succeeds_iff rom_id force st :
  (utilities_switch_rom rom_id force st).1 = true ↔
  ∃ file device p,
    devices_file st = Some file ∧
    (get_device file st).1 = Some device ∧
    first_blockdev (boot_block_devs device) p ∧
    switch_rom (c_str rom_id) p (block_dev_base_dirs device) force = Succeeded.
Proof.
  rewrite utilities_switch_rom_run. split.
  - destruct (devices_file st) as [file|]; [|discriminate]. cbn zeta.
    destruct (get_device file st).1 as [device|] eqn:Hget; [|discriminate].
    pose proof (first_blockdev_find (boot_block_devs device)) as Hfind.
    destruct (list_find _ _) as [[i p]|]; [|discriminate].
    cbn [fst]. intros Hres. apply bool_decide_eq_true in Hres.
    exists file, device, p. auto.
  - intros (file & device & p & -> & Hget & Hp & Hret). cbn zeta. rewrite Hget.
    pose proof (first_blockdev_find (boot_block_devs device)) as Hfind.
    destruct (list_find _ _) as [[i q]|].
    + rewrite (first_blockdev_unique _ _ _ Hfind Hp). cbn [fst].
      apply bool_decide_eq_true. exact Hret.
    + exfalso. exact (Hfind p Hp).
Qed.

(** X5: utilities_switch_rom calls the switch engine at most once, and only
    with a candidate of the matched device that exists as a block device,
    the first one; when there is no devices file, no matching device or no
    such candidate, it makes no call and returns false.  It never changes
    the devices-file global or the archive, and only adds to the log. *)
Theorem utilities_switch_rom_calls rom_id force st :
  let res := utilities_switch_rom rom_id force st in
  devices_file res.2 = devices_file st ∧ _zf res.2 = _zf st ∧
  (∃ lines, log res.2 = log st ++ lines) ∧
  ((∃ file device p,
      devices_file st = Some file ∧ (get_device file st).1 = Some device ∧
      first_blockdev (boot_block_devs device) p ∧
      switch_calls res.2 =
        switch_calls st ++
        [{| sc_rom_id := c_str rom_id; sc_boot_blockdev := p;
            sc_blockdev_base_dirs := block_dev_base_dirs device;
            sc_force := force |}]) ∨
   (switch_calls res.2 = switch_calls st ∧ res.1 = false ∧
    ¬ ∃ file device p,
        devices_file st = Some file ∧ (get_device file st).1 = Some device ∧
        first_blockdev (boot_block_devs device) p)).
Proof.
  intros res. subst res. rewrite utilities_switch_rom_run.
  destruct (devices_file st) as [file|] eqn:Hfile.
  2:{ cbn. rewrite Hfile. repeat split; eauto. right. repeat split.
      intros (f & d & p & Hf & _). discriminate. }
  cbn zeta.
  destruct (logged_fields st _ (get_device_logged file st)) as (Hsc & Hdf & Hzf & lines & Hlog).
  destruct (get_device file st).1 as [device|] eqn:Hget.
  2:{ cbn. rewrite Hsc, Hdf, Hzf, Hlog, Hfile, <- app_assoc. repeat split; eauto.
      right. repeat split. intros (f & d & p & [= <-] & Hd & _). congruence. }
  pose proof (first_blockdev_find (boot_block_devs device)) as Hfind.
  destruct (list_find _ _) as [[i p]|].
  - cbn. rewrite Hsc, Hdf, Hzf, Hlog, Hfile, <- app_assoc. repeat split; eauto.
    left. exists file, device, p. auto.
  - cbn. rewrite Hsc, Hdf, Hzf, Hlog, Hfile, <- app_assoc. repeat split; eauto.
    right. repeat split. intros (f & d & p & [= <-] & Hd & Hp).
    assert (d = device) as -> by congruence. exact (Hfind p Hp).
Qed.

(** ** generate_aroma_config *)

(** X6: a template with no '@' and no tab passes through
    generate_aroma_config unchanged, whatever the installed ROMs, the
    version and the mount points are. *)
Theorem generate_aroma_config_plain_text (s : string) :
  AT ∉ chars s → TAB ∉ chars s →
  generate_aroma_config (list_byte_of_string s) = list_byte_of_string s.
Proof.
  intros Hat Htab.
  rewrite generate_aroma_config_substitute, string_of_list_byte_of_string.
  f_equal. unfold template_context, substitute. cbn [foldl fst snd].
  rewrite (replace_all_none TAB EmptyString _ s Htab).
  rewrite (replace_all_none AT _ version s Hat).
  rewrite (replace_all_none AT _ _ s Hat).
  rewrite (replace_all_none AT _ _ s Hat).
  rewrite (replace_all_none AT _ first_index s Hat).
  rewrite (replace_all_none AT _ _ s Hat).
  rewrite (replace_all_none AT _ get_system_partition s Hat).
  rewrite (replace_all_none AT _ get_cache_partition s Hat).
  rewrite (replace_all_none AT _ get_data_partition s Hat).
  rewrite (replace_all_none AT _ get_extsd_partition s Hat).
  reflexivity.
Qed.

Lemma chars_replace_all_from (c : ascii) (from to : string) (s : string) : ∀ skip,
  c ∈ chars (replace_all_from skip s from to) → c ∈ chars s ∨ c ∈ chars to.
Proof.
  induction s as [|x s IH]; intros skip Hin.
  - cbn in Hin. inversion Hin.
  - destruct skip as [|k].
    + rewrite replace_all_from_cons in Hin.
      destruct (String.prefix from (String x s)).
      * rewrite chars_append in Hin. apply elem_of_app in Hin as [Hin | Hin]; [auto|].
        apply IH in Hin as [Hin | Hin]; [|auto]. left. cbn [chars]. right. exact Hin.
      * cbn [chars] in Hin. apply elem_of_cons in Hin as [-> | Hin].
        -- left. cbn [chars]. left.
        -- apply IH in Hin as [Hin | Hin]; [|auto]. left. cbn [chars]. right. exact Hin.
    + cbn [replace_all_from] in Hin. apply IH in Hin as [Hin | Hin]; [|auto].
      left. cbn [chars]. right. exact Hin.
Qed.

Lemma chars_replace_all (c : ascii) (s from to : string) :
  c ∉ chars s → c ∉ chars to → c ∉ chars (replace_all s from to).
Proof.
  intros Hs Hto Hin. unfold replace_all in Hin.
  destruct (String.eqb from EmptyString); [contradiction|].
  apply chars_replace_all_from in Hin as [Hin | Hin]; contradiction.
Qed.

Lemma replace_all_tab_escaped (s : string) :
  TAB ∉ chars (replace_all s (chr TAB) "\t").
Proof.
  change (TAB ∉ chars (replace_all_from 0 s (chr TAB) "\t")).
  induction s as [|x s IH]; [apply not_elem_of_nil|].
  rewrite replace_all_from_cons. unfold chr at 1. rewrite prefix_cons.
  destruct (Ascii.eqb_spec TAB x) as [<- | Hne].
  - replace (String.prefix EmptyString s) with true by (destruct s; reflexivity).
    cbn [String.length Nat.sub]. rewrite chars_append. apply not_elem_of_app.
    split; [|exact IH]. cbn. unfold TAB.
    repeat (apply not_elem_of_cons; split; [discriminate|]). apply not_elem_of_nil.
  - cbn [chars]. apply not_elem_of_cons. split; [exact Hne | exact IH].
Qed.

Lemma chars_c_str (c : ascii) (s : string) : c ∈ chars (c_str s) → c ∈ chars s.
Proof.
  induction s as [|x s IH]; cbn [c_str chars]; [auto|].
  destruct (Ascii.eqb x NUL); cbn [chars]; intros Hin; [inversion Hin|].
  apply elem_of_cons in Hin as [-> | Hin]; [left | right; auto].
Qed.

Lemma decimal_of_N_no_tab (n : N) : TAB ∉ chars (decimal_of_N n).
Proof.
  intros Hin. apply decimal_of_N_plain in Hin. cbn in Hin. unfold TAB in Hin.
  repeat (apply elem_of_cons in Hin as [Hin | Hin]; [discriminate|]).
  inversion Hin.
Qed.

Ltac solve_no_tab :=
  unfold chr, TAB, DQUOTE, LF in *;
  repeat first [rewrite chars_append | progress cbn [chars]];
  repeat first
    [ assumption
    | discriminate
    | apply not_elem_of_nil
    | apply not_elem_of_app; split
    | apply not_elem_of_cons; split ].

Lemma menu_line_no_tab (name : string) : TAB ∉ chars name → TAB ∉ chars (menu_line name).
Proof. intros Hn. unfold menu_line. solve_no_tab. Qed.

Lemma selection_block_no_tab (index id name : string) :
  TAB ∉ chars index → TAB ∉ chars id → TAB ∉ chars name →
  TAB ∉ chars (selection_block index id name).
Proof. intros Hi Hd Hn. unfold selection_block. solve_no_tab. Qed.

Lemma rom_items_loop_no_tab (roms : list Rom) : ∀ (i : N) (menu sel : string),
  Forall (λ r, tab_free (rom_id r) ∧ tab_free (display_name r)) roms →
  tab_free menu → tab_free sel →
  tab_free (rom_items_loop i roms menu sel).1 ∧
  tab_free (rom_items_loop i roms menu sel).2.
Proof.
  unfold tab_free.
  induction roms as [|rom rest IH]; intros i menu sel Hall Hmenu Hsel; [auto|].
  apply Forall_cons in Hall as [[Hid Hname] Hrest]. unfold tab_free in Hid, Hname.
  cbn [rom_items_loop]. fold (display_name rom).
  rewrite format_menu_item, format_selection_item. apply IH; [exact Hrest | |].
  - rewrite chars_append. apply not_elem_of_app. split; [exact Hmenu|].
    apply menu_line_no_tab. intros Hin. apply Hname, chars_c_str, Hin.
  - rewrite chars_append. apply not_elem_of_app. split; [exact Hsel|].
    apply selection_block_no_tab.
    + apply decimal_of_N_no_tab.
    + intros Hin. apply Hid, chars_c_str, Hin.
    + intros Hin. apply Hname, chars_c_str, Hin.
Qed.

Lemma replace_all_tab (s : string) :
  replace_all s (chr TAB) "\t" = escape_tabs s.
Proof.
  change (replace_all_from 0 s (chr TAB) "\t" = escape_tabs s).
  induction s as [|x s IH]; [reflexivity|].
  rewrite replace_all_from_cons. unfold chr at 1. rewrite prefix_cons.
  cbn [escape_tabs]. rewrite (Ascii.eqb_sym x TAB).
  destruct (Ascii.eqb TAB x).
  - replace (String.prefix EmptyString s) with true by (destruct s; reflexivity).
    cbn [andb]. change (String.length (chr TAB) - 1)%nat with 0%nat.
    rewrite IH. reflexivity.
  - cbn [andb]. rewrite IH. reflexivity.
Qed.

Lemma escape_tabs_no_at (s : string) : AT ∉ chars s → AT ∉ chars (escape_tabs s).
Proof.
  induction s as [|x s IH]; intros Hs; [exact Hs|].
  cbn [chars] in Hs. apply not_elem_of_cons in Hs as [Hx Hs]. cbn [escape_tabs].
  destruct (Ascii.eqb x TAB); cbn [chars].
  - apply not_elem_of_cons. split; [discriminate|].
    apply not_elem_of_cons. split; [discriminate | apply IH, Hs].
  - apply not_elem_of_cons. split; [exact Hx | apply IH, Hs].
Qed.

Lemma generate_aroma_config_tab_free (data : list byte) :
  tab_free version →
  tab_free get_system_partition → tab_free get_cache_partition →
  tab_free get_data_partition → tab_free get_extsd_partition →
  Forall (λ r, tab_free (rom_id r) ∧ tab_free (display_name r)) installed_roms →
  tab_free (string_of_list_byte (generate_aroma_config data)).
Proof.
  unfold tab_free. intros Hv Hsys Hcache Hdata Hext Hroms.
  rewrite generate_aroma_config_substitute, string_of_list_byte_of_string.
  destruct (rom_items_loop_no_tab installed_roms 0 EmptyString EmptyString Hroms)
    as [Hmenu Hsel]; try apply not_elem_of_nil.
  unfold template_context, substitute. cbn [foldl fst snd].
  repeat match goal with
         | |- _ ∉ chars (replace_all (replace_all _ _ _) _ _) =>
             apply chars_replace_all; [|try assumption]
         end.
  - apply replace_all_tab_escaped.
  - rewrite first_index_3. solve_no_tab.
  - unfold last_index. cbn -[decimal_of_N size_add size_t_wrap].
    rewrite append_nil_r. apply decimal_of_N_no_tab.
Qed.

(** X7: generate_aroma_config escapes every tab of the template before it
    expands the placeholders: its output is the placeholder substitution
    applied to the template in which each tab is written as the two
    characters backslash and t.  So a template without '@' comes out as
    that escaped template, and when the version, the mount points and the
    ids and names of the installed ROMs hold no tab, the output holds
    none, whatever the template. *)
Theorem generate_aroma_config_tabs_escaped (data : list byte) :
  let template := string_of_list_byte data in
  let out := string_of_list_byte (generate_aroma_config data) in
  out = substitute (escape_tabs template) placeholders ∧
  (AT ∉ chars template → out = escape_tabs template) ∧
  (tab_free version →
   tab_free get_system_partition → tab_free get_cache_partition →
   tab_free get_data_partition → tab_free get_extsd_partition →
   Forall (λ r, tab_free (rom_id r) ∧ tab_free (display_name r)) installed_roms →
   tab_free out).
Proof.
  intros template out.
  assert (Hout : out = substitute (escape_tabs template) placeholders).
  { subst out template.
    rewrite generate_aroma_config_substitute, string_of_list_byte_of_string.
    unfold substitute, placeholders, template_context. cbn [foldl fst snd tail].
    rewrite replace_all_tab. reflexivity. }
  split; [exact Hout|]. split.
  - intros Hat. rewrite Hout. apply escape_tabs_no_at in Hat.
    unfold substitute, placeholders, template_context. cbn [foldl fst snd tail].
    set (t := escape_tabs template) in *.
    rewrite (replace_all_none AT _ version t Hat).
    rewrite (replace_all_none AT _ _ t Hat).
    rewrite (replace_all_none AT _ _ t Hat).
    rewrite (replace_all_none AT _ first_index t Hat).
    rewrite (replace_all_none AT _ _ t Hat).
    rewrite (replace_all_none AT _ get_system_partition t Hat).
    rewrite (replace_all_none AT _ get_cache_partition t Hat).
    rewrite (replace_all_none AT _ get_data_partition t Hat).
    rewrite (replace_all_none AT _ get_extsd_partition t Hat).
    reflexivity.
  - apply generate_aroma_config_tab_free.
Qed.

(** ** The archive, entry by entry *)

Section archive_count.
Variable P : zip_entry → Prop.
Hypothesis P_append : ∀ e buf, P e → P (append_data e buf).
Variable zf0 : zipFile.

Lemma at_rest_appended n st : at_rest zf0 st → appended P n zf0 st.
Proof.
  intros (zf & Hzf & Hent & Hcur & Hcl). exists zf, [].
  rewrite app_nil_r. repeat split; try assumption; [cbn; lia | constructor].
Qed.

Lemma at_rest_log lvl msg st : at_rest zf0 st → at_rest zf0 (add_log lvl msg st).
Proof. intros H. exact H. Qed.

Lemma writing_log lvl msg st : writing P zf0 st → writing P zf0 (add_log lvl msg st).
Proof. intros H. exact H. Qed.

Lemma appended_log n lvl msg st :
  appended P n zf0 st → appended P n zf0 (add_log lvl msg st).
Proof. intros H. exact H. Qed.

Lemma wp_open_at_rest filename zipfi method level raw zip64 (Q : Z → State → Prop) st :
  P {| ze_filename := filename; ze_zipfi := zipfi; ze_method := method;
       ze_level := level; ze_raw := raw; ze_zip64 := zip64; ze_data := [] |} →
  at_rest zf0 st →
  (∀ rc st', rc ≠ ZIP_OK → at_rest zf0 st' → Q rc st') →
  (∀ st', writing P zf0 st' → Q ZIP_OK st') →
  wp (zipOpenNewFileInZip2_64 filename zipfi method level raw zip64) Q st.
Proof.
  intros Hnew (zf & Hzf & Hent & Hcur & Hcl) Hfail Hok.
  apply wp_on_zf; [|congruence]. intros zf' Hzf'.
  assert (zf' = zf) as -> by congruence. unfold zipOpenNewFileInZip2_64_on.
  destruct (zipOpenNewFileInZip_rc zf filename =? ZIP_OK) eqn:Hrc; cbn [fst snd].
  - apply Z.eqb_eq in Hrc. rewrite Hrc. apply Hok. eexists _, _.
    split; [reflexivity|]. cbn [zf_entries zf_current zf_closed]. unfold open_entries.
    rewrite Hcur. cbn. rewrite app_nil_r. auto.
  - apply Z.eqb_neq in Hrc. apply Hfail; [exact Hrc|]. exists zf. auto.
Qed.

Lemma wp_write_writing buf len (Q : Z → State → Prop) st :
  writing P zf0 st →
  (∀ rc st', writing P zf0 st' → Q rc st') →
  wp (zipWriteInFileInZip buf len) Q st.
Proof.
  intros (zf & e & Hzf & Hent & Hcur & Hcl & He) HQ.
  apply wp_on_zf; [|congruence]. intros zf' Hzf'.
  assert (zf' = zf) as -> by congruence. apply HQ. unfold zipWriteInFileInZip_on.
  rewrite Hcur. destruct (_ =? ZIP_OK); cbn [snd].
  - eexists _, _. split; [reflexivity|]. cbn. auto.
  - exists zf, e. auto.
Qed.

Lemma wp_close_writing (Q : Z → State → Prop) st :
  writing P zf0 st →
  (∀ rc st', appended P 1 zf0 st' → Q rc st') →
  wp zipCloseFileInZip Q st.
Proof.
  intros (zf & e & Hzf & Hent & Hcur & Hcl & He) HQ.
  apply wp_on_zf; [|congruence]. intros zf' Hzf'.
  assert (zf' = zf) as -> by congruence. apply HQ. unfold zipCloseFileInZip_on.
  rewrite Hcur. cbn [snd]. eexists _, _. split; [reflexivity|].
  cbn [zf_entries zf_current zf_closed]. rewrite Hent.
  split; [reflexivity|]. split; [reflexivity|]. split; [exact Hcl|].
  destruct (_ =? ZIP_OK); cbn; split; auto.
Qed.

Lemma add_file_contents_appended name contents st :
  (∀ zip64, P {| ze_filename := c_str name; ze_zipfi := zip_fileinfo_zero;
                 ze_method := Z_DEFLATED; ze_level := Z_DEFAULT_COMPRESSION;
                 ze_raw := 0; ze_zip64 := zip64; ze_data := [] |}) →
  at_rest zf0 st →
  wp (add_file_contents name contents) (λ _ st', appended P 1 zf0 st') st.
Proof.
  intros Hnew Hst. unfold add_file_contents. apply wp_bind.
  apply wp_open_at_rest; [apply Hnew | exact Hst | |].
  - intros rc st' Hrc Hst'. apply Z.eqb_neq in Hrc. rewrite Hrc. cbn [negb].
    apply wp_bind, wp_LOG, wp_ret, appended_log, at_rest_appended. exact Hst'.
  - intros st' Hst'. cbn [negb Z.eqb ZIP_OK]. apply wp_bind.
    apply wp_write_writing; [exact Hst'|]. intros rc st2 Hst2.
    destruct (negb (rc =? ZIP_OK)).
    + apply wp_bind, wp_LOG, wp_bind.
      apply wp_close_writing; [apply writing_log; exact Hst2|].
      intros rc' st3 Hst3. apply wp_ret. exact Hst3.
    + apply wp_bind. apply wp_close_writing; [exact Hst2|].
      intros rc' st3 Hst3. apply wp_ret. exact Hst3.
Qed.

Lemma add_file_copy_appended path reads : ∀ st,
  writing P zf0 st →
  wp (add_file_copy reads path) (λ _ st', appended P 1 zf0 st') st.
Proof.
  induction reads as [|r rest IH]; intros st Hst.
  - cbn [add_file_copy]. apply wp_bind. apply wp_close_writing; [exact Hst|].
    intros rc st' Hst'. apply wp_ret. exact Hst'.
  - destruct r as [buf | e]; cbn [add_file_copy].
    + destruct (Z.of_nat (length buf) >? 0).
      * apply wp_bind. apply wp_write_writing; [exact Hst|].
        intros rc st2 Hst2. destruct (negb (rc =? ZIP_OK)).
        -- apply wp_bind, wp_LOG, wp_bind.
           apply wp_close_writing; [apply writing_log; exact Hst2|].
           intros rc' st3 Hst3. apply wp_ret. exact Hst3.
        -- apply IH. exact Hst2.
      * apply wp_bind. apply wp_close_writing; [exact Hst|].
        intros rc st' Hst'. apply wp_ret. exact Hst'.
    + apply wp_bind. apply wp_close_writing; [exact Hst|].
      intros rc st' Hst'. apply wp_bind, wp_LOG, wp_ret, appended_log. exact Hst'.
Qed.

Lemma add_file_path_appended name path st :
  (∀ zi zip64,
     P {| ze_filename := c_str name; ze_zipfi := zi;
          ze_method := Z_DEFLATED; ze_level := Z_DEFAULT_COMPRESSION;
          ze_raw := 0; ze_zip64 := zip64; ze_data := [] |}) →
  at_rest zf0 st →
  wp (add_file_path name path) (λ _ st', appended P 1 zf0 st') st.
Proof.
  intros Hnew Hst. unfold add_file_path.
  destruct (open64 (c_str path)) as [fd | e].
  2:{ apply wp_bind, wp_LOG, wp_ret, appended_log, at_rest_appended. exact Hst. }
  destruct (fh_fstat fd) as [sb | e].
  2:{ apply wp_bind, wp_LOG, wp_ret, appended_log, at_rest_appended. exact Hst. }
  destruct (match fh_size fd with IoOk n => (n, 0) | IoErr e => (-1, e) end)
    as [size e].
  destruct (size <? 0).
  { apply wp_bind, wp_LOG, wp_ret, appended_log, at_rest_appended. exact Hst. }
  apply wp_bind.
  apply wp_open_at_rest; [apply Hnew | exact Hst | |].
  - intros rc st' Hrc Hst'. apply Z.eqb_neq in Hrc. rewrite Hrc. cbn [negb].
    apply wp_bind, wp_LOG, wp_ret, appended_log, at_rest_appended. exact Hst'.
  - intros st' Hst'. cbn [negb Z.eqb ZIP_OK]. apply add_file_copy_appended. exact Hst'.
Qed.

Lemma on_reached_file_appended gen e st :
  (∀ name zi zip64,
     entry_name gen e = Some name →
     P {| ze_filename := stored_name name; ze_zipfi := zi;
          ze_method := Z_DEFLATED; ze_level := Z_DEFAULT_COMPRESSION;
          ze_raw := 0; ze_zip64 := zip64; ze_data := [] |}) →
  at_rest zf0 st →
  wp (on_reached_file gen e) (λ _ st', appended P 1 zf0 st') st.
Proof.
  intros Hnew Hst. unfold on_reached_file.
  destruct (entry_name gen e) as [name|] eqn:Hname.
  2:{ apply wp_ret, at_rest_appended. exact Hst. }
  apply wp_bind, wp_LOG.
  specialize (Hnew name). unfold stored_name in Hnew.
  destruct (String.eqb_spec name aroma_config_in) as [-> | Hne].
  - destruct (file_read_all _) as [data | err].
    + apply wp_bind.
      apply (wp_mono _ (λ _ st', appended P 1 zf0 st')); [intros a st' H; exact H|].
      apply add_file_contents_appended; [|apply at_rest_log; exact Hst].
      intros zip64. apply Hnew. reflexivity.
    + apply wp_bind, wp_LOG, wp_ret. do 2 apply appended_log.
      apply at_rest_appended. exact Hst.
  - apply wp_bind.
    apply (wp_mono _ (λ _ st', appended P 1 zf0 st')); [intros a st' H; exact H|].
    apply add_file_path_appended; [|apply at_rest_log; exact Hst].
    intros zi zip64. rewrite (entry_name_c_str gen e name Hname). apply Hnew. reflexivity.
Qed.

End archive_count.

Lemma at_rest_start st zf : _zf st = Some zf → zf_current zf = None → at_rest zf st.
Proof. intros Hzf Hcur. exists zf. auto. Qed.

(** X8: on_reached_file only appends to the archive: the entries that were
    there stay, in their order, at most one entry is added after them, it
    is stored under the name computed for the file (the control file under
    its output name), no entry is left open, and the archive is not
    closed. *)
Theorem on_reached_file_appends gen e st zf :
  _zf st = Some zf → zf_current zf = None →
  ∃ zf' new,
    _zf (on_reached_file gen e st).2 = Some zf' ∧
    zf_entries zf' = zf_entries zf ++ new ∧
    (length new ≤ 1)%nat ∧
    Forall (λ en, ∃ name, entry_name gen e = Some name ∧
                          ze_filename en = stored_name name) new ∧
    zf_current zf' = None ∧ zf_closed zf' = zf_closed zf.
Proof.
  intros Hzf Hcur.
  destruct (on_reached_file_appended
              (λ en, ∃ name, entry_name gen e = Some name ∧
                             ze_filename en = stored_name name)
              (λ en buf H, H) zf gen e st)
    as (zf' & new & H1 & H2 & H3 & H4 & H5 & H6).
  - intros name zi zip64 Hname. exists name. auto.
  - apply at_rest_start; assumption.
  - exists zf', new. auto 10.
Qed.

(** ** Reads that end early *)

Section archive_reads.
Hypothesis io_ok : zip_entry_io_ok.


End archive_reads.



(** ** The archive along the walk *)

Lemma appended_step P n m zf0 st st' :
  appended P n zf0 st →
  (∀ zf1, at_rest zf1 st → appended P m zf1 st') →
  appended P (n + m) zf0 st'.
Proof.
  intros (zf & new & Hzf & Hent & Hcur & Hcl & Hlen & Hall) Hstep.
  destruct (Hstep zf) as (zf' & new' & Hzf' & Hent' & Hcur' & Hcl' & Hlen' & Hall').
  { exists zf. auto. }
  exists zf', (new ++ new'). rewrite Hent', Hent, <- app_assoc, length_app.
  split; [exact Hzf'|]. split; [reflexivity|]. split; [exact Hcur'|].
  split; [congruence|]. split; [lia|]. apply Forall_app. auto.
Qed.

Lemma appended_weaken P n m zf0 st :
  (n ≤ m)%nat → appended P n zf0 st → appended P m zf0 st.
Proof.
  intros Hle (zf & new & Hzf & Hent & Hcur & Hcl & Hlen & Hall).
  exists zf, new. repeat split; try assumption. lia.
Qed.

Lemma regular_files_cons e rest :
  regular_files (e :: rest) =
  if decide (fts_info e = RegularFile) then e :: regular_files rest
  else regular_files rest.
Proof. reflexivity. Qed.

Lemma on_entry_appended gen e tree zf1 st :
  e ∈ tree → at_rest zf1 st →
  appended (entry_of_tree gen tree) (length (regular_files [e])) zf1 (on_entry gen e st).2.
Proof.
  intros Hin Hst. unfold on_entry. rewrite regular_files_cons.
  destruct (fts_info e) eqn:Hkind; cbn [decide].
  - apply at_rest_appended. exact Hst.
  - destruct (decide (RegularFile = RegularFile)) as [_|Hne]; [|congruence].
    apply (on_reached_file_appended (entry_of_tree gen tree)
             (λ en buf H, H) zf1 gen e st); [|exact Hst].
    intros name zi zip64 Hname. exists e, name.
    split; [|split; [exact Hname | reflexivity]].
    unfold regular_files. apply list_elem_of_filter. split; [exact Hkind | exact Hin].
  - destruct (decide (Symlink = RegularFile)) as [Heq|_]; [discriminate|].
    apply at_rest_appended. exact Hst.
  - destruct (decide (SpecialFile = RegularFile)) as [Heq|_]; [discriminate|].
    apply at_rest_appended. exact Hst.
Qed.

Lemma traverse_appended stop_on_fail gen tree part : ∀ success st n zf0,
  part ⊆ tree →
  appended (entry_of_tree gen tree) n zf0 st →
  appended (entry_of_tree gen tree) (n + length (regular_files part)) zf0
           (traverse stop_on_fail gen part success st).2.
Proof.
  induction part as [|e rest IH]; intros success st n zf0 Hsub Hst.
  - cbn. eapply appended_weaken; [|exact Hst]. lia.
  - assert (He : e ∈ tree) by (apply Hsub; left).
    assert (Hrest : rest ⊆ tree) by (intros x Hx; apply Hsub; right; exact Hx).
    assert (Hstep : appended (entry_of_tree gen tree)
                      (n + length (regular_files [e])) zf0 (on_entry gen e st).2).
    { eapply appended_step; [exact Hst|]. intros zf1 Hzf1.
      apply on_entry_appended; assumption. }
    assert (Hlen : length (regular_files (e :: rest)) =
                   (length (regular_files [e]) + length (regular_files rest))%nat).
    { rewrite !regular_files_cons. destruct (decide _); reflexivity. }
    rewrite traverse_cons, Hlen, Nat.add_assoc.
    destruct (on_entry gen e st).1 as [[|]|].
    + apply IH; assumption.
    + destruct stop_on_fail.
      * cbn [snd]. eapply appended_weaken; [|exact Hstep]. lia.
      * apply IH; assumption.
    + cbn [snd]. eapply appended_weaken; [|exact Hstep]. lia.
Qed.

(** X11: the archive that run leaves, once it could be opened, holds at
    most one entry for each regular file of the walk and none for anything
    else: every entry is stored under the name computed for a regular file
    of the walk (the control file under its output name), there are at
    most as many entries as regular files, and no entry is left open. *)
Theorem run_archive_entries stop_on_fail gen tree st :
  zipOpen2_64_ok (c_str (_zippath gen)) = true →
  ∃ zf,
    _zf (run stop_on_fail gen tree st).2 = Some zf ∧
    (length (zf_entries zf) ≤ length (regular_files tree))%nat ∧
    Forall (entry_of_tree gen tree) (zf_entries zf) ∧
    zf_current zf = None.
Proof.
  intros Hopen. rewrite (run_opened stop_on_fail gen tree st Hopen).
  rewrite (on_pre_execute_ok gen st Hopen). cbn [snd].
  set (zf0 := {| zf_entries := []; zf_current := None; zf_closed := false |}).
  destruct (traverse_appended stop_on_fail gen tree tree true
              (set_zf (Some zf0) st) 0 zf0)
    as (zf & new & Hzf & Hent & Hcur & Hcl & Hlen & Hall).
  { intros x Hx. exact Hx. }
  { apply at_rest_appended. exists zf0. auto. }
  cbn [zf_entries zf0 app] in Hent.
  destruct (traverse stop_on_fail gen tree true (set_zf (Some zf0) st))
    as [[success|] stT]; cbn [snd] in Hzf |- *.
  - unfold zipClose, on_zf. rewrite Hzf. cbn [snd fst _zf set_zf].
    eexists. split; [reflexivity|]. unfold zipClose_on. cbn [zf_entries zf_current].
    rewrite Hcur, Hent. auto.
  - exists zf. rewrite Hent. auto.
Qed.

(** ** What the archive code leaves alone *)

Section kept.
Variable R : State → Prop.
Hypothesis R_log : ∀ l st, R st → R (set_log l st).
Hypothesis R_zf : ∀ z st, R st → R (set_zf z st).

Lemma keeps_ret {A} (a : A) : keeps R (mret a).
Proof. intros st H. exact H. Qed.

Lemma keeps_bind {A B} (m : M A) (f : A → M B) :
  keeps R m → (∀ a, keeps R (f a)) → keeps R (m ≫= f).
Proof. intros Hm Hf st H. rewrite bind_run. apply Hf, Hm, H. Qed.

Lemma keeps_LOG lvl fmt args : keeps R (LOG lvl fmt args).
Proof. intros st H. apply R_log. exact H. Qed.

Lemma keeps_on_zf call : keeps R (on_zf call).
Proof.
  intros st H. unfold on_zf. destruct (_zf st); [apply R_zf|]; exact H.
Qed.

Lemma keeps_add_file_contents name contents : keeps R (add_file_contents name contents).
Proof.
  unfold add_file_contents. apply keeps_bind; [apply keeps_on_zf|]. intros rc.
  destruct (negb _).
  { apply keeps_bind; [apply keeps_LOG | intros; apply keeps_ret]. }
  apply keeps_bind; [apply keeps_on_zf|]. intros rc'.
  destruct (negb _).
  - apply keeps_bind; [apply keeps_LOG | intros].
    apply keeps_bind; [apply keeps_on_zf | intros; apply keeps_ret].
  - apply keeps_bind; [apply keeps_on_zf | intros; apply keeps_ret].
Qed.

Lemma keeps_add_file_copy path reads : keeps R (add_file_copy reads path).
Proof.
  induction reads as [|r rest IH]; cbn [add_file_copy].
  - apply keeps_bind; [apply keeps_on_zf | intros; apply keeps_ret].
  - destruct r as [buf | err].
    + destruct (_ >? 0).
      * apply keeps_bind; [apply keeps_on_zf|]. intros rc. destruct (negb _); [|exact IH].
        apply keeps_bind; [apply keeps_LOG | intros].
        apply keeps_bind; [apply keeps_on_zf | intros; apply keeps_ret].
      * apply keeps_bind; [apply keeps_on_zf | intros; apply keeps_ret].
    + apply keeps_bind; [apply keeps_on_zf | intros].
      apply keeps_bind; [apply keeps_LOG | intros; apply keeps_ret].
Qed.

Lemma keeps_add_file_path name path : keeps R (add_file_path name path).
Proof.
  unfold add_file_path.
  destruct (open64 _) as [fd | err].
  2:{ apply keeps_bind; [apply keeps_LOG | intros; apply keeps_ret]. }
  destruct (fh_fstat fd) as [sb | err].
  2:{ apply keeps_bind; [apply keeps_LOG | intros; apply keeps_ret]. }
  destruct (match fh_size fd with IoOk n => (n, 0) | IoErr e => (-1, e) end)
    as [size e].
  destruct (size <? 0).
  { apply keeps_bind; [apply keeps_LOG | intros; apply keeps_ret]. }
  apply keeps_bind; [apply keeps_on_zf|]. intros rc. destruct (negb _).
  - apply keeps_bind; [apply keeps_LOG | intros; apply keeps_ret].
  - apply keeps_add_file_copy.
Qed.

Lemma keeps_on_reached_file gen e : keeps R (on_reached_file gen e).
Proof.
  unfold on_reached_file. destruct (entry_name gen e) as [name|]; [|apply keeps_ret].
  apply keeps_bind; [apply keeps_LOG | intros _].
  destruct (String.eqb name aroma_config_in).
  - destruct (file_read_all _).
    + apply keeps_bind; [apply keeps_add_file_contents | intros; apply keeps_ret].
    + apply keeps_bind; [apply keeps_LOG | intros; apply keeps_ret].
  - apply keeps_bind; [apply keeps_add_file_path | intros; apply keeps_ret].
Qed.

Lemma keeps_on_entry gen e : keeps R (on_entry gen e).
Proof.
  unfold on_entry, on_reached_symlink, on_reached_special_file. destruct (fts_info e).
  - apply keeps_ret.
  - apply keeps_on_reached_file.
  - apply keeps_bind; [|intros; apply keeps_ret].
    apply keeps_bind; [apply keeps_LOG | intros; apply keeps_ret].
  - apply keeps_bind; [|intros; apply keeps_ret].
    apply keeps_bind; [apply keeps_LOG | intros; apply keeps_ret].
Qed.

Lemma keeps_traverse stop_on_fail gen tree : ∀ success,
  keeps R (traverse stop_on_fail gen tree success).
Proof.
  induction tree as [|e rest IH]; intros success; cbn [traverse]; [apply keeps_ret|].
  apply keeps_bind; [apply keeps_on_entry|]. intros [[|]|]; [apply IH | | apply keeps_ret].
  destruct stop_on_fail; [apply keeps_ret | apply IH].
Qed.

Lemma keeps_run stop_on_fail gen tree : keeps R (run stop_on_fail gen tree).
Proof.
  unfold run. apply keeps_bind.
  { intros st H. unfold on_pre_execute. destruct (zipOpen2_64_ok _); cbn [snd].
    - apply R_zf. exact H.
    - apply R_log, R_zf. exact H. }
  intros opened. destruct (negb opened); [apply keeps_ret|].
  apply keeps_bind; [apply keeps_traverse|]. intros [success|]; [|apply keeps_ret].
  apply keeps_bind; [|intros; apply keeps_ret].
  unfold on_post_execute. apply keeps_bind; [apply keeps_on_zf | intros; apply keeps_ret].
Qed.

End kept.

End utilities_more_facts.

(** * The command line entry point *)

Section utilities_main_facts.
Context {Device : Type} `{!Externals Device} `{!Tools}.

Lemma bind_run_P {A B} (m : MP A) (f : A → MP B) p :
  (m ≫= f) p = f (m p).1 (m p).2.
Proof. reflexivity. Qed.

Lemma arg_0 a rest : arg (a :: rest) 0 = a.
Proof. reflexivity. Qed.

Lemma arg_1 a b rest : arg (a :: b :: rest) 1 = b.
Proof. reflexivity. Qed.

Lemma arg_2 a b c rest : arg (a :: b :: c :: rest) 2 = c.
Proof. reflexivity. Qed.

Lemma options_applied_nil p : options_applied [] p = p.
Proof. destruct p as [[] ? ?]. reflexivity. Qed.

Lemma options_applied_cons r rest p :
  options_applied (r :: rest) p =
  options_applied rest
    (if Ascii.eqb (opt r) "d" then (assign_devices_file (optarg r) p).2 else p).
Proof.
  unfold options_applied, chosen_devices_file. cbn [foldl].
  destruct (Ascii.eqb (opt r) "d"); reflexivity.
Qed.

Lemma options_applied_fields results p :
  wipe_calls (options_applied results p) = wipe_calls p ∧
  printed (options_applied results p) = printed p ∧
  log (proc_state (options_applied results p)) = log (proc_state p) ∧
  switch_calls (proc_state (options_applied results p)) = switch_calls (proc_state p) ∧
  _zf (proc_state (options_applied results p)) = _zf (proc_state p) ∧
  devices_file (proc_state (options_applied results p)) =
    chosen_devices_file results (devices_file (proc_state p)).
Proof. repeat split. Qed.

Lemma passes_dec r : passes r ∨ ¬ passes r.
Proof.
  unfold passes. destruct (Ascii.eqb_spec (opt r) "f"); [auto|].
  destruct (Ascii.eqb_spec (opt r) "d"); [auto|]. right. intros [?|?]; contradiction.
Qed.

(** The option loop when every option is -f or -d. *)
Lemma parse_options_passes results : ∀ force p,
  Forall passes results →
  parse_options results force p =
  (inr (force || forced results), options_applied results p).
Proof.
  induction results as [|r rest IH]; intros force p Hall.
  - cbn. rewrite orb_false_r, options_applied_nil. reflexivity.
  - apply Forall_cons in Hall as [Hr Hrest]. cbn [parse_options forced existsb].
    rewrite options_applied_cons.
    destruct (Ascii.eqb_spec (opt r) "f") as [Hf | Hf].
    + rewrite Hf. cbn [Ascii.eqb Bool.eqb]. rewrite (IH true p Hrest).
      cbn [orb]. rewrite orb_true_r. reflexivity.
    + destruct Hr as [Hr | Hr]; [contradiction|]. rewrite Hr. cbn [Ascii.eqb Bool.eqb].
      rewrite bind_run_P. rewrite (IH force _ Hrest). reflexivity.
Qed.

(** The option loop at the first option that is neither. *)
Lemma parse_options_stops pre r post : ∀ force p,
  Forall passes pre → ¬ passes r →
  parse_options (pre ++ r :: post) force p =
  if Ascii.eqb (opt r) "h" then
    (inl EXIT_SUCCESS, (utilities_usage false (options_applied pre p)).2)
  else
    (inl EXIT_FAILURE,
     (utilities_usage true
        (fprintf Stderr (diagnostic r) (options_applied pre p)).2).2).
Proof.
  induction pre as [|q pre IH]; intros force p Hall Hr.
  - rewrite options_applied_nil. cbn [app parse_options].
    destruct (Ascii.eqb_spec (opt r) "f") as [Hf | _]; [exfalso; apply Hr; left; exact Hf|].
    destruct (Ascii.eqb_spec (opt r) "d") as [Hd | _]; [exfalso; apply Hr; right; exact Hd|].
    destruct (Ascii.eqb (opt r) "h"); reflexivity.
  - apply Forall_cons in Hall as [Hq Hpre]. rewrite <- app_comm_cons.
    cbn [parse_options]. rewrite options_applied_cons.
    destruct (Ascii.eqb_spec (opt q) "f") as [Hf | Hf].
    + rewrite Hf. cbn [Ascii.eqb Bool.eqb]. apply IH; assumption.
    + destruct Hq as [Hq | Hq]; [contradiction|]. rewrite Hq. cbn [Ascii.eqb Bool.eqb].
      rewrite bind_run_P. apply IH; assumption.
Qed.

(** The options split at the first one that is neither -f nor -d. *)
Lemma options_split results :
  Forall passes results ∨
  ∃ pre r post, results = pre ++ r :: post ∧ Forall passes pre ∧ ¬ passes r.
Proof.
  induction results as [|q rest IH]; [left; constructor|].
  destruct (passes_dec q) as [Hq | Hq].
  - destruct IH as [Hall | (pre & r & post & -> & Hpre & Hr)].
    + left. constructor; assumption.
    + right. exists (q :: pre), r, post. split; [reflexivity|].
      split; [constructor; assumption | exact Hr].
  - right. exists [], q, rest. split; [reflexivity|]. split; [constructor | exact Hq].
Qed.

(** X12: the first option that is neither -f/--force nor -d/--devices ends
    the program at once: -h/--help prints the usage text on stdout and
    exits with success; for anything else (an option getopt_long does not
    know, a missing argument) stderr holds the diagnostic of getopt_long
    followed by the usage text, and the program exits with failure.  The
    options after it and the arguments are never looked at: no action
    runs, even when the arguments name one. *)
Theorem utilities_main_option_ends pre r post args p :
  Forall passes pre → ¬ passes r →
  let help := Ascii.eqb (opt r) "h" in
  let res := utilities_main (pre ++ r :: post) args p in
  res.1 = Some (if help then EXIT_SUCCESS else EXIT_FAILURE) ∧
  printed res.2 =
    printed p ++
    (if help then [(Stdout, usage_text)]
     else [(Stderr, diagnostic r); (Stderr, usage_text)]) ∧
  wipe_calls res.2 = wipe_calls p ∧
  switch_calls (proc_state res.2) = switch_calls (proc_state p) ∧
  log (proc_state res.2) = log (proc_state p) ∧
  _zf (proc_state res.2) = _zf (proc_state p).
Proof.
  intros Hpre Hr help res. subst res. unfold utilities_main.
  rewrite bind_run_P, (parse_options_stops pre r post false p Hpre Hr).
  fold help. destruct help; cbn [fst snd].
  - repeat split.
  - cbn. rewrite <- app_assoc. repeat split.
Qed.

(** utilities_main on arguments that fit no action. *)
Lemma utilities_main_usage results args p :
  Forall passes results → usage_error (forced results) args →
  utilities_main results args p =
  (Some EXIT_FAILURE, (fprintf Stderr usage_text (options_applied results p)).2).
Proof.
  intros Hall Herr. unfold utilities_main.
  rewrite bind_run_P, (parse_options_passes results false p Hall). cbn [fst snd orb].
  destruct args as [|a0 rest]; [reflexivity|].
  cbn [usage_error] in Herr. rewrite arg_0.
  assert (H0 : (length (a0 :: rest) =? 0)%nat = false) by reflexivity. rewrite H0.
  set (n := length (a0 :: rest)) in *.
  destruct Herr as [[Hgen Hlen] | [[Hgen Hlen] | [Hforce Hsw]]].
  - rewrite Hgen, String.eqb_refl. apply Nat.eqb_neq in Hlen. rewrite Hlen. reflexivity.
  - apply String.eqb_neq in Hgen. rewrite Hgen.
    apply Nat.eqb_neq in Hlen. rewrite Hlen. reflexivity.
  - apply String.eqb_neq in Hsw. rewrite Hforce, Hsw.
    destruct (_ || _); reflexivity.
Qed.

(** X13: when the options are all -f or -d and the arguments fit no
    action (there is none; generate does not come with two more, or
    another first argument does not come with one more; --force comes
    with an action other than switch), utilities_main prints the usage
    text on stderr and exits with failure, and nothing else happens
    beyond the devices file being set by -d. *)
Theorem utilities_main_usage_error results args p :
  Forall passes results → usage_error (forced results) args →
  utilities_main results args p =
  (Some EXIT_FAILURE, (fprintf Stderr usage_text (options_applied results p)).2).
Proof. apply utilities_main_usage. Qed.

(** utilities_main once the options are read, for an action with one
    argument. *)
Lemma utilities_main_one_argument results a0 id p :
  Forall passes results → c_str a0 ≠ "generate" →
  (forced results = true → c_str a0 = "switch") →
  utilities_main results [a0; id] p =
  (let action := c_str a0 in
   ret ← (if String.eqb action "switch" then
            r ← lift (utilities_switch_rom id (forced results)); mret (Some r)
          else if String.eqb action "wipe-system" then
            r ← utilities_wipe_system id; mret (Some r)
          else if String.eqb action "wipe-cache" then
            r ← utilities_wipe_cache id; mret (Some r)
          else if String.eqb action "wipe-data" then
            r ← utilities_wipe_data id; mret (Some r)
          else if String.eqb action "wipe-dalvik-cache" then
            r ← utilities_wipe_dalvik_cache id; mret (Some r)
          else if String.eqb action "wipe-multiboot" then
            r ← utilities_wipe_multiboot id; mret (Some r)
          else
            lift (LOGE "Unknown action: %s" [FmtStr action]);;
            mret (Some false));
   mret (option_map (λ b : bool, if b then EXIT_SUCCESS else EXIT_FAILURE) ret))
    (options_applied results p).
Proof.
  intros Hall Hgen Hforce. unfold utilities_main.
  rewrite bind_run_P, (parse_options_passes results false p Hall). cbn [fst snd orb].
  rewrite arg_0, arg_1.
  assert (H0 : (length [a0; id] =? 0)%nat = false) by reflexivity. rewrite H0.
  assert (H2 : (length [a0; id] =? 2)%nat = true) by reflexivity. rewrite H2.
  apply String.eqb_neq in Hgen. rewrite Hgen. cbn [andb orb negb].
  destruct (forced results) eqn:Hf; [|reflexivity].
  rewrite (Hforce eq_refl), String.eqb_refl. reflexivity.
Qed.

Lemma wipe_action_other t :
  wipe_action t ≠ "generate" ∧ wipe_action t ≠ "switch".
Proof. destruct t; split; discriminate. Qed.

(** X14: a wipe action with a ROM id (and no --force) exits with success
    exactly when Roms::create_rom knows the ROM and the wipe function of
    that action reports success.  wipe.h is called once, for the ROM and
    with the function that the action names; for a ROM that create_rom
    does not know it is not called at all. *)
Theorem utilities_main_wipe results t a0 id p :
  Forall passes results → forced results = false → c_str a0 = wipe_action t →
  utilities_main results [a0; id] p =
  match create_rom (c_str id) with
  | None => (Some EXIT_FAILURE, options_applied results p)
  | Some rom =>
      (Some (exit_status (wipe_engine t rom)),
       (call_wipe t (wipe_engine t) rom (options_applied results p)).2)
  end.
Proof.
  intros Hall Hforce Ha0. destruct (wipe_action_other t) as [Hgen Hsw].
  rewrite utilities_main_one_argument;
    [| exact Hall | rewrite Ha0; exact Hgen | rewrite Hforce; discriminate].
  cbn zeta. rewrite Ha0.
  destruct t; cbn [wipe_action wipe_engine String.eqb Ascii.eqb Bool.eqb andb];
    rewrite !bind_run_P;
    unfold utilities_wipe_system, utilities_wipe_cache, utilities_wipe_data,
      utilities_wipe_dalvik_cache, utilities_wipe_multiboot;
    destruct (create_rom (c_str id)) as [rom|]; try reflexivity;
    cbn [call_wipe fst snd option_map]; unfold exit_status;
    match goal with |- context [if ?b then _ else _] => destruct b end; reflexivity.
Qed.

(** What utilities_switch_rom does to the state, for utilities_main. *)
Lemma utilities_switch_rom_effects rom_id force st :
  let res := utilities_switch_rom rom_id force st in
  _zf res.2 = _zf st ∧ devices_file res.2 = devices_file st ∧
  (switch_calls res.2 = switch_calls st ∨
   ∃ call, switch_calls res.2 = switch_calls st ++ [call] ∧
           sc_rom_id call = c_str rom_id ∧ sc_force call = force) ∧
  (devices_file st = None → res.1 = false ∧ switch_calls res.2 = switch_calls st).
Proof.
  intros res. subst res. rewrite utilities_switch_rom_run.
  destruct (devices_file st) as [file|] eqn:Hfile.
  2:{ cbn. rewrite Hfile. auto. }
  cbn zeta.
  destruct (logged_fields st _ (get_device_logged file st)) as (Hsc & Hdf & Hzf & _).
  destruct (get_device file st).1 as [device|].
  2:{ cbn. rewrite Hsc, Hdf, Hzf, Hfile.
      split; [reflexivity|]. split; [reflexivity|]. split; [auto | discriminate]. }
  destruct (list_find _ _) as [[i p]|].
  - cbn. rewrite Hsc, Hdf, Hzf, Hfile.
    split; [reflexivity|]. split; [reflexivity|]. split; [|discriminate].
    right. eexists. split; [reflexivity|]. split; reflexivity.
  - cbn. rewrite Hsc, Hdf, Hzf, Hfile.
    split; [reflexivity|]. split; [reflexivity|]. split; [auto | discriminate].
Qed.

(** X15: for the switch action the options may come in any number and
    order: utilities_switch_rom runs with force set when -f/--force occurs
    at least once and with the devices file of the last -d/--devices, and
    the exit status is success exactly when it returns true.  With no
    devices file the program fails without calling the switch engine. *)
Theorem utilities_main_switch results a0 id p :
  Forall passes results → c_str a0 = "switch" →
  let p1 := options_applied results p in
  let res := utilities_switch_rom id (forced results) (proc_state p1) in
  utilities_main results [a0; id] p = (Some (exit_status res.1), set_proc_state res.2 p1) ∧
  (chosen_devices_file results (devices_file (proc_state p)) = None →
   res.1 = false ∧ switch_calls res.2 = switch_calls (proc_state p)).
Proof.
  intros Hall Ha0 p1 res. split.
  - rewrite utilities_main_one_argument;
      [| exact Hall | rewrite Ha0; discriminate | intros _; exact Ha0].
    cbn zeta. rewrite Ha0, String.eqb_refl. reflexivity.
  - intros Hnone.
    destruct (utilities_switch_rom_effects id (forced results) (proc_state p1))
      as (_ & _ & _ & Hno).
    apply Hno. exact Hnone.
Qed.

(** X16: a first argument that names no action, followed by one more
    argument (and no --force), makes utilities_main log the error
    Unknown action with the name and exit with failure; nothing else
    happens. *)
Theorem utilities_main_unknown_action results a0 id p :
  Forall passes results → forced results = false →
  c_str a0 ∉ ["generate"; "switch"; "wipe-system"; "wipe-cache"; "wipe-data";
               "wipe-dalvik-cache"; "wipe-multiboot"] →
  let p1 := options_applied results p in
  utilities_main results [a0; id] p =
  (Some EXIT_FAILURE,
   set_proc_state
     (add_log LOG_ERROR (format "Unknown action: %s" [FmtStr (c_str a0)]) (proc_state p1))
     p1).
Proof.
  intros Hall Hforce Hnot p1.
  repeat (apply not_elem_of_cons in Hnot as [?%String.eqb_neq Hnot]).
  rewrite utilities_main_one_argument;
    [| exact Hall | apply String.eqb_neq; assumption | rewrite Hforce; discriminate].
  cbn zeta.
  repeat match goal with H : (String.eqb _ _) = false |- _ => rewrite H; clear H end.
  reflexivity.
Qed.

Lemma usage_error_dec force args : usage_error force args ∨ ¬ usage_error force args.
Proof.
  destruct args as [|a0 rest]; [left; exact I|]. cbn [usage_error].
  destruct (decide (c_str a0 = "generate")) as [Hgen | Hgen];
    destruct (decide (length (a0 :: rest) = 3%nat)) as [H3 | H3];
    destruct (decide (length (a0 :: rest) = 2%nat)) as [H2 | H2];
    destruct (decide (c_str a0 = "switch")) as [Hsw | Hsw];
    destruct force;
    try (left; auto; fail);
    right; intros [[? ?] | [[? ?] | [? ?]]]; congruence.
Qed.

(** utilities_main once the options are read, for the generate action. *)
Lemma utilities_main_generate results a0 path zippath p :
  Forall passes results → forced results = false → c_str a0 = "generate" →
  let p1 := options_applied results p in
  let res := generate path zippath (proc_state p1) in
  utilities_main results [a0; path; zippath] p =
  (option_map exit_status res.1, set_proc_state res.2 p1).
Proof.
  intros Hall Hforce Ha0 p1 res. unfold utilities_main.
  rewrite bind_run_P, (parse_options_passes results false p Hall). cbn [fst snd orb].
  rewrite arg_0, arg_1, arg_2, Hforce, Ha0.
  assert (H0 : (length [a0; path; zippath] =? 0)%nat = false) by reflexivity. rewrite H0.
  assert (H3 : (length [a0; path; zippath] =? 3)%nat = true) by reflexivity. rewrite H3.
  rewrite String.eqb_refl. reflexivity.
Qed.

(** X17: whatever the options and the arguments, utilities_main calls
    wipe.h at most once, and only for a wipe action whose ROM
    Roms::create_rom knows, with the function that the action names; it
    calls the switch engine at most once, and only for the switch action,
    for the ROM given and with the force flag of the options; and it
    touches the archive only for the generate action. *)
Theorem utilities_main_effects results args p :
  let res := utilities_main results args p in
  let st := proc_state p in
  let st' := proc_state res.2 in
  (wipe_calls res.2 = wipe_calls p ∨
   ∃ t a0 id rom,
     args = [a0; id] ∧ c_str a0 = wipe_action t ∧ create_rom (c_str id) = Some rom ∧
     wipe_calls res.2 = wipe_calls p ++ [{| wc_target := t; wc_rom := rom |}]) ∧
  (switch_calls st' = switch_calls st ∨
   ∃ a0 id call,
     args = [a0; id] ∧ c_str a0 = "switch" ∧
     switch_calls st' = switch_calls st ++ [call] ∧
     sc_rom_id call = c_str id ∧ sc_force call = forced results) ∧
  (_zf st' = _zf st ∨
   ∃ a0 path zippath, args = [a0; path; zippath] ∧ c_str a0 = "generate").
Proof.
  intros res st st'. subst res st st'.
  destruct (options_split results) as [Hall | (pre & r & post & -> & Hpre & Hr)].
  2:{ unfold utilities_main.
      rewrite bind_run_P, (parse_options_stops pre r post false p Hpre Hr).
      destruct (Ascii.eqb (opt r) "h"); cbn [fst snd]; auto. }
  destruct (usage_error_dec (forced results) args) as [Herr | Hok].
  { rewrite (utilities_main_usage results args p Hall Herr). cbn [snd]. auto. }
  destruct args as [|a0 rest]; [exfalso; apply Hok; exact I|].
  cbn [usage_error] in Hok.
  destruct (decide (c_str a0 = "generate")) as [Hgen | Hgen].
  - assert (Hlen : length (a0 :: rest) = 3%nat).
    { destruct (decide (length (a0 :: rest) = 3%nat)); [assumption|].
      exfalso. apply Hok. auto. }
    assert (Hforce : forced results = false).
    { destruct (forced results); [|reflexivity]. exfalso. apply Hok.
      right. right. split; [reflexivity|]. rewrite Hgen. discriminate. }
    destruct rest as [|path [|zippath [|? ?]]]; try discriminate Hlen.
    rewrite (utilities_main_generate results a0 path zippath p Hall Hforce Hgen).
    cbn [snd proc_state wipe_calls set_proc_state options_applied].
    split; [left; reflexivity|]. split; [|right; eauto].
    left.
    apply (keeps_run (λ s, switch_calls s = switch_calls (proc_state p)));
      [intros; assumption | intros; assumption | reflexivity].
  - assert (Hlen : length (a0 :: rest) = 2%nat).
    { destruct (decide (length (a0 :: rest) = 2%nat)); [assumption|].
      exfalso. apply Hok. auto. }
    assert (Hforce : forced results = true → c_str a0 = "switch").
    { intros Hf. destruct (decide (c_str a0 = "switch")); [assumption|].
      exfalso. apply Hok. auto. }
    destruct rest as [|id [|? ?]]; try discriminate Hlen.
    rewrite (utilities_main_one_argument results a0 id p Hall Hgen Hforce).
    cbn zeta. rewrite bind_run_P.
    destruct (String.eqb_spec (c_str a0) "switch") as [Hsw | _].
    { rewrite bind_run_P.
      destruct (utilities_switch_rom_effects id (forced results)
                  (proc_state (options_applied results p)))
        as (Hzf & _ & Hcalls & _).
      cbn [fst snd lift proc_state wipe_calls set_proc_state].
      split; [left; reflexivity|]. split; [|left; exact Hzf].
      destruct Hcalls as [Hsame | (call & Hcall & Hid & Hf)]; [left; exact Hsame|].
      right. exists a0, id, call. auto. }
    destruct (String.eqb_spec (c_str a0) "wipe-system") as [Hw | _].
    { rewrite bind_run_P. unfold utilities_wipe_system.
      destruct (create_rom (c_str id)) as [rom|] eqn:Hrom; [|cbn; auto].
      cbn [fst snd call_wipe wipe_calls proc_state].
      split; [|auto]. right. exists WipeSystem, a0, id, rom. auto. }
    destruct (String.eqb_spec (c_str a0) "wipe-cache") as [Hw | _].
    { rewrite bind_run_P. unfold utilities_wipe_cache.
      destruct (create_rom (c_str id)) as [rom|] eqn:Hrom; [|cbn; auto].
      cbn [fst snd call_wipe wipe_calls proc_state].
      split; [|auto]. right. exists WipeCache, a0, id, rom. auto. }
    destruct (String.eqb_spec (c_str a0) "wipe-data") as [Hw | _].
    { rewrite bind_run_P. unfold utilities_wipe_data.
      destruct (create_rom (c_str id)) as [rom|] eqn:Hrom; [|cbn; auto].
      cbn [fst snd call_wipe wipe_calls proc_state].
      split; [|auto]. right. exists WipeData, a0, id, rom. auto. }
    destruct (String.eqb_spec (c_str a0) "wipe-dalvik-cache") as [Hw | _].
    { rewrite bind_run_P. unfold utilities_wipe_dalvik_cache.
      destruct (create_rom (c_str id)) as [rom|] eqn:Hrom; [|cbn; auto].
      cbn [fst snd call_wipe wipe_calls proc_state].
      split; [|auto]. right. exists WipeDalvikCache, a0, id, rom. auto. }
    destruct (String.eqb_spec (c_str a0) "wipe-multiboot") as [Hw | _].
    { rewrite bind_run_P. unfold utilities_wipe_multiboot.
      destruct (create_rom (c_str id)) as [rom|] eqn:Hrom; [|cbn; auto].
      cbn [fst snd call_wipe wipe_calls proc_state].
      split; [|auto]. right. exists WipeMultiboot, a0, id, rom. auto. }
    cbn. auto.
Qed.

End utilities_main_facts.

(** * The statements on the sample system *)

Section sample_runs.
Import Sample.

Lemma get_device_first_match_witness :
  (@get_device _ bare "/devices.json" initial_state).1 = Some nexus5.
Proof.
  pose proof (@get_device_first_match _ bare "/devices.json"
                (list_byte_of_string devices_json) devices initial_state
                eq_refl eq_refl) as [Hsome _].
  apply Hsome. exists 2%nat. split; [reflexivity|]. split.
  - split; [reflexivity|]. left. vm_compute. constructor.
  - intros j d' Hj Hd'. destruct j as [|[|j]]; [| |lia].
    + injection Hd' as <-. intros [_ [Hin | Hin]]; vm_compute in Hin;
        apply list_elem_of_singleton in Hin; discriminate.
    + injection Hd' as <-. intros [Hvalid _]. discriminate.
Defined.

Lemma invalid_device_skipped_witness :
  @get_device_loop _ bare "hammerhead" "hammerhead" devices initial_state =
  @get_device_loop _ bare "hammerhead" "hammerhead" [nexus5; nexus5_copy]
    (add_log LOG_WARNING "Skipping invalid device" initial_state)
  ∧ (∀ path st0, (@get_device _ bare path st0).1 ≠ Some broken).
Proof.
  apply (@invalid_device_skipped _ bare "hammerhead" "hammerhead" [other] broken
           [nexus5; nexus5_copy] initial_state initial_state).
  - reflexivity.
  - intros Hvalid. discriminate.
Defined.

Lemma switch_rom_first_blockdev_witness :
  let res := @utilities_switch_rom _ bare "dual" false state_with_devices in
  res.1 = true ∧
  switch_calls res.2 =
    [{| sc_rom_id := "dual"; sc_boot_blockdev := "/dev/block/mmcblk0p19";
        sc_blockdev_base_dirs := ["/dev/block/platform/msm_sdcc.1/by-name"];
        sc_force := false |}].
Proof.
  pose proof (@switch_rom_first_blockdev _ bare "/devices.json" nexus5 "dual" false
                state_with_devices
                (@get_device _ bare "/devices.json" state_with_devices).2
                eq_refl eq_refl) as [Hfirst _].
  destruct (Hfirst 2%nat "/dev/block/mmcblk0p19" eq_refl) as [Hcalls Hres].
  - eexists. split; reflexivity.
  - intros j q Hj Hq (sb & Hstat & Hblk).
    destruct j as [|[|j]]; [| |lia]; injection Hq as <-; vm_compute in Hstat.
    + discriminate.
    + injection Hstat as <-. discriminate.
  - split; [exact Hres | exact Hcalls].
Defined.

Lemma control_file_rewritten_witness :
  let res := @on_reached_file _ bare gen control_entry opened in
  res.1 = Some Ok ∧
  ∃ zf', _zf res.2 = Some zf' ∧
         zf_entries zf' =
           [{| ze_filename := "META-INF/com/google/android/aroma-config";
               ze_zipfi := zip_fileinfo_zero;
               ze_method := Z_DEFLATED; ze_level := Z_DEFAULT_COMPRESSION;
               ze_raw := 0; ze_zip64 := false;
               ze_data := list_byte_of_string "3,2" |}].
Proof.
  destruct (@control_file_rewritten _ bare gen control_entry opened empty_archive
              eq_refl eq_refl) as (zf' & new & Hzf & Hent & _ & Hctrl).
  destruct (Hctrl eq_refl) as [_ Hok].
  destruct (Hok (list_byte_of_string template) eq_refl
                (conj (λ _ _, eq_refl) (conj (λ _ _, eq_refl) (λ _, eq_refl)))
                eq_refl) as [Hres Hnew].
  split; [exact Hres|]. exists zf'. split; [exact Hzf|].
  rewrite Hent, Hnew. reflexivity.
Defined.

Lemma rom_items_expansion_witness :
  @generate_aroma_config _ two_roms
    (list_byte_of_string "@ROM_MENU_ITEMS@|@ROM_SELECTION_ITEMS@") =
  list_byte_of_string
    (menu_line "primary" +:+ menu_line "Lineage" +:+ "|" +:+
     selection_block "3" "primary" "primary" +:+
     selection_block "4" "dual" "Lineage").
Proof.
  assert (Hroms : Forall (λ r, is_c_string (rom_id r) ∧
                              is_c_string (@display_name _ two_roms r))
                         (@installed_roms _ two_roms)).
  { repeat constructor; vm_compute; intros Hin;
      repeat (apply elem_of_cons in Hin as [Hin | Hin]; [discriminate|]);
      inversion Hin. }
  rewrite (proj1 (@rom_items_expansion _ two_roms
                    (list_byte_of_string "@ROM_MENU_ITEMS@|@ROM_SELECTION_ITEMS@")
                    eq_refl Hroms)).
  reflexivity.
Defined.

Lemma index_placeholders_witness :
  @generate_aroma_config _ bare (list_byte_of_string "@FIRST_INDEX@,@LAST_INDEX@") =
  list_byte_of_string "3,2".
Proof.
  apply (@index_placeholders _ bare EmptyString "," EmptyString).
  - reflexivity.
  - vm_compute. intros Hin. apply list_elem_of_singleton in Hin. discriminate.
  - vm_compute. intros Hin. apply list_elem_of_singleton in Hin. discriminate.
  - intros Hin. repeat (apply elem_of_cons in Hin as [Hin | Hin]; [discriminate|]).
    inversion Hin.
Defined.

Lemma tree_below_root :
  Forall (λ e, fts_info e = RegularFile → is_Some (entry_name gen e)) tree.
Proof.
  repeat apply Forall_cons_2; try apply Forall_nil_2;
    intros Hkind; first [discriminate Hkind | eexists; reflexivity].
Qed.

Lemma archive_finalized_witness :
  let res := @run _ bare false gen tree initial_state in
  res.1 = Some false ∧ ∃ zf, _zf res.2 = Some zf ∧ zf_closed zf = true.
Proof.
  destruct (@archive_finalized _ bare false gen tree initial_state eq_refl
              tree_below_root) as ((b & zf & _ & Hzf & Hclosed) & Hfail & _).
  split.
  - apply (Hfail (take 5 tree) (entry RegularFile "/tmpl/missing")
                 [entry Directory "/tmpl"]
                 (@traverse _ bare false gen (take 5 tree) true opened).2);
      reflexivity.
  - exists zf. split; assumption.
Defined.

Lemma links_and_special_files_skipped_witness :
  ∃ msg,
    @on_entry _ bare gen (entry Symlink "/tmpl/link") opened =
      (Some Ok, add_log LOG_WARNING msg opened) ∧
    _zf (add_log LOG_WARNING msg opened) = _zf opened ∧
    @traverse _ bare true gen (entry Symlink "/tmpl/link" :: [control_entry]) true opened =
      @traverse _ bare true gen [control_entry] true (add_log LOG_WARNING msg opened).
Proof.
  apply (@links_and_special_files_skipped _ bare true gen (entry Symlink "/tmpl/link")
           [control_entry] true opened).
  left. reflexivity.
Defined.

Lemma regular_file_streamed_witness :
  let res := @on_reached_file _ bare gen (entry RegularFile "/tmpl/a.txt") opened in
  res.1 = Some Ok ∧
  _zf res.2 =
    Some {| zf_entries :=
              [{| ze_filename := "a.txt";
                  ze_zipfi := {| tmz_date := tmz_date zip_fileinfo_zero;
                                 dosDate := 0; internal_fa := 0;
                                 external_fa := Z.shiftl 420 16 |};   (* 0644 *)
                  ze_method := Z_DEFLATED; ze_level := Z_DEFAULT_COMPRESSION;
                  ze_raw := 0; ze_zip64 := false;
                  ze_data := list_byte_of_string "hi" |}];
            zf_current := None; zf_closed := false |} ∧
  Z.shiftr (Z.shiftl 420 16) 16 = 420.
Proof.
  apply (@regular_file_streamed _ bare gen (entry RegularFile "/tmpl/a.txt") opened
           empty_archive "a.txt" file_hi {| st_mode := 33188 |} 2
           [list_byte_of_string "hi"]); try reflexivity.
  - discriminate.
  - lia.
  - repeat constructor; vm_compute; congruence.
  - repeat split.
Defined.


(** The whole build of a template that holds the one file a.txt: the
    archive is finalized with that single entry and the build succeeds. *)
Example build_one_file :
  let res := @run _ bare false gen
               [entry Directory "/tmpl"; entry RegularFile "/tmpl/a.txt";
                entry Directory "/tmpl"] initial_state in
  res.1 = Some true ∧
  _zf res.2 =
    Some {| zf_entries :=
              [{| ze_filename := "a.txt";
                  ze_zipfi := {| tmz_date := tmz_date zip_fileinfo_zero;
                                 dosDate := 0; internal_fa := 0;
                                 external_fa := Z.shiftl 420 16 |};
                  ze_method := Z_DEFLATED; ze_level := Z_DEFAULT_COMPRESSION;
                  ze_raw := 0; ze_zip64 := false;
                  ze_data := list_byte_of_string "hi" |}];
            zf_current := None; zf_closed := true |}.
Proof. split; reflexivity. Qed.

End sample_runs.

(** * The further statements on the sample systems *)

Section sample_runs_more.
Import Sample.

Lemma get_device_log_lines_witness :
  log (@get_device _ bare "/devices.json" initial_state).2 =
  [{| ll_level := LOG_DEBUG; ll_msg := "ro.product.device = hammerhead" |};
   {| ll_level := LOG_DEBUG; ll_msg := "ro.build.product = hammerhead" |};
   {| ll_level := LOG_WARNING; ll_msg := "Skipping invalid device" |}].
Proof.
  exact (@get_device_log_lines _ bare "/devices.json"
           (list_byte_of_string devices_json) devices initial_state eq_refl eq_refl).
Defined.

Lemma generate_aroma_config_plain_text_witness :
  @generate_aroma_config _ two_roms (list_byte_of_string "ini_set(dp, 3);") =
  list_byte_of_string "ini_set(dp, 3);".
Proof.
  apply (@generate_aroma_config_plain_text _ two_roms "ini_set(dp, 3);");
    vm_compute; repeat (apply not_elem_of_cons; split; [discriminate|]);
    apply not_elem_of_nil.
Defined.

Lemma generate_aroma_config_tabs_escaped_witness :
  let out :=
    string_of_list_byte
      (@generate_aroma_config _ two_roms
         (list_byte_of_string ("a" +:+ String TAB "@FIRST_INDEX@"))) in
  out = "a\t3" ∧ tab_free out.
Proof.
  destruct (@generate_aroma_config_tabs_escaped _ two_roms
              (list_byte_of_string ("a" +:+ String TAB "@FIRST_INDEX@")))
    as (Hout & _ & Hfree).
  split; [rewrite Hout; reflexivity|].
  apply Hfree;
    try (vm_compute; repeat (apply not_elem_of_cons; split; [discriminate|]);
         apply not_elem_of_nil).
  repeat apply Forall_cons_2; try apply Forall_nil_2;
    (split; vm_compute; repeat (apply not_elem_of_cons; split; [discriminate|]);
     apply not_elem_of_nil).
Defined.

Lemma on_reached_file_appends_witness :
  ∃ zf' new,
    _zf (@on_reached_file _ bare gen (entry RegularFile "/tmpl/missing") opened).2 =
      Some zf' ∧
    zf_entries zf' = [] ++ new ∧ (length new ≤ 1)%nat ∧
    Forall (λ en, ∃ name,
              @entry_name gen (entry RegularFile "/tmpl/missing") = Some name ∧
              ze_filename en = stored_name name) new ∧
    zf_current zf' = None ∧ zf_closed zf' = false.
Proof.
  exact (@on_reached_file_appends _ bare gen (entry RegularFile "/tmpl/missing") opened
           empty_archive eq_refl eq_refl).
Defined.



Lemma run_archive_entries_witness :
  ∃ zf,
    _zf (@run _ bare false gen tree initial_state).2 = Some zf ∧
    (length (zf_entries zf) ≤ 3)%nat ∧
    Forall (@entry_of_tree gen tree) (zf_entries zf) ∧
    zf_current zf = None.
Proof.
  exact (@run_archive_entries _ bare false gen tree initial_state eq_refl).
Defined.

End sample_runs_more.

Section sample_mains.
Import Sample SampleMain.

Lemma utilities_main_option_ends_witness :
  let res := @utilities_main _ bare tools [option_f; option_unknown; option_h]
               ["wipe-data"; "dual"] initial_process in
  res.1 = Some EXIT_FAILURE ∧
  printed res.2 = [(Stderr, diagnostic option_unknown); (Stderr, usage_text)] ∧
  wipe_calls res.2 = [] ∧
  switch_calls (proc_state res.2) = [] ∧
  log (proc_state res.2) = [] ∧
  _zf (proc_state res.2) = None.
Proof.
  apply (@utilities_main_option_ends _ bare tools [option_f] option_unknown [option_h]
           ["wipe-data"; "dual"] initial_process).
  - repeat (apply Forall_cons_2; [first [left; reflexivity | right; reflexivity]|]);
      apply Forall_nil_2.
  - intros [H | H]; discriminate H.
Defined.

Lemma utilities_main_usage_error_witness :
  @utilities_main _ bare tools [option_f] ["wipe-data"; "dual"] initial_process =
  (Some EXIT_FAILURE,
   {| proc_state := initial_state; wipe_calls := [];
      printed := [(Stderr, usage_text)] |}).
Proof.
  apply (@utilities_main_usage_error _ bare tools [option_f] ["wipe-data"; "dual"]
           initial_process).
  - repeat (apply Forall_cons_2; [first [left; reflexivity | right; reflexivity]|]);
      apply Forall_nil_2.
  - right. right. split; [reflexivity | discriminate].
Defined.

Lemma utilities_main_wipe_witness :
  @utilities_main _ bare tools [option_d "/devices.json"] ["wipe-cache"; "dual"]
    initial_process =
  (Some EXIT_FAILURE,
   {| proc_state := state_with_devices;
      wipe_calls := [{| wc_target := WipeCache; wc_rom := rom "dual" |}];
      printed := [] |}).
Proof.
  apply (@utilities_main_wipe _ bare tools [option_d "/devices.json"] WipeCache
           "wipe-cache" "dual" initial_process).
  - repeat (apply Forall_cons_2; [first [left; reflexivity | right; reflexivity]|]);
      apply Forall_nil_2.
  - reflexivity.
  - reflexivity.
Defined.

Lemma utilities_main_switch_witness :
  (@utilities_main _ bare tools
     [option_d "/nowhere"; option_f; option_d "/devices.json"] ["switch"; "dual"]
     initial_process).1 = Some EXIT_SUCCESS.
Proof.
  destruct (@utilities_main_switch _ bare tools
              [option_d "/nowhere"; option_f; option_d "/devices.json"]
              "switch" "dual" initial_process) as [Hrun _].
  - repeat (apply Forall_cons_2; [first [left; reflexivity | right; reflexivity]|]);
      apply Forall_nil_2.
  - reflexivity.
  - rewrite Hrun. reflexivity.
Defined.

Lemma utilities_main_unknown_action_witness :
  @utilities_main _ bare tools [] ["wipe"; "dual"] initial_process =
  (Some EXIT_FAILURE,
   {| proc_state := add_log LOG_ERROR "Unknown action: wipe" initial_state;
      wipe_calls := []; printed := [] |}).
Proof.
  apply (@utilities_main_unknown_action _ bare tools [] "wipe" "dual" initial_process).
  - constructor.
  - reflexivity.
  - repeat (apply not_elem_of_cons; split; [discriminate|]). apply not_elem_of_nil.
Defined.

End sample_mains.

(** * The template root with a trailing slash, and a root that is a file *)

Section sample_defects.
Import Sample.

(** C4: with the template directory given as /tmpl/, on_reached_file drops
    one character too many from the path of the control file: the name it
    computes is ETA-INF/com/google/android/aroma-config.in, which is not
    the control-file name, so the file is copied as it is, with its
    placeholders, under that name.  It is neither substituted nor stored
    as META-INF/com/google/android/aroma-config. *)
Lemma control_file_trailing_slash :
  let res := @on_reached_file _ TrailingSlash.externals TrailingSlash.gen
               control_entry opened in
  fts_path control_entry =
    _path TrailingSlash.gen +:+ "META-INF/com/google/android/aroma-config.in" ∧
  entry_name TrailingSlash.gen control_entry =
    Some "ETA-INF/com/google/android/aroma-config.in" ∧
  res.1 = Some Ok ∧
  _zf res.2 =
    Some {| zf_entries :=
              [{| ze_filename := "ETA-INF/com/google/android/aroma-config.in";
                  ze_zipfi := {| tmz_date := tmz_date zip_fileinfo_zero;
                                 dosDate := 0; internal_fa := 0;
                                 external_fa := Z.shiftl 420 16 |};
                  ze_method := Z_DEFLATED; ze_level := Z_DEFAULT_COMPRESSION;
                  ze_raw := 0; ze_zip64 := false;
                  ze_data := list_byte_of_string "@FIRST_INDEX@,@LAST_INDEX@" |}];
            zf_current := None; zf_closed := false |}.
Proof. repeat split. Qed.

(** C9: with the template directory given as /tmpl/, the file /tmpl/a.txt
    is stored under the name .txt, not under its relative path a.txt: the
    name is the path without its first _path.size() + 1 characters, and
    the root already ends with the separator. *)
Lemma regular_file_trailing_slash :
  let res := @on_reached_file _ bare TrailingSlash.gen (entry RegularFile "/tmpl/a.txt")
               opened in
  fts_path (entry RegularFile "/tmpl/a.txt") = _path TrailingSlash.gen +:+ "a.txt" ∧
  res.1 = Some Ok ∧
  _zf res.2 =
    Some {| zf_entries :=
              [{| ze_filename := ".txt";
                  ze_zipfi := {| tmz_date := tmz_date zip_fileinfo_zero;
                                 dosDate := 0; internal_fa := 0;
                                 external_fa := Z.shiftl 420 16 |};
                  ze_method := Z_DEFLATED; ze_level := Z_DEFAULT_COMPRESSION;
                  ze_raw := 0; ze_zip64 := false;
                  ze_data := list_byte_of_string "hi" |}];
            zf_current := None; zf_closed := false |}.
Proof. repeat split. Qed.

(** C7 does not extend to a callback that throws: for a template root that
    is itself a regular file the walk yields the root alone, substr throws
    in on_reached_file, and the run ends on the exception with the archive
    opened and never closed. *)
Lemma archive_left_open_on_exception :
  let res := @run _ bare false gen [entry RegularFile "/tmpl"] initial_state in
  @zipOpen2_64_ok _ bare (c_str (_zippath gen)) = true ∧
  entry_name gen (entry RegularFile "/tmpl") = None ∧
  res.1 = None ∧
  _zf res.2 = Some {| zf_entries := []; zf_current := None; zf_closed := false |}.
Proof. repeat split. Qed.

End sample_defects.
